(** * URL parameterizer: a shallow embedding of the synchronisation engine

    The development follows the TypeScript sources:
    - [utils.ts]                  ([resolve], [supportsHistory]),
    - [debounce.ts]               ([MappedDebouncer]),
    - [URLParameterize.svelte.ts] (handler resolution, the URL change bus,
      the key registry and write cache, the binding engine).

    JavaScript strings are represented by their UTF-8 encoding, held in a
    [string] whose characters are the bytes.  Mutable module state (the
    registries of [globals], the browser location and history, every bound
    target object) is gathered in one record that the operations thread
    explicitly; a thrown exception is an [Err] result, and the state reached
    when it was thrown is kept, as mutation is in JavaScript. *)

From Stdlib Require Import ZArith NArith List Ascii String Bool Lia.
From stdpp Require Import base option list gmap strings.

Local Open Scope string_scope.
Local Open Scope list_scope.
Local Open Scope Z_scope.

(* ================================================================== *)
(** * Part I. Definitions                                              *)
(* ================================================================== *)

(** ** Bytes, hexadecimal digits and percent escapes *)

Definition byte_val (c : ascii) : N := N_of_ascii c.

Definition in_range (lo hi : N) (c : ascii) : bool :=
  ((lo <=? byte_val c) && (byte_val c <=? hi))%N.

Definition is_digit (c : ascii) : bool := in_range 48 57 c.
Definition is_upper (c : ascii) : bool := in_range 65 90 c.
Definition is_lower (c : ascii) : bool := in_range 97 122 c.
Definition is_alnum (c : ascii) : bool := is_digit c || is_upper c || is_lower c.

Definition mem_ascii (c : ascii) (s : string) : bool :=
  existsb (Ascii.eqb c) (list_ascii_of_string s).

(** The uppercase hexadecimal digit of a value below sixteen. *)
Definition hex_digit (n : N) : ascii :=
  match String.get (N.to_nat n) "0123456789ABCDEF" with
  | Some c => c
  | None => "0"%char
  end.

(** The value of a hexadecimal digit, either case. *)
Definition hex_val (c : ascii) : option N :=
  if is_digit c then Some (byte_val c - 48)%N
  else if in_range 65 70 c then Some (byte_val c - 55)%N
  else if in_range 97 102 c then Some (byte_val c - 87)%N
  else None.

Definition pct_escape (c : ascii) : string :=
  String "%" (String (hex_digit (byte_val c / 16))
             (String (hex_digit (byte_val c mod 16)) EmptyString)).

(** Strict percent decoding: every [%] must be followed by two hexadecimal
    digits. *)
Fixpoint pct_decode (s : string) : option string :=
  match s with
  | EmptyString => Some EmptyString
  | String c r =>
      if Ascii.eqb c "%" then
        match r with
        | String h (String l r') =>
            match hex_val h, hex_val l with
            | Some a, Some b =>
                option_map (String (ascii_of_N (16 * a + b))) (pct_decode r')
            | _, _ => None
            end
        | _ => None
        end
      else option_map (String c) (pct_decode r)
  end.

(** ** UTF-8 well-formedness (RFC 3629: shortest form, no surrogates, at
    most U+10FFFF) *)

Definition is_cont (b : N) : bool := ((128 <=? b) && (b <=? 191))%N.

Fixpoint utf8_valid_bytes (l : list N) : bool :=
  match l with
  | [] => true
  | b0 :: r =>
      if (b0 <? 128)%N then utf8_valid_bytes r
      else if ((194 <=? b0) && (b0 <=? 223))%N then
        match r with
        | b1 :: r1 => is_cont b1 && utf8_valid_bytes r1
        | _ => false
        end
      else if ((224 <=? b0) && (b0 <=? 239))%N then
        match r with
        | b1 :: b2 :: r2 =>
            is_cont b1 && is_cont b2
            && (if (b0 =? 224)%N then (160 <=? b1)%N else true)
            && (if (b0 =? 237)%N then (b1 <=? 159)%N else true)
            && utf8_valid_bytes r2
        | _ => false
        end
      else if ((240 <=? b0) && (b0 <=? 244))%N then
        match r with
        | b1 :: b2 :: b3 :: r3 =>
            is_cont b1 && is_cont b2 && is_cont b3
            && (if (b0 =? 240)%N then (144 <=? b1)%N else true)
            && (if (b0 =? 244)%N then (b1 <=? 143)%N else true)
            && utf8_valid_bytes r3
        | _ => false
        end
      else false
  end.

Definition utf8_valid (s : string) : bool :=
  utf8_valid_bytes (map byte_val (list_ascii_of_string s)).

(** ** [encodeURIComponent] and [decodeURIComponent] *)

(** The characters [encodeURIComponent] leaves alone: letters, digits and
    [- _ . ! ~ * ' ( )]. *)
Definition uri_unreserved (c : ascii) : bool :=
  is_alnum c || mem_ascii c "-_.!~*'()".

(** Every other character is written as the percent escapes of its UTF-8
    bytes, which in this representation are the bytes at hand. *)
Fixpoint encodeURIComponent (s : string) : string :=
  match s with
  | EmptyString => EmptyString
  | String c r =>
      if uri_unreserved c then String c (encodeURIComponent r)
      else pct_escape c +:+ encodeURIComponent r
  end.

(** [None] is the [URIError] the native function throws: a malformed escape,
    or escapes that do not spell well-formed UTF-8. *)
Definition decodeURIComponent (s : string) : option string :=
  match pct_decode s with
  | Some b => if utf8_valid b then Some b else None
  | None => None
  end.

(** ** [URLSearchParams]: an ordered list of name/value pairs *)

Module URLSearchParams.

Abbreviation t := (list (string * string)).

Definition name_is (p : string) (kv : string * string) : bool :=
  String.eqb (fst kv) p.

Definition has (p : string) (u : t) : bool := existsb (name_is p) u.

Definition getAll (p : string) (u : t) : list string :=
  map snd (filter (fun kv => name_is p kv = true) u).

Definition get (p : string) (u : t) : option string := head (getAll p u).

Definition delete (p : string) (u : t) : t :=
  filter (fun kv => name_is p kv = false) u.

Definition append (p v : string) (u : t) : t := u ++ [(p, v)].

(** [set] overwrites the first pair named [p], drops the later ones, and
    appends when there is none. *)
Fixpoint set (p v : string) (u : t) : t :=
  match u with
  | [] => [(p, v)]
  | kv :: r => if name_is p kv then (p, v) :: delete p r else kv :: set p v r
  end.

(** The [application/x-www-form-urlencoded] byte serialiser: letters, digits
    and [* - . _] stay, a space becomes [+], the rest is percent-escaped. *)
Definition form_safe (c : ascii) : bool := is_alnum c || mem_ascii c "*-._".

Fixpoint form_encode (s : string) : string :=
  match s with
  | EmptyString => EmptyString
  | String c r =>
      if form_safe c then String c (form_encode r)
      else if Ascii.eqb c " " then String "+" (form_encode r)
      else pct_escape c +:+ form_encode r
  end.

(** Lenient percent decoding of the parser: [+] is a space, and a [%] that
    two hexadecimal digits do not follow stands for itself. *)
Fixpoint form_decode (s : string) : string :=
  match s with
  | EmptyString => EmptyString
  | String c r =>
      if Ascii.eqb c "+" then String " " (form_decode r)
      else if Ascii.eqb c "%" then
        match r with
        | String h (String l r') =>
            match hex_val h, hex_val l with
            | Some a, Some b => String (ascii_of_N (16 * a + b)) (form_decode r')
            | _, _ => String c (form_decode r)
            end
        | _ => String c (form_decode r)
        end
      else String c (form_decode r)
  end.

Definition pair_toString (kv : string * string) : string :=
  form_encode (fst kv) +:+ "=" +:+ form_encode (snd kv).

Fixpoint join_amp (l : list string) : string :=
  match l with
  | [] => EmptyString
  | [x] => x
  | x :: r => x +:+ "&" +:+ join_amp r
  end.

Definition toString (u : t) : string := join_amp (map pair_toString u).

(** [split_at c s] cuts [s] at the first [c]: the text before it and, when
    there is one, the text after it. *)
Fixpoint split_at (c : ascii) (s : string) : string * option string :=
  match s with
  | EmptyString => (EmptyString, None)
  | String x r =>
      if Ascii.eqb x c then (EmptyString, Some r)
      else let '(a, b) := split_at c r in (String x a, b)
  end.

(** The pieces of [s] between occurrences of [c]. *)
Fixpoint split_all (c : ascii) (s : string) (cur : string) : list string :=
  match s with
  | EmptyString => [cur]
  | String x r =>
      if Ascii.eqb x c then cur :: split_all c r EmptyString
      else split_all c r (cur +:+ String x EmptyString)
  end.

Definition parse_pair (piece : string) : string * string :=
  let '(n, v) := split_at "=" piece in
  (form_decode n, form_decode (default EmptyString v)).

Definition is_empty (s : string) : bool :=
  match s with EmptyString => true | _ => false end.

Definition parse (s : string) : t :=
  map parse_pair
      (filter (fun piece => is_empty piece = false) (split_all "&" s EmptyString)).

(** [new URLSearchParams(init)]: [undefined] gives no pairs, and one leading
    [?] of a string is skipped. *)
Definition of_init (init : option string) : t :=
  match init with
  | None => []
  | Some (String "?" r) => parse r
  | Some s => parse s
  end.

End URLSearchParams.

(** ** Exceptions *)

Inductive Error : Type :=
| KeyConflict (key : string)      (* "URL parameter key conflict detected" *)
| ExpectedMultiple                (* "Expected multiple values" *)
| InvalidDebounce                 (* "maxWaitMs must be greater than or equal to idleMs" *)
| HandlerThrew                    (* decode or deserialize threw *)
| TypeError.                      (* a property of undefined, or a missing method *)

Inductive Result (A : Type) : Type :=
| Ok (a : A)
| Err (e : Error).
Arguments Ok {A} a.
Arguments Err {A} e.

(** ** The debounce scheduler ([debounce.ts]) *)

Module Debounce.

Record Config : Type := { idleMs : Z; maxWaitMs : Z }.

(** [MappedDebouncer.ValidateConfig] *)
Definition ValidateConfig (config : Config) : Result unit :=
  if maxWaitMs config <? idleMs config then Err InvalidDebounce else Ok tt.

(** The delay of [window.setTimeout(handler, timeout)] is a WebIDL [long]:
    the host reduces the number modulo [2^32] into the signed 32-bit range,
    and a negative delay counts as zero.  So a delay of [2^31] milliseconds
    or more does not wait that long: [2^31] itself fires at once. *)
Definition to_int32 (z : Z) : Z := (z + 2 ^ 31) mod 2 ^ 32 - 2 ^ 31.

Definition delay (ms : Z) : Z := Z.max 0 (to_int32 ms).

Section MappedDebouncer.
Context {K : Type} `{Countable K} {CB : Type}.

(** A timeout armed by [window.setTimeout(flush.bind(this, key), ms)] and
    not yet fired or cleared. *)
Record Timer : Type := { handle : nat; due : Z; flushes : K }.

(** The three maps of the class, its default options, and the part of the
    host the class uses: the clock and the table of armed timeouts. *)
Record t : Type := {
  opts : Config;
  maxTimers : gmap K nat;
  idleTimers : gmap K nat;
  callbacks : gmap K CB;
  now : Z;
  nextHandle : nat;
  pending : list Timer;
}.

(** The constructor.  Besides validating the options it registers
    [visibilityHandler] (below) for the page's [visibilitychange],
    [pagehide] and [beforeunload] events; the module never calls
    [dispose()] on its scheduler, so the listener stays for the life of the
    page. *)
Definition create (o : Config) (start : Z) : Result t :=
  match ValidateConfig o with
  | Err e => Err e
  | Ok _ =>
      Ok {| opts := o; maxTimers := ∅; idleTimers := ∅; callbacks := ∅;
            now := start; nextHandle := 1%nat; pending := [] |}
  end.

(** [window.setTimeout(flush, ms)]: the timeout is due [delay ms] after the
    call. *)
Definition setTimeout (key : K) (ms : Z) (d : t) : nat * t :=
  let h := nextHandle d in
  (h, {| opts := opts d; maxTimers := maxTimers d; idleTimers := idleTimers d;
         callbacks := callbacks d; now := now d; nextHandle := S h;
         pending := pending d ++ [{| handle := h; due := now d + delay ms;
                                     flushes := key |}] |}).

(** [window.clearTimeout]: [undefined] and stale handles are ignored. *)
Definition clearTimeout (h : option nat) (d : t) : t :=
  match h with
  | None => d
  | Some h =>
      {| opts := opts d; maxTimers := maxTimers d; idleTimers := idleTimers d;
         callbacks := callbacks d; now := now d; nextHandle := nextHandle d;
         pending := filter (fun tm => handle tm ≠ h) (pending d) |}
  end.

Definition clear (key : K) (d : t) : t :=
  let d1 := clearTimeout (idleTimers d !! key) d in
  let d2 := clearTimeout (maxTimers d1 !! key) d1 in
  {| opts := opts d2;
     maxTimers := delete key (maxTimers d2);
     idleTimers := delete key (idleTimers d2);
     callbacks := delete key (callbacks d2);
     now := now d2; nextHandle := nextHandle d2; pending := pending d2 |}.

Definition enqueue (key : K) (callback : CB) (config : option Config) (d : t)
  : Result t :=
  match match config with Some c => ValidateConfig c | None => Ok tt end with
  | Err e => Err e
  | Ok _ =>
      let d1 := clear key d in
      let d2 := {| opts := opts d1; maxTimers := maxTimers d1;
                   idleTimers := idleTimers d1;
                   callbacks := <[key := callback]> (callbacks d1);
                   now := now d1; nextHandle := nextHandle d1;
                   pending := pending d1 |} in
      let idle := match config with Some c => idleMs c | None => idleMs (opts d) end in
      let maxWait :=
        match config with Some c => maxWaitMs c | None => maxWaitMs (opts d) end in
      let '(hi, d3) := setTimeout key idle d2 in
      let d4 := {| opts := opts d3; maxTimers := maxTimers d3;
                   idleTimers := <[key := hi]> (idleTimers d3);
                   callbacks := callbacks d3; now := now d3;
                   nextHandle := nextHandle d3; pending := pending d3 |} in
      let '(hm, d5) := setTimeout key maxWait d4 in
      Ok {| opts := opts d5; maxTimers := <[key := hm]> (maxTimers d5);
            idleTimers := idleTimers d5; callbacks := callbacks d5;
            now := now d5; nextHandle := nextHandle d5; pending := pending d5 |}
  end.

(** [flush]: the callback to invoke, when the key still has one, and the
    scheduler once the key is cleared. *)
Definition flush (key : K) (d : t) : option CB * t :=
  (callbacks d !! key, clear key d).

(** One invocation of a callback by the scheduler. *)
Record Fired : Type := { at_time : Z; for_key : K; ran : CB }.

(** The keys of the [callbacks] map in its iteration order, the order in
    which the keys were last set.  [enqueue] sets a key's callback and arms
    its idle timeout together, [clear] deletes both, and a timeout that
    fires clears its key; so the keys that have a callback are the keys
    whose idle timeout is armed, in the order of arming. *)
Definition callback_keys (d : t) : list K :=
  map flushes
    (filter (fun tm => idleTimers d !! flushes tm = Some (handle tm)) (pending d)).

Fixpoint flush_keys (keys : list K) (d : t) : list Fired * t :=
  match keys with
  | [] => ([], d)
  | key :: rest =>
      let '(cb, d1) := flush key d in
      let '(log, d2) := flush_keys rest d1 in
      (match cb with
       | Some c => {| at_time := now d; for_key := key; ran := c |} :: log
       | None => log
       end, d2)
  end.

(** [visibilityHandler], the listener of the constructor: when the page is
    hidden, shown, left or about to unload, every key that has a callback is
    flushed at once, whatever its timeouts say. *)
Definition visibilityHandler (d : t) : list Fired * t :=
  flush_keys (callback_keys d) d.

(** The host's timer loop.  Among the armed timeouts the one due first fires
    first, and of two due together the one armed first. *)
Definition earlier (a b : Timer) : bool :=
  (due a <? due b) || ((due a =? due b) && (handle a <=? handle b)%nat).

Fixpoint next_timer (l : list Timer) : option Timer :=
  match l with
  | [] => None
  | a :: r =>
      match next_timer r with
      | Some b => Some (if earlier a b then a else b)
      | None => Some a
      end
  end.

Definition set_clock (tm : Z) (d : t) : t :=
  {| opts := opts d; maxTimers := maxTimers d; idleTimers := idleTimers d;
     callbacks := callbacks d; now := tm; nextHandle := nextHandle d;
     pending := pending d |}.

Definition drop_timer (h : nat) (d : t) : t := clearTimeout (Some h) d.

(** Fire, in order, every timeout due at or before [limit]; the clock then
    reads [limit].  A firing disarms at least the timeout that fired, so a
    fuel of the number of armed timeouts is never used up
    ([run_timers_fires_all]). *)
Fixpoint run_timers (fuel : nat) (limit : Z) (d : t) : list Fired * t :=
  match fuel with
  | O => ([], set_clock (Z.max (now d) limit) d)
  | S fuel' =>
      match next_timer (pending d) with
      | Some tm =>
          if due tm <=? limit then
            let d1 := drop_timer (handle tm) (set_clock (Z.max (now d) (due tm)) d) in
            let '(cb, d2) := flush (flushes tm) d1 in
            let '(log, d3) := run_timers fuel' limit d2 in
            (match cb with
             | Some c => {| at_time := now d1; for_key := flushes tm; ran := c |} :: log
             | None => log
             end, d3)
          else ([], set_clock (Z.max (now d) limit) d)
      | None => ([], set_clock (Z.max (now d) limit) d)
      end
  end.

Definition advance (limit : Z) (d : t) : list Fired * t :=
  run_timers (length (pending d)) limit d.

(** A script of calls: each [enqueue] happens once the clock has reached its
    time, after the timeouts due by then have fired. *)
Record Call : Type := { call_time : Z; call_key : K; call_cb : CB;
                        call_config : option Config }.

Fixpoint run_calls (calls : list Call) (d : t) : Result (list Fired * t) :=
  match calls with
  | [] => Ok ([], d)
  | c :: rest =>
      let '(log1, d1) := advance (call_time c) d in
      match enqueue (call_key c) (call_cb c) (call_config c) d1 with
      | Err e => Err e
      | Ok d2 =>
          match run_calls rest d2 with
          | Err e => Err e
          | Ok (log2, d3) => Ok (log1 ++ log2, d3)
          end
      end
  end.

(** The callbacks invoked up to and including time [limit] when [calls] are
    made on a fresh scheduler. *)
Definition fired_by (o : Config) (calls : list Call) (limit : Z)
  : Result (list Fired) :=
  match create o 0 with
  | Err e => Err e
  | Ok d0 =>
      match run_calls calls d0 with
      | Err e => Err e
      | Ok (log, d) => Ok (log ++ fst (advance limit d))
      end
  end.

End MappedDebouncer.

Arguments delay : simpl never.
Arguments t K {_ _} CB.
Arguments Timer K : clear implicits.
Arguments Fired K CB : clear implicits.
Arguments Call K CB : clear implicits.

End Debounce.

(** ** JavaScript values *)

#[local] Set Warnings "-register-all".

(** The values of the Number type.  A finite double is an integer or a
    fraction whose denominator is a power of two: [Int z] is the integer
    [z], and [Dyadic neg m e] is [m / 2^e] with [m] odd, negated when [neg],
    so that every number is written in one way.  [is_double] says which of
    these a double holds.  The two zeros of the type are one value here
    ([JSON.stringify] writes both as [0]). *)
Inductive Number : Type :=
| NaN
| PosInfinity
| NegInfinity
| Int (z : Z)
| Dyadic (neg : bool) (m e : positive).

Inductive Value : Type :=
| Undefined
| Null
| Bool (b : bool)
| Num (n : Number)
| Str (s : string)
| Arr (elems : list Value)                (* holes read as [Undefined] *)
| Obj (props : list (string * Value)).    (* own properties, in enumeration order *)

Definition isArray (v : Value) : bool :=
  match v with Arr _ => true | _ => false end.

(** ** Doubles *)

Fixpoint odd_part (p : positive) : positive :=
  match p with
  | xO p' => odd_part p'
  | _ => p
  end.

(** The finite values of the type: a significand below [2^53] and an
    exponent from [-1074] to [971]. *)
Definition is_double (n : Number) : bool :=
  match n with
  | Int Z0 => true
  | Int (Zpos p) | Int (Zneg p) => (Zpos (odd_part p) <? 2 ^ 53) && (Zpos p <? 2 ^ 1024)
  | Dyadic _ m e => Z.odd (Zpos m) && (Zpos m <? 2 ^ 53) && (Zpos e <=? 1074)
  | _ => true
  end.

Definition is_finite (n : Number) : bool :=
  match n with
  | Int _ | Dyadic _ _ _ => true
  | _ => false
  end.

Definition same_number (a b : Number) : bool :=
  match a, b with
  | NaN, NaN | PosInfinity, PosInfinity | NegInfinity, NegInfinity => true
  | Int x, Int y => x =? y
  | Dyadic s m e, Dyadic s' m' e' => Bool.eqb s s' && (m =? m')%positive && (e =? e')%positive
  | _, _ => false
  end.

Definition Number_opp (n : Number) : Number :=
  match n with
  | NaN => NaN
  | PosInfinity => NegInfinity
  | NegInfinity => PosInfinity
  | Int z => Int (- z)
  | Dyadic neg m e => Dyadic (negb neg) m e
  end.

Definition Number_abs (n : Number) : Number :=
  match n with
  | NegInfinity => PosInfinity
  | Int z => Int (Z.abs z)
  | Dyadic _ m e => Dyadic false m e
  | _ => n
  end.

Definition is_negative (n : Number) : bool :=
  match n with
  | NegInfinity => true
  | Int z => z <? 0
  | Dyadic neg _ _ => neg
  | _ => false
  end.

(** [m / 2^e] in lowest terms. *)
Fixpoint lowest_terms (m e : positive) : Number :=
  match m, e with
  | xO m', xH => Int (Zpos m')
  | xO m', _ => lowest_terms m' (Pos.pred e)
  | _, _ => Dyadic false m e
  end.

(** [m * 2^t], for [m] not negative. *)
Definition scale (m t : Z) : Number :=
  match m with
  | Zpos p => if 0 <=? t then Int (m * 2 ^ t) else lowest_terms p (Z.to_pos (- t))
  | _ => Int 0
  end.

(** [floor (log2 (p / q))], for [p] and [q] positive. *)
Definition floor_log2 (p q : Z) : Z :=
  if q <=? p then Z.log2 (p / q) else - Z.log2_up ((q + p - 1) / p).

(** The integer nearest to [p / q], the even one of two that are equally
    near. *)
Definition round_half_even (p q : Z) : Z :=
  let d := p / q in
  let r := p mod q in
  if 2 * r <? q then d
  else if q <? 2 * r then d + 1
  else if Z.even d then d else d + 1.

(** The Number value for the rational [p / q], [q] positive (ECMA-262,
    6.1.6.1): the double nearest to it, the one with an even significand of
    two that are equally near, and [+Infinity] where the rounded value
    reaches [2^1024].  The significand is counted in units of [2^t], the
    spacing of the doubles around [p / q]. *)
Definition nearest_double (p q : Z) : Number :=
  if p <=? 0 then Int 0
  else
    let t := Z.max (-1074) (floor_log2 p q - 52) in
    let m := round_half_even (p * 2 ^ Z.max 0 (- t)) (q * 2 ^ Z.max 0 t) in
    if 2 ^ 1024 <=? m * 2 ^ t then PosInfinity else scale m t.

(** The Number value for the decimal [s * 10^e10]. *)
Definition decimal_value (s : N) (e10 : Z) : Number :=
  if 0 <=? e10 then nearest_double (Z.of_N s * 10 ^ e10) 1
  else nearest_double (Z.of_N s) (10 ^ (- e10)).

(** ** [JSON.stringify] *)

Definition dquote : ascii := "034"%char.
Definition backslash : ascii := "092"%char.

(** Lowercase hexadecimal, as [JSON.stringify] writes [\u00xx]. *)
Definition hex_digit_lower (n : N) : ascii :=
  match String.get (N.to_nat n) "0123456789abcdef" with
  | Some c => c
  | None => "0"%char
  end.

Definition json_escape_char (c : ascii) : string :=
  if Ascii.eqb c dquote then String backslash (String dquote EmptyString)
  else if Ascii.eqb c backslash then String backslash (String backslash EmptyString)
  else if (byte_val c =? 8)%N then String backslash "b"
  else if (byte_val c =? 9)%N then String backslash "t"
  else if (byte_val c =? 10)%N then String backslash "n"
  else if (byte_val c =? 12)%N then String backslash "f"
  else if (byte_val c =? 13)%N then String backslash "r"
  else if (byte_val c <? 32)%N then
    String backslash
      (String "u" (String "0" (String "0"
         (String (hex_digit_lower (byte_val c / 16))
            (String (hex_digit_lower (byte_val c mod 16)) EmptyString)))))
  else String c EmptyString.

Fixpoint json_escape (s : string) : string :=
  match s with
  | EmptyString => EmptyString
  | String c r => json_escape_char c +:+ json_escape r
  end.

(** [QuoteJSONString] *)
Definition json_quote (s : string) : string :=
  String dquote (json_escape s +:+ String dquote EmptyString).

Fixpoint digits_of (fuel : nat) (n : N) (acc : string) : string :=
  let acc' := String (ascii_of_N (48 + n mod 10)) acc in
  match fuel with
  | O => acc'
  | S f => if (n <? 10)%N then acc' else digits_of f (n / 10) acc'
  end.

Definition N_to_string (n : N) : string :=
  digits_of (N.to_nat (N.log2 n)) n EmptyString.

(** *** [Number::toString] (ECMA-262, 6.1.6.1.20)

    The digits of a positive finite number [x] are the integer [s] and the
    exponent with [x] the Number value for [s * 10^e10], [s] with as few
    digits as possible, and --- of the candidates with that many digits ---
    the one nearest to [x], the even one of two that are equally near. *)

(** The numerator and the denominator of the absolute value. *)
Definition magnitude (n : Number) : Z * Z :=
  match n with
  | Int z => (Z.abs z, 1)
  | Dyadic _ m e => (Zpos m, 2 ^ Zpos e)
  | _ => (0, 1)
  end.

Definition decimal_digits (n : N) : Z := Z.of_nat (String.length (N_to_string n)).

(** The [n] with [10^(n-1) <= p / q < 10^n]. *)
Definition decimal_exponent (p q : Z) : Z :=
  if q <=? p then decimal_digits (Z.to_N (p / q))
  else 1 - decimal_digits (Z.to_N ((q - 1) / p)).

Fixpoint strip_zeros (fuel : nat) (s e : Z) : Z * Z :=
  match fuel with
  | O => (s, e)
  | S fuel' =>
      if (0 <? s) && (s mod 10 =? 0) then strip_zeros fuel' (s / 10) (e + 1)
      else (s, e)
  end.

(** The decimal [s * 10^e], without its trailing zeros, when [x] is its
    Number value. *)
Definition candidate (x : Number) (s e : Z) : option (N * Z) :=
  let '(s', e') := strip_zeros 17 s e in
  if same_number (decimal_value (Z.to_N s') e') x then Some (Z.to_N s', e') else None.

(** The digits of [x = p / q] among the decimals of [k] digits: the two
    next to [x] are tried. *)
Definition digits_at (x : Number) (p q n k : Z) : option (N * Z) :=
  let j := k - n in
  let num := p * 10 ^ Z.max 0 j in
  let den := q * 10 ^ Z.max 0 (- j) in
  let lo := num / den in
  let r := num mod den in
  match candidate x lo (- j), candidate x (lo + 1) (- j) with
  | Some a, Some b =>
      Some (if 2 * r <? den then a
            else if den <? 2 * r then b
            else if Z.even lo then a else b)
  | Some a, None => Some a
  | None, Some b => Some b
  | None, None => None
  end.

Fixpoint first_digits (x : Number) (p q n : Z) (ks : list Z) : option (N * Z) :=
  match ks with
  | [] => None
  | k :: rest =>
      match digits_at x p q n k with
      | Some d => Some d
      | None => first_digits x p q n rest
      end
  end.

(** The decimal expansion of a finite number, which ends. *)
Definition exact_decimal (x : Number) : N * Z :=
  match x with
  | Int z => (Z.to_N (Z.abs z), 0)
  | Dyadic _ m e => (Npos (m * 5 ^ e), - Zpos e)
  | _ => (0%N, 0)
  end.

(** Seventeen digits tell any two doubles apart, so the search ends by
    then; the last case is not reached for a double. *)
Definition shortest_decimal (x : Number) : N * Z :=
  let '(p, q) := magnitude x in
  match first_digits x p q (decimal_exponent p q)
          [1; 2; 3; 4; 5; 6; 7; 8; 9; 10; 11; 12; 13; 14; 15; 16; 17] with
  | Some d => d
  | None => exact_decimal x
  end.

Fixpoint zeros (n : nat) : string :=
  match n with
  | O => EmptyString
  | S k => String "0" (zeros k)
  end.

Fixpoint string_take (n : nat) (s : string) : string :=
  match n, s with
  | S k, String c r => String c (string_take k r)
  | _, _ => EmptyString
  end.

Fixpoint string_drop (n : nat) (s : string) : string :=
  match n, s with
  | S k, String c r => string_drop k r
  | _, _ => s
  end.

(** The text of [s * 10^e10]: with [k] the number of digits of [s] and
    [n = e10 + k], plain digits while [n <= 21], a leading [0.] down to
    [n = -5], and the exponent form beyond. *)
Definition format_decimal (s : N) (e10 : Z) : string :=
  let digits := N_to_string s in
  let k := Z.of_nat (String.length digits) in
  let n := e10 + k in
  if (0 <=? e10) && (n <=? 21) then digits +:+ zeros (Z.to_nat e10)
  else if (0 <? n) && (n <=? 21) then
    string_take (Z.to_nat n) digits +:+ "." +:+ string_drop (Z.to_nat n) digits
  else if (-6 <? n) && (n <=? 0) then "0." +:+ zeros (Z.to_nat (- n)) +:+ digits
  else
    let exponent :=
      String "e" (String (if 0 <=? n - 1 then "+"%char else "-"%char)
                    (N_to_string (Z.abs_N (n - 1)))) in
    match digits with
    | String c EmptyString => digits +:+ exponent
    | String c r => String c (String "." r) +:+ exponent
    | EmptyString => exponent
    end.

Definition Number_toString (n : Number) : string :=
  match n with
  | NaN => "NaN"
  | PosInfinity => "Infinity"
  | NegInfinity => "-Infinity"
  | Int Z0 => "0"
  | _ =>
      let '(s, e10) := shortest_decimal (Number_abs n) in
      if is_negative n then String "-" (format_decimal s e10) else format_decimal s e10
  end.

(** [JSON.stringify] of a number: its [ToString] when it is finite. *)
Definition Number_toJSON (n : Number) : string :=
  if is_finite n then Number_toString n else "null".

Fixpoint join_comma (l : list string) : string :=
  match l with
  | [] => EmptyString
  | [x] => x
  | x :: r => x +:+ "," +:+ join_comma r
  end.

(** [JSON.stringify(value)]: [None] is the result [undefined].  An array
    writes [null] for an element that has no JSON form, an object leaves
    such a property out. *)
Fixpoint JSON_stringify (v : Value) : option string :=
  match v with
  | Undefined => None
  | Null => Some "null"
  | Bool true => Some "true"
  | Bool false => Some "false"
  | Num n => Some (Number_toJSON n)
  | Str s => Some (json_quote s)
  | Arr elems =>
      Some ("[" +:+
            join_comma
              ((fix items (l : list Value) : list string :=
                  match l with
                  | [] => []
                  | e :: r => default "null" (JSON_stringify e) :: items r
                  end) elems)
            +:+ "]")
  | Obj props =>
      Some ("{" +:+
            join_comma
              ((fix members (l : list (string * Value)) : list string :=
                  match l with
                  | [] => []
                  | (k, e) :: r =>
                      match JSON_stringify e with
                      | Some t => (json_quote k +:+ ":" +:+ t) :: members r
                      | None => members r
                      end
                  end) props)
            +:+ "}")
  end.

(** ** [JSON.parse] *)

Definition is_ws (c : ascii) : bool :=
  (byte_val c =? 32)%N || (byte_val c =? 9)%N || (byte_val c =? 10)%N
  || (byte_val c =? 13)%N.

Fixpoint skip_ws (s : string) : string :=
  match s with
  | String c r => if is_ws c then skip_ws r else s
  | EmptyString => s
  end.

(** The UTF-8 bytes of a Unicode scalar value. *)
Definition utf8_encode (cp : N) : string :=
  (if cp <? 128 then String (ascii_of_N cp) EmptyString
   else if cp <? 2048 then
     String (ascii_of_N (192 + cp / 64))
       (String (ascii_of_N (128 + cp mod 64)) EmptyString)
   else if cp <? 65536 then
     String (ascii_of_N (224 + cp / 4096))
       (String (ascii_of_N (128 + (cp / 64) mod 64))
          (String (ascii_of_N (128 + cp mod 64)) EmptyString))
   else
     String (ascii_of_N (240 + cp / 262144))
       (String (ascii_of_N (128 + (cp / 4096) mod 64))
          (String (ascii_of_N (128 + (cp / 64) mod 64))
             (String (ascii_of_N (128 + cp mod 64)) EmptyString))))%N.

Definition hex4 (a b c d : ascii) : option N :=
  match hex_val a, hex_val b, hex_val c, hex_val d with
  | Some x, Some y, Some z, Some w => Some (4096 * x + 256 * y + 16 * z + w)%N
  | _, _, _, _ => None
  end.

Definition is_high_surrogate (n : N) : bool := ((55296 <=? n) && (n <=? 56319))%N.
Definition is_low_surrogate (n : N) : bool := ((56320 <=? n) && (n <=? 57343))%N.

Definition simple_escape (e : ascii) : option ascii :=
  if Ascii.eqb e dquote then Some dquote
  else if Ascii.eqb e backslash then Some backslash
  else if Ascii.eqb e "/" then Some "/"%char
  else if Ascii.eqb e "b" then Some (ascii_of_N 8)
  else if Ascii.eqb e "f" then Some (ascii_of_N 12)
  else if Ascii.eqb e "n" then Some (ascii_of_N 10)
  else if Ascii.eqb e "r" then Some (ascii_of_N 13)
  else if Ascii.eqb e "t" then Some (ascii_of_N 9)
  else None.

(** The characters of a string literal after its opening quote, up to the
    closing one, and the text that follows.  An escaped surrogate pair is
    one scalar value; an unpaired surrogate has no UTF-8 form, and the
    literal is then outside this representation ([None]). *)
Fixpoint parse_string_body (s : string) : option (string * string) :=
  match s with
  | EmptyString => None
  | String c r =>
      if Ascii.eqb c dquote then Some (EmptyString, r)
      else if Ascii.eqb c backslash then
        match r with
        | String e r1 =>
            match simple_escape e with
            | Some x =>
                match parse_string_body r1 with
                | Some (body, rest) => Some (String x body, rest)
                | None => None
                end
            | None =>
                if Ascii.eqb e "u" then
                  match r1 with
                  | String h1 (String h2 (String h3 (String h4 r2))) =>
                      match hex4 h1 h2 h3 h4 with
                      | Some n =>
                          if is_high_surrogate n then
                            match r2 with
                            | String b' (String u' (String l1 (String l2
                                (String l3 (String l4 r3))))) =>
                                if Ascii.eqb b' backslash && Ascii.eqb u' "u" then
                                  match hex4 l1 l2 l3 l4 with
                                  | Some m =>
                                      if is_low_surrogate m then
                                        match parse_string_body r3 with
                                        | Some (body, rest) =>
                                            Some (utf8_encode
                                                    (65536 + (n - 55296) * 1024
                                                     + (m - 56320))%N +:+ body,
                                                  rest)
                                        | None => None
                                        end
                                      else None
                                  | None => None
                                  end
                                else None
                            | _ => None
                            end
                          else if is_low_surrogate n then None
                          else
                            match parse_string_body r2 with
                            | Some (body, rest) => Some (utf8_encode n +:+ body, rest)
                            | None => None
                            end
                      | None => None
                      end
                  | _ => None
                  end
                else None
            end
        | EmptyString => None
        end
      else if (byte_val c <? 32)%N then None
      else
        match parse_string_body r with
        | Some (body, rest) => Some (String c body, rest)
        | None => None
        end
  end.

Fixpoint read_digits (s : string) (acc : N) : N * string :=
  match s with
  | String c r =>
      if is_digit c then read_digits r (10 * acc + (byte_val c - 48))%N
      else (acc, s)
  | EmptyString => (acc, s)
  end.

Definition starts_with_digit (s : string) : bool :=
  match s with
  | String c _ => is_digit c
  | EmptyString => false
  end.

(** The number grammar of JSON: an optional [-], then [0] or digits that do
    not start with [0], then an optional fraction and an optional
    exponent, each with at least one digit. *)
Definition parse_int (s : string) : option (N * string) :=
  match s with
  | String c r =>
      if Ascii.eqb c "0" then Some (0%N, r)
      else if is_digit c then Some (read_digits s 0%N)
      else None
  | EmptyString => None
  end.

(** The digits so far, continued by those of the fraction, and how many
    these are. *)
Definition parse_frac (int : N) (s : string) : option (N * Z * string) :=
  match s with
  | String c r =>
      if Ascii.eqb c "." then
        if starts_with_digit r then
          let '(digits, rest) := read_digits r int in
          Some (digits, Z.of_nat (String.length r - String.length rest), rest)
        else None
      else Some (int, 0, s)
  | EmptyString => Some (int, 0, s)
  end.

Definition parse_exp (s : string) : option (Z * string) :=
  match s with
  | String c r =>
      if Ascii.eqb c "e" || Ascii.eqb c "E" then
        let '(neg, r1) :=
          match r with
          | String x r' =>
              if Ascii.eqb x "-" then (true, r')
              else if Ascii.eqb x "+" then (false, r')
              else (false, r)
          | EmptyString => (false, r)
          end in
        if starts_with_digit r1 then
          let '(n, rest) := read_digits r1 0%N in
          Some (if neg then - Z.of_N n else Z.of_N n, rest)
        else None
      else Some (0, s)
  | EmptyString => Some (0, s)
  end.

(** A literal without sign: the Number value for its decimal. *)
Definition parse_unsigned (s : string) : option (Number * string) :=
  match parse_int s with
  | Some (int, r1) =>
      match parse_frac int r1 with
      | Some (digits, count, r2) =>
          match parse_exp r2 with
          | Some (e, r3) => Some (decimal_value digits (e - count), r3)
          | None => None
          end
      | None => None
      end
  | None => None
  end.

Definition parse_number (s : string) : option (Value * string) :=
  match s with
  | String c r =>
      if Ascii.eqb c "-" then
        match parse_unsigned r with
        | Some (n, rest) => Some (Num (Number_opp n), rest)
        | None => None
        end
      else
        match parse_unsigned s with
        | Some (n, rest) => Some (Num n, rest)
        | None => None
        end
  | EmptyString => None
  end.

(** [expect lit s]: the text after [lit] when [s] starts with it. *)
Fixpoint expect (lit s : string) : option string :=
  match lit with
  | EmptyString => Some s
  | String c lit' =>
      match s with
      | String x r => if Ascii.eqb x c then expect lit' r else None
      | EmptyString => None
      end
  end.

(** Property keys that are array indices ([0] to [2^32 - 2], written
    canonically) are enumerated first, in numeric order. *)
Definition array_index (k : string) : option N :=
  match k with
  | String c r =>
      if Ascii.eqb c "0" then
        match r with EmptyString => Some 0%N | _ => None end
      else if is_digit c then
        match read_digits k 0%N with
        | (n, EmptyString) => if (n <? 4294967295)%N then Some n else None
        | _ => None
        end
      else None
  | EmptyString => None
  end.

Definition has_prop (k : string) (l : list (string * Value)) : bool :=
  existsb (fun kv => String.eqb (fst kv) k) l.

Fixpoint replace_prop (k : string) (v : Value) (l : list (string * Value))
  : list (string * Value) :=
  match l with
  | [] => []
  | kv :: r =>
      if String.eqb (fst kv) k then (k, v) :: r else kv :: replace_prop k v r
  end.

Fixpoint insert_index (i : N) (k : string) (v : Value) (l : list (string * Value))
  : list (string * Value) :=
  match l with
  | [] => [(k, v)]
  | kv :: r =>
      match array_index (fst kv) with
      | Some j => if (i <? j)%N then (k, v) :: l else kv :: insert_index i k v r
      | None => (k, v) :: l
      end
  end.

(** [CreateDataProperty] on an ordinary object: a repeated key keeps its
    place and takes the new value. *)
Definition obj_set (k : string) (v : Value) (l : list (string * Value))
  : list (string * Value) :=
  if has_prop k l then replace_prop k v l
  else match array_index k with
       | Some i => insert_index i k v l
       | None => l ++ [(k, v)]
       end.

(** The recursive-descent reader.  Each call spends one unit of fuel and,
    before it recurses, reads at least one character, so the length of the
    text bounds the fuel a well-formed text needs. *)
Fixpoint parse_value (fuel : nat) (s : string) {struct fuel}
  : option (Value * string) :=
  match fuel with
  | O => None
  | S f =>
      match skip_ws s with
      | EmptyString => None
      | String c r =>
          if Ascii.eqb c "{" then
            match skip_ws r with
            | String c' r' =>
                if Ascii.eqb c' "}" then Some (Obj [], r')
                else parse_members f r []
            | EmptyString => None
            end
          else if Ascii.eqb c "[" then
            match skip_ws r with
            | String c' r' =>
                if Ascii.eqb c' "]" then Some (Arr [], r')
                else parse_elements f r []
            | EmptyString => None
            end
          else if Ascii.eqb c dquote then
            match parse_string_body r with
            | Some (body, rest) => Some (Str body, rest)
            | None => None
            end
          else if Ascii.eqb c "t" then
            option_map (pair (Bool true)) (expect "rue" r)
          else if Ascii.eqb c "f" then
            option_map (pair (Bool false)) (expect "alse" r)
          else if Ascii.eqb c "n" then
            option_map (pair Null) (expect "ull" r)
          else parse_number (String c r)
      end
  end
with parse_elements (fuel : nat) (s : string) (acc : list Value) {struct fuel}
  : option (Value * string) :=
  match fuel with
  | O => None
  | S f =>
      match parse_value f s with
      | Some (v, r) =>
          match skip_ws r with
          | String c r' =>
              if Ascii.eqb c "," then parse_elements f r' (acc ++ [v])
              else if Ascii.eqb c "]" then Some (Arr (acc ++ [v]), r')
              else None
          | EmptyString => None
          end
      | None => None
      end
  end
with parse_members (fuel : nat) (s : string) (acc : list (string * Value))
  {struct fuel} : option (Value * string) :=
  match fuel with
  | O => None
  | S f =>
      match skip_ws s with
      | String q r =>
          if Ascii.eqb q dquote then
            match parse_string_body r with
            | Some (k, r1) =>
                match skip_ws r1 with
                | String c r2 =>
                    if Ascii.eqb c ":" then
                      match parse_value f r2 with
                      | Some (v, r3) =>
                          match skip_ws r3 with
                          | String c' r4 =>
                              if Ascii.eqb c' "," then
                                parse_members f r4 (obj_set k v acc)
                              else if Ascii.eqb c' "}" then
                                Some (Obj (obj_set k v acc), r4)
                              else None
                          | EmptyString => None
                          end
                      | None => None
                      end
                    else None
                | EmptyString => None
                end
            | None => None
            end
          else None
      | EmptyString => None
      end
  end.

(** [JSON.parse(text)]: [None] is the [SyntaxError]. *)
Definition JSON_parse (s : string) : option Value :=
  match parse_value (S (String.length s)) s with
  | Some (v, rest) =>
      match skip_ws rest with
      | EmptyString => Some v
      | _ => None
      end
  | None => None
  end.

(** ** [utils.ts] *)

Module Utils.

(** [MaybeGetter<T>]: a value or a function that reads one.  A getter that
    returns [undefined] is [None]. *)
Inductive MaybeGetter (A : Type) : Type :=
| Plain (a : A)
| Getter (g : unit -> option A).
Arguments Plain {A} a.
Arguments Getter {A} g.

(** [resolve(value, fallback)], with [None] for an argument that is
    [undefined]. *)
Definition resolve {A : Type} (value : option (MaybeGetter A)) (fallback : A) : A :=
  match value with
  | Some (Getter g) =>
      match g tt with
      | Some result => result
      | None => fallback
      end
  | Some (Plain a) => a
  | None => fallback
  end.

End Utils.

(** ** Parameter handlers and their resolution *)

Inductive UpdateHistoryBehavior : Type := Push | Replace.
Inductive EntryBehavior : Type := Multiple | Single.

(** The [debounce] setting of a handler: [false], [null], or a config. *)
Inductive DebounceSetting : Type :=
| DebounceOff
| DebounceGlobal
| DebounceWith (config : Debounce.Config).

(** One element of [previousKeys]; an option that is left out is [None]. *)
Record PreviousKey : Type := {
  fullname : string;
  pk_remove : option bool;
  pk_apply : option bool;
  pk_behavior : option UpdateHistoryBehavior;
}.

Definition ResolveFn : Type := Value -> string -> option nat -> Value.
(** A serializer may return [undefined] ([JSON.stringify] does, for
    [undefined]); the encoder receives what the serializer returned. *)
Definition SerializeFn : Type := Value -> option string.
Definition EncodeFn : Type := option string -> string.
(** [None] from a decoder or deserializer: it threw. *)
Definition DecodeFn : Type := string -> option string.
Definition DeserializeFn : Type := string -> option Value.

(** A verbose handler as the caller writes it. *)
Record VerboseParameterHandler : Type := {
  vh_key : option string;
  vh_history : option UpdateHistoryBehavior;
  vh_entries : option EntryBehavior;
  vh_debounce : option DebounceSetting;
  vh_resolve : ResolveFn;
  vh_serialize : option SerializeFn;
  vh_deserialize : option DeserializeFn;
  vh_decode : option DecodeFn;
  vh_encode : option EncodeFn;
  vh_previousKeys : option (list PreviousKey);
}.

Inductive ParameterHandler : Type :=
| BareResolve (f : ResolveFn)
| Verbose (h : VerboseParameterHandler).

Record Options : Type := {
  o_prefix : option (Utils.MaybeGetter string);
  o_debounce : option Debounce.Config;
  o_history : option UpdateHistoryBehavior;
  o_encode : option EncodeFn;
  o_decode : option DecodeFn;
  o_deserialize : option DeserializeFn;
  o_serialize : option SerializeFn;
}.

Definition no_options : Options :=
  {| o_prefix := None; o_debounce := None; o_history := None; o_encode := None;
     o_decode := None; o_deserialize := None; o_serialize := None |}.

(** [ResolvedParameterHandler]: every field present. *)
Record Handler : Type := {
  resolve : ResolveFn;
  key : string;
  entries : EntryBehavior;
  debounce : DebounceSetting;
  previousKeys : option (list PreviousKey);
  history : UpdateHistoryBehavior;
  deserialize : DeserializeFn;
  serialize : SerializeFn;
  encode : EncodeFn;
  decode : DecodeFn;
}.

(** [String(x)] of a string or [undefined]. *)
Definition ToString (s : option string) : string := default "undefined" s.

(** The exported [defaults]. *)
Module defaults.
Definition history : UpdateHistoryBehavior := Push.
Definition entries : EntryBehavior := Single.
Definition debounce : DebounceSetting := DebounceGlobal.
Definition encode : EncodeFn := fun serialized => encodeURIComponent (ToString serialized).
Definition decode : DecodeFn := fun serialized => decodeURIComponent serialized.
Definition deserialize : DeserializeFn :=
  fun query => if String.eqb query "undefined" then Some Undefined else JSON_parse query.
Definition serialize : SerializeFn := fun value => JSON_stringify value.
Definition previousKeys : option (list PreviousKey) := None.
End defaults.

Definition validParam (key : string) : string := encodeURIComponent key.

(** [a ?? b] *)
Definition nullish {A : Type} (a : option A) (b : A) : A := default b a.

Definition verbosify_verbose (handler : VerboseParameterHandler) (key : string)
  (options : Options) : Handler :=
  {| resolve := vh_resolve handler;
     key := validParam (Utils.resolve (o_prefix options) EmptyString
                        +:+ nullish (vh_key handler) key);
     entries := nullish (vh_entries handler) defaults.entries;
     debounce := nullish (vh_debounce handler) defaults.debounce;
     previousKeys :=
       match vh_previousKeys handler with
       | Some l => Some l
       | None => defaults.previousKeys
       end;
     history := nullish (vh_history handler) (nullish (o_history options) defaults.history);
     deserialize :=
       nullish (vh_deserialize handler)
         (nullish (o_deserialize options) defaults.deserialize);
     serialize :=
       nullish (vh_serialize handler) (nullish (o_serialize options) defaults.serialize);
     encode := nullish (vh_encode handler) (nullish (o_encode options) defaults.encode);
     decode := nullish (vh_decode handler) (nullish (o_decode options) defaults.decode) |}.

(** A bare function is the handler [{ resolve: handler }]. *)
Definition verbosify (handler : ParameterHandler) (key : string) (options : Options)
  : Handler :=
  match handler with
  | BareResolve f =>
      verbosify_verbose
        {| vh_key := None; vh_history := None; vh_entries := None;
           vh_debounce := None; vh_resolve := f; vh_serialize := None;
           vh_deserialize := None; vh_decode := None; vh_encode := None;
           vh_previousKeys := None |} key options
  | Verbose h => verbosify_verbose h key options
  end.

(** [handler.key = k] *)
Definition with_key (h : Handler) (k : string) : Handler :=
  {| resolve := resolve h; key := k; entries := entries h; debounce := debounce h;
     previousKeys := previousKeys h; history := history h;
     deserialize := deserialize h; serialize := serialize h; encode := encode h;
     decode := decode h |}.

Definition supportsMultiple (handler : Handler) : bool :=
  match entries handler with Multiple => true | Single => false end.

(** ** URL state snapshots *)

(** One entry of a snapshot: [string | string[]]. *)
Inductive Entry : Type :=
| Once (value : string)
| Repeated (values : list string).

Definition getURLState_step (state : gmap string Entry) (kv : string * string)
  : gmap string Entry :=
  match state !! fst kv with
  | None => <[fst kv := Once (snd kv)]> state
  | Some (Repeated existing) => <[fst kv := Repeated (existing ++ [snd kv])]> state
  | Some (Once existing) => <[fst kv := Repeated [existing; snd kv]]> state
  end.

(** [getURLState()], of the search parameters of the current location. *)
Definition getURLState (searchParams : URLSearchParams.t) : gmap string Entry :=
  fold_left getURLState_step searchParams ∅.

Definition cachify (param : string) (values : list string) : string :=
  URLSearchParams.toString (map (fun v => (param, v)) values).

Definition evaluate (h : Handler) (value : string) (param : string)
  (index : option nat) : option Value :=
  match decode h value with
  | Some decoded =>
      match deserialize h decoded with
      | Some raw => Some (resolve h raw param index)
      | None => None
      end
  | None => None
  end.

(** What [serialize(value, handler)] returns: one serialized value, or one
    per element. *)
Inductive Serialized : Type :=
| SerOne (s : option string)
| SerMany (l : list (option string)).

(** A value for a search parameter: [undefined], a string, or strings. *)
Inductive ParamValue : Type :=
| Absent
| One (value : string)
| Many (values : list string).

Definition serialize_value (value : Value) (h : Handler) : Serialized :=
  match entries h, value with
  | Multiple, Arr elems => SerMany (map (serialize h) elems)
  | _, _ => SerOne (serialize h value)
  end.

(** [String(array)]: the elements joined by commas, [undefined] as the
    empty string. *)
Definition Array_toString (l : list (option string)) : string :=
  join_comma (map (default EmptyString) l).

Definition encode_value (serialized : Serialized) (h : Handler) : ParamValue :=
  match serialized with
  | SerMany l =>
      match entries h with
      | Multiple => Many (map (encode h) l)
      | Single => One (encode h (Some (Array_toString l)))
      end
  | SerOne s => One (encode h s)
  end.

Definition parameterize (value : Value) (h : Handler) : ParamValue :=
  encode_value (serialize_value value h) h.

(** Truthiness of a serialized value: [undefined] and the empty string are
    falsy, every array is truthy. *)
Definition truthy (serialized : Serialized) : bool :=
  match serialized with
  | SerOne None => false
  | SerOne (Some s) => negb (URLSearchParams.is_empty s)
  | SerMany _ => true
  end.

(** ** The state of the page *)

(** The [update] closure that [setupEffect] builds for a field: it keeps
    the binding, the field, the parameter name read at setup, and the
    handler. *)
Record Update : Type := {
  u_binding : nat;
  u_field : string;
  u_param : string;
  u_handler : Handler;
}.

(** The [$effect] of a field: its [update] and the debounce config chosen
    at setup ([None]: write through). *)
Record Effect : Type := {
  e_update : Update;
  e_debounce : option Debounce.Config;
}.

(** One call of [URLParameterize]: the target object, the closure's
    [paramByKey] (a [Map], in insertion order), its [disposed] flag, whether
    [onURLChange] is registered on the window, and the effects created. *)
Record Binding : Type := {
  target : gmap string Value;
  handlers : list (string * ParameterHandler);
  options : Options;
  paramByKey : list (string * string);
  disposed : bool;
  listening : bool;
  effects : list Effect;
}.

(** One call of the native [history.pushState] or [history.replaceState]:
    the mode and the search parameters of the URL it was given. *)
Record Navigation : Type := {
  nav_behavior : UpdateHistoryBehavior;
  nav_url : URLSearchParams.t;
}.

(** An assignment to a bound field of a value read from the URL:
    [target[key] = evaluate(...)] or [arr[index] = evaluate(...)]. *)
Record Assignment : Type := {
  as_binding : nat;
  as_field : string;
  as_index : option nat;
  as_value : Value;
}.

(** The module state ([URLChangeEvent.setupComplete], [globals]), the
    browser (location, history calls) and the live bindings.  [navigations]
    and [assignments] are traces, newest last. *)
Record World : Type := {
  supportsHistory : bool;
  setupComplete : bool;
  location : URLSearchParams.t;
  navigations : list Navigation;
  handlerByParam : gmap string Handler;
  cachedByParam : gmap string string;
  debouncer : Debounce.t string Update;
  bindings : list Binding;
  assignments : list Assignment;
}.

Definition set_setupComplete (b : bool) (w : World) : World :=
  {| supportsHistory := supportsHistory w; setupComplete := b;
     location := location w; navigations := navigations w;
     handlerByParam := handlerByParam w; cachedByParam := cachedByParam w;
     debouncer := debouncer w; bindings := bindings w;
     assignments := assignments w |}.

Definition navigate (n : Navigation) (w : World) : World :=
  {| supportsHistory := supportsHistory w; setupComplete := setupComplete w;
     location := nav_url n; navigations := navigations w ++ [n];
     handlerByParam := handlerByParam w; cachedByParam := cachedByParam w;
     debouncer := debouncer w; bindings := bindings w;
     assignments := assignments w |}.

Definition set_handlerByParam (m : gmap string Handler) (w : World) : World :=
  {| supportsHistory := supportsHistory w; setupComplete := setupComplete w;
     location := location w; navigations := navigations w;
     handlerByParam := m; cachedByParam := cachedByParam w;
     debouncer := debouncer w; bindings := bindings w;
     assignments := assignments w |}.

Definition set_cachedByParam (m : gmap string string) (w : World) : World :=
  {| supportsHistory := supportsHistory w; setupComplete := setupComplete w;
     location := location w; navigations := navigations w;
     handlerByParam := handlerByParam w; cachedByParam := m;
     debouncer := debouncer w; bindings := bindings w;
     assignments := assignments w |}.

Definition set_debouncer (d : Debounce.t string Update) (w : World) : World :=
  {| supportsHistory := supportsHistory w; setupComplete := setupComplete w;
     location := location w; navigations := navigations w;
     handlerByParam := handlerByParam w; cachedByParam := cachedByParam w;
     debouncer := d; bindings := bindings w; assignments := assignments w |}.

Definition set_bindings (l : list Binding) (w : World) : World :=
  {| supportsHistory := supportsHistory w; setupComplete := setupComplete w;
     location := location w; navigations := navigations w;
     handlerByParam := handlerByParam w; cachedByParam := cachedByParam w;
     debouncer := debouncer w; bindings := l; assignments := assignments w |}.

Definition record_assignment (a : Assignment) (w : World) : World :=
  {| supportsHistory := supportsHistory w; setupComplete := setupComplete w;
     location := location w; navigations := navigations w;
     handlerByParam := handlerByParam w; cachedByParam := cachedByParam w;
     debouncer := debouncer w; bindings := bindings w;
     assignments := assignments w ++ [a] |}.

Definition with_target (t : gmap string Value) (b : Binding) : Binding :=
  {| target := t; handlers := handlers b; options := options b;
     paramByKey := paramByKey b; disposed := disposed b;
     listening := listening b; effects := effects b |}.

Definition with_paramByKey (m : list (string * string)) (b : Binding) : Binding :=
  {| target := target b; handlers := handlers b; options := options b;
     paramByKey := m; disposed := disposed b; listening := listening b;
     effects := effects b |}.

Definition with_effects (l : list Effect) (b : Binding) : Binding :=
  {| target := target b; handlers := handlers b; options := options b;
     paramByKey := paramByKey b; disposed := disposed b;
     listening := listening b; effects := l |}.

Definition with_disposed (d : bool) (b : Binding) : Binding :=
  {| target := target b; handlers := handlers b; options := options b;
     paramByKey := paramByKey b; disposed := d; listening := listening b;
     effects := effects b |}.

Definition with_listening (l : bool) (b : Binding) : Binding :=
  {| target := target b; handlers := handlers b; options := options b;
     paramByKey := paramByKey b; disposed := disposed b; listening := l;
     effects := effects b |}.

(** [Map.prototype.set] on an insertion-ordered map: an existing key keeps
    its place. *)
Fixpoint map_set (k v : string) (m : list (string * string)) : list (string * string) :=
  match m with
  | [] => [(k, v)]
  | kv :: r => if String.eqb (fst kv) k then (k, v) :: r else kv :: map_set k v r
  end.

(** Changing a binding in place; an unknown binding changes nothing. *)
Definition update_binding (id : nat) (f : Binding -> Binding) (w : World) : World :=
  match bindings w !! id with
  | Some b => set_bindings (<[id := f b]> (bindings w)) w
  | None => w
  end.

(** [target[key]]: a property that is not there reads [undefined]. *)
Definition field (id : nat) (key : string) (w : World) : Value :=
  match bindings w !! id with
  | Some b => default Undefined (target b !! key)
  | None => Undefined
  end.

Definition set_field (id : nat) (key : string) (v : Value) (w : World) : World :=
  update_binding id (fun b => with_target (<[key := v]> (target b)) b) w.

(** ** Computations that may throw *)

Definition M (A : Type) : Type := World -> Result A * World.

Definition ret {A : Type} (a : A) : M A := fun w => (Ok a, w).
Definition throw {A : Type} (e : Error) : M A := fun w => (Err e, w).
Definition bind {A B : Type} (m : M A) (k : A -> M B) : M B :=
  fun w =>
    match m w with
    | (Ok a, w') => k a w'
    | (Err e, w') => (Err e, w')
    end.
Definition exec (f : World -> World) : M unit := fun w => (Ok tt, f w).

Notation "x <- m ;; k" := (bind m (fun x => k))
  (at level 90, m at level 80, right associativity).
Notation "m ;;; k" := (bind m (fun _ => k))
  (at level 90, right associativity).

(** The state after a computation, whether it returned or threw. *)
Definition after {A : Type} (m : M A) (w : World) : World := snd (m w).

(** ** The URL change bus ([URLChangeEvent]) *)

(** ** The registry and the write cache ([globals]) *)

Definition cached (param : string) (w : World) : option string :=
  cachedByParam w !! param.

Definition cache (param value : string) (w : World) : World :=
  set_cachedByParam (<[param := value]> (cachedByParam w)) w.

Definition uncache (param : string) (w : World) : World :=
  set_cachedByParam (delete param (cachedByParam w)) w.

Definition safeSetHandler (handler : Handler) : M unit :=
  fun w =>
    match handlerByParam w !! key handler with
    | Some _ => (Err (KeyConflict (key handler)), w)
    | None => (Ok tt, set_handlerByParam (<[key handler := handler]> (handlerByParam w)) w)
    end.

Definition unsafeSetHandler (handler : Handler) (w : World) : World :=
  set_handlerByParam (<[key handler := handler]> (handlerByParam w)) w.

(** [arr[index] = v]: an array grows, with holes, to hold the index; an
    object takes a property; anything else cannot take one. *)
Definition array_set (index : nat) (v : Value) (l : list Value) : list Value :=
  if (index <? length l)%nat then <[index := v]> l
  else l ++ replicate (index - length l) Undefined ++ [v].

Definition assign_index (arr : Value) (index : nat) (v : Value) : Result Value :=
  match arr with
  | Arr l => Ok (Arr (array_set index v l))
  | Obj props => Ok (Obj (obj_set (N_to_string (N.of_nat index)) v props))
  | _ => Err TypeError
  end.

(** [arr.splice(start, deleteCount)]; a negative count deletes nothing. *)
Definition splice (arr : Value) (start : nat) (deleteCount : Z) : Result Value :=
  match arr with
  | Arr l => Ok (Arr (take start l ++ drop (start + Z.to_nat deleteCount) l))
  | _ => Err TypeError
  end.

(** The loop of [trySetFromURL] over the entries of a repeated parameter:
    positions whose raw string differs from the cached one are resolved
    again and stored. *)
Fixpoint resolve_changed (id : nat) (key param : string) (handler : Handler)
  (values previous : list string) (index : nat) : M unit :=
  match values with
  | [] => ret tt
  | v :: rest =>
      (if bool_decide (Some v = previous !! index) then ret tt
       else
         match evaluate handler v param (Some index) with
         | None => throw HandlerThrew
         | Some x =>
             fun w =>
               match assign_index (field id key w) index x with
               | Ok arr' =>
                   (Ok tt,
                    record_assignment
                      {| as_binding := id; as_field := key; as_index := Some index;
                         as_value := x |}
                      (set_field id key arr' w))
               | Err e => (Err e, w)
               end
         end) ;;;
      resolve_changed id key param handler rest previous (S index)
  end.

Definition splice_field (id : nat) (key : string) (start : nat) (deleteCount : Z)
  : M unit :=
  fun w =>
    match splice (field id key w) start deleteCount with
    | Ok arr' => (Ok tt, set_field id key arr' w)
    | Err e => (Err e, w)
    end.

(** The branch of [trySetFromURL] for a repeated parameter or a handler
    with ["multiple"] entries. *)
Definition hydrate_entries (id : nat) (key param : string) (h : Handler)
  (values : list string) (doCache : bool) : M unit :=
  fun w =>
    let previous :=
      URLSearchParams.getAll param (URLSearchParams.of_init (cached param w)) in
    (resolve_changed id key param h values previous 0 ;;;
     splice_field id key (length values)
       (Z.of_nat (length previous) - Z.of_nat (length values)) ;;;
     exec (fun w' => if doCache then cache param (cachify param values) w' else w')) w.

(** The branch of [trySetFromURL] for a single value. *)
Definition hydrate_single (id : nat) (key param : string) (h : Handler)
  (current : string) (doCache : bool) : M unit :=
  fun w =>
    let previous :=
      URLSearchParams.get param (URLSearchParams.of_init (cached param w)) in
    if bool_decide (Some current = previous) then (Ok tt, w)
    else
      match evaluate h current param None with
      | None => (Err HandlerThrew, w)
      | Some x =>
          let w1 :=
            record_assignment
              {| as_binding := id; as_field := key; as_index := None; as_value := x |}
              (set_field id key x w) in
          (Ok tt, if doCache then cache param (cachify param [current]) w1 else w1)
      end.

Definition trySetFromURL (state : gmap string Entry) (id : nat) (key param : string)
  (handler : option Handler) (doCache : bool) : M unit :=
  fun w =>
    match state !! param with
    | None =>
        let w1 := uncache param w in
        (Ok tt, if isArray (field id key w1) then set_field id key (Arr []) w1 else w1)
    | Some current =>
        match (match handler with
               | Some h => Some h
               | None => handlerByParam w !! param
               end) with
        | None => (Err TypeError, w)
        | Some h =>
            match current, supportsMultiple h with
            | Repeated _, false => (Err ExpectedMultiple, w)
            | Repeated values, true => hydrate_entries id key param h values doCache w
            | Once value, true => hydrate_entries id key param h [value] doCache w
            | Once value, false => hydrate_single id key param h value doCache w
            end
        end
    end.

(** The listener [onURLChange] of one binding.  An exception ends the
    listener; the event dispatch reports it and goes on. *)
Fixpoint onURLChange_loop (state : gmap string Entry) (id : nat)
  (entries : list (string * string)) : M unit :=
  match entries with
  | [] => ret tt
  | (key, param) :: rest =>
      trySetFromURL state id key param None true ;;;
      onURLChange_loop state id rest
  end.

Definition onURLChange (state : gmap string Entry) (id : nat) : M unit :=
  fun w =>
    match bindings w !! id with
    | Some b => onURLChange_loop state id (paramByKey b) w
    | None => (Ok tt, w)
    end.

(** [window.dispatchEvent]: the listeners registered for the event, in
    registration order. *)
Fixpoint dispatch (state : gmap string Entry) (ids : list nat) (w : World) : World :=
  match ids with
  | [] => w
  | id :: rest =>
      let w' :=
        match bindings w !! id with
        | Some b => if listening b then after (onURLChange state id) w else w
        | None => w
        end in
      dispatch state rest w'
  end.

Definition emit (w : World) : World :=
  dispatch (getURLState (location w)) (seq 0 (length (bindings w))) w.

(** [setupListener]: whether the history functions are (now) wrapped. *)
Definition setupListener (w : World) : bool * World :=
  if setupComplete w then (true, w)
  else if negb (supportsHistory w) then (false, w)
  else (true, set_setupComplete true w).

Definition modifySearchParam (param : string) (value : ParamValue)
  (url : URLSearchParams.t) : URLSearchParams.t :=
  match value with
  | Absent => URLSearchParams.delete param url
  | Many values =>
      fold_left (fun u v => URLSearchParams.append param v u) values
        (URLSearchParams.delete param url)
  | One v => URLSearchParams.set param v url
  end.

(** [commit]: the wrapped history function performs the native call and
    then emits. *)
Definition commit (url : URLSearchParams.t) (behavior : UpdateHistoryBehavior)
  (w : World) : World :=
  let '(ok, w1) := setupListener w in
  if ok then emit (navigate {| nav_behavior := behavior; nav_url := url |} w1)
  else w1.

Definition trigger (param : string) (value : ParamValue)
  (behavior : UpdateHistoryBehavior) (w : World) : World :=
  commit (modifySearchParam param value (location w)) behavior w.

Definition batchTrigger (values : list (string * ParamValue))
  (behavior : UpdateHistoryBehavior) (w : World) : World :=
  commit (fold_left (fun url pv => modifySearchParam (fst pv) (snd pv) url)
            values (location w))
         behavior w.

(** The cache string of a value; [undefined] is written as a string by
    [URLSearchParams]. *)
Definition cachify_value (param : string) (value : ParamValue) : string :=
  match value with
  | Many values => cachify param values
  | One v => cachify param [v]
  | Absent => cachify param ["undefined"]
  end.

Definition trySetURLParam (param : string) (value : ParamValue)
  (behavior : UpdateHistoryBehavior) (w : World) : World :=
  let c := cachify_value param value in
  if bool_decide (cached param w = Some c) then w
  else trigger param value behavior (cache param c w).

(** The filter of [trySetURLParams]: the entries whose cache string is new,
    each cached as it is kept. *)
Fixpoint filter_uncached (values : list (string * ParamValue)) (w : World)
  : list (string * ParamValue) * World :=
  match values with
  | [] => ([], w)
  | (param, value) :: rest =>
      let c := cachify_value param value in
      if bool_decide (cached param w = Some c) then filter_uncached rest w
      else
        let '(kept, w') := filter_uncached rest (cache param c w) in
        ((param, value) :: kept, w')
  end.

Definition trySetURLParams (values : list (string * ParamValue))
  (behavior : UpdateHistoryBehavior) (w : World) : World :=
  let '(kept, w1) := filter_uncached values w in
  batchTrigger kept behavior w1.

(** [globals.delete] *)
Definition globals_delete (param : string) (w : World) : World :=
  let w1 := set_debouncer (Debounce.clear param (debouncer w)) w in
  let w2 := uncache param w1 in
  let w3 := set_handlerByParam (delete param (handlerByParam w2)) w2 in
  trigger param Absent Replace w3.

(** ** The binding engine *)

(** The loop of [tryProcessHistoricalKeys]: each legacy key is applied and
    then filed under the history mode of its removal. *)
Fixpoint historical_loop (id : nat) (key : string) (handler : Handler)
  (state : gmap string Entry) (keys : list PreviousKey)
  (pushes replacements : option (list string))
  : M (option (list string) * option (list string)) :=
  match keys with
  | [] => ret (pushes, replacements)
  | pk :: rest =>
      let param := validParam (fullname pk) in
      (if default true (pk_apply pk)
       then trySetFromURL state id key param (Some handler) false
       else ret tt) ;;;
      if default true (pk_remove pk) then
        match default Replace (pk_behavior pk) with
        | Push =>
            historical_loop id key handler state rest
              (Some (default [] pushes ++ [param])) replacements
        | Replace =>
            historical_loop id key handler state rest
              pushes (Some (default [] replacements ++ [param]))
        end
      else historical_loop id key handler state rest pushes replacements
  end.

Definition removals (params : list string) : list (string * ParamValue) :=
  map (fun p => (p, Absent)) params.

Definition tryProcessHistoricalKeys (id : nat) (key : string) (handler : Handler)
  (state : gmap string Entry) : M unit :=
  match previousKeys handler with
  | None => ret tt
  | Some keys =>
      groups <- historical_loop id key handler state keys None None ;;
      exec (fun w =>
              let w1 := match fst groups with
                        | Some pushes => batchTrigger (removals pushes) Push w
                        | None => w
                        end in
              match snd groups with
              | Some replacements => batchTrigger (removals replacements) Replace w1
              | None => w1
              end)
  end.

(** [update(serialized?)] *)
Definition update (u : Update) (serialized : option Serialized) (w : World) : World :=
  let value :=
    match serialized with
    | Some s =>
        if truthy s then encode_value s (u_handler u)
        else parameterize (field (u_binding u) (u_field u) w) (u_handler u)
    | None => parameterize (field (u_binding u) (u_field u) w) (u_handler u)
    end in
  trySetURLParam (u_param u) value (history (u_handler u)) w.

(** One run of the [$effect] of a field. *)
Definition runEffect (e : Effect) : M unit :=
  fun w =>
    let u := e_update e in
    let serialized := serialize_value (field (u_binding u) (u_field u) w) (u_handler u) in
    match e_debounce e with
    | Some config =>
        match Debounce.enqueue (u_param u) u (Some config) (debouncer w) with
        | Ok d => (Ok tt, set_debouncer d w)
        | Err e => (Err e, w)
        end
    | None => (Ok tt, update u (Some serialized) w)
    end.

(** Time passes: the timeouts due by [limit] fire, and each runs its
    callback, [update()]. *)
Definition advance (limit : Z) (w : World) : World :=
  let '(fired, d) := Debounce.advance limit (debouncer w) in
  fold_left (fun w' f => update (Debounce.ran f) None w') fired (set_debouncer d w).

(** A [visibilitychange], [pagehide] or [beforeunload] event: the
    scheduler's listener flushes every pending key, and each flush runs its
    callback, [update()]. *)
Definition pageLifecycle (w : World) : World :=
  let '(fired, d) := Debounce.visibilityHandler (debouncer w) in
  fold_left (fun w' f => update (Debounce.ran f) None w') fired (set_debouncer d w).

Definition setupEffect (id : nat) (name : string) (h : ParameterHandler)
  (state : gmap string Entry) : M unit :=
  fun w =>
    match bindings w !! id with
    | None => (Ok tt, w)
    | Some b =>
        let handler := verbosify h name (options b) in
        (safeSetHandler handler ;;;
         let param := key handler in
         exec (update_binding id (fun b => with_paramByKey (map_set name param (paramByKey b)) b)) ;;;
         let debounce_config :=
           match debounce handler with
           | DebounceOff => None
           | DebounceWith c => Some c
           | DebounceGlobal => o_debounce (options b)
           end in
         tryProcessHistoricalKeys id name handler state ;;;
         trySetFromURL state id name param (Some handler) true ;;;
         exec (update_binding id (fun b =>
                 with_effects
                   (effects b ++
                    [{| e_update := {| u_binding := id; u_field := name;
                                       u_param := param; u_handler := handler |};
                        e_debounce := debounce_config |}]) b))) w
    end.

Fixpoint setup_loop (id : nat) (hs : list (string * ParameterHandler))
  (state : gmap string Entry) : M unit :=
  match hs with
  | [] => ret tt
  | (name, h) :: rest => setupEffect id name h state ;;; setup_loop id rest state
  end.

(** [URLParameterize(target, handlers, options)].  The result is the
    binding created, or [None] for the inert [unsupported] stub.  The
    listener is registered before the fields are set up, so it stays
    registered when the setup throws. *)
Definition URLParameterize (tgt : gmap string Value)
  (hs : list (string * ParameterHandler)) (opts : Options) : M (option nat) :=
  fun w =>
    let '(ok, w1) := setupListener w in
    if negb ok then (Ok None, w1)
    else
      let id := length (bindings w1) in
      let w2 :=
        set_bindings
          (bindings w1 ++
           [{| target := tgt; handlers := hs; options := opts; paramByKey := [];
               disposed := false; listening := true; effects := [] |}]) w1 in
      (setup_loop id hs (getURLState (location w2)) ;;; ret (Some id)) w2.

(** [dispose], the [cleanup] a binding returns. *)
Definition dispose (id : nat) (w : World) : World :=
  match bindings w !! id with
  | None => w
  | Some b =>
      if disposed b then w
      else
        let w1 := update_binding id (with_disposed true) w in
        let w2 := fold_left (fun w' kp => globals_delete (snd kp) w') (paramByKey b) w1 in
        update_binding id (fun b' => with_listening false (with_paramByKey [] b')) w2
  end.

(** The loop of [updatePrefix].  The handler found under the old name gets
    its new [key], the old name is deleted, the handler is stored again,
    and the write of the new name is put on the batch. *)
Fixpoint updatePrefix_loop (id : nat) (prefix : string)
  (entries : list (string * string)) (updates : list (string * ParamValue))
  : M (list (string * ParamValue)) :=
  match entries with
  | [] => ret updates
  | (name, param) :: rest =>
      fun w =>
        match handlerByParam w !! param with
        | None => (Err TypeError, w)
        | Some h =>
            let handler := with_key h (validParam (prefix +:+ name)) in
            let w1 := globals_delete param w in
            let w2 := unsafeSetHandler handler w1 in
            let w3 :=
              update_binding id
                (fun b => with_paramByKey (map_set name (key handler) (paramByKey b)) b) w2 in
            updatePrefix_loop id prefix rest
              (updates ++ [(key handler, parameterize (field id name w3) handler)]) w3
        end
  end.

(** [updatePrefix], the [prefix] function a binding returns. *)
Definition updatePrefix (id : nat) (prefix : string) : M unit :=
  fun w =>
    match bindings w !! id with
    | None => (Ok tt, w)
    | Some b =>
        (updates <- updatePrefix_loop id prefix (paramByKey b) [] ;;
         exec (trySetURLParams updates Replace)) w
    end.

(** A navigation the page did not make through this module: back or
    forward ([popstate]) or a foreign history call, observed once the
    history functions are wrapped. *)
Definition externalNavigation (url : URLSearchParams.t) (w : World) : World :=
  let w1 :=
    {| supportsHistory := supportsHistory w; setupComplete := setupComplete w;
       location := url; navigations := navigations w;
       handlerByParam := handlerByParam w; cachedByParam := cachedByParam w;
       debouncer := debouncer w; bindings := bindings w;
       assignments := assignments w |} in
  if setupComplete w then emit w1 else w1.

(** A page that has loaded with the given search parameters; the module
    state is that of the module's initialisers. *)
Definition initial (supported : bool) (url : URLSearchParams.t) : World :=
  {| supportsHistory := supported; setupComplete := false; location := url;
     navigations := [];
     handlerByParam := ∅; cachedByParam := ∅;
     debouncer :=
       {| Debounce.opts := {| Debounce.idleMs := -1; Debounce.maxWaitMs := -1 |};
          Debounce.maxTimers := ∅; Debounce.idleTimers := ∅;
          Debounce.callbacks := ∅; Debounce.now := 0; Debounce.nextHandle := 1%nat;
          Debounce.pending := [] |};
     bindings := []; assignments := [] |}.

(** The application assigns a bound field. *)
Definition write_field (id : nat) (name : string) (v : Value) (w : World) : World :=
  set_field id name v w.

(** The reactive collaborator runs every effect of a binding once, in the
    order of their creation. *)
Definition runEffects (id : nat) (w : World) : World :=
  match bindings w !! id with
  | Some b => fold_left (fun w' e => after (runEffect e) w') (effects b) w
  | None => w
  end.

(** * Vocabulary of the properties *)

(** A binding without the values of its target: what the listeners leave
    alone. *)
Definition wiring (b : Binding) : Binding := with_target ∅ b.

(** [quiet w w']: from [w] to [w'] nothing happened but assignments to
    fields and changes of the write cache.  No navigation, no change of
    the registry, of the timers or of any binding's wiring. *)
Record quiet (w w' : World) : Prop := {
  q_supports : supportsHistory w' = supportsHistory w;
  q_setup : setupComplete w' = setupComplete w;
  q_location : location w' = location w;
  q_navigations : navigations w' = navigations w;
  q_handlers : handlerByParam w' = handlerByParam w;
  q_debouncer : debouncer w' = debouncer w;
  q_bindings : map wiring (bindings w') = map wiring (bindings w);
  q_trace : exists extra, assignments w' = assignments w ++ extra;
}.


(** The snapshot entry for a parameter that occurs with the given values. *)
Definition entry_of (values : list string) : option Entry :=
  match values with
  | [] => None
  | [v] => Some (Once v)
  | _ => Some (Repeated values)
  end.


(** The state of a name that [globals.delete] has released. *)
Definition released (q : string) (w : World) : Prop :=
  handlerByParam w !! q = None
  /\ cached q w = None
  /\ Debounce.callbacks (debouncer w) !! q = None
  /\ URLSearchParams.has q (location w) = false.


(** The legacy names that are to be removed in the given history mode, in
    the order of [previousKeys]. *)
Definition removal_group (behavior : UpdateHistoryBehavior) (keys : list PreviousKey)
  : list string :=
  map (fun pk => validParam (fullname pk))
    (List.filter
       (fun pk =>
          default true (pk_remove pk)
          && match default Replace (pk_behavior pk), behavior with
             | Push, Push | Replace, Replace => true
             | _, _ => false
             end)
       keys).








(** The groups that the loop has gathered when it ends. *)
Definition gathered (acc : option (list string)) (g : list string)
  : option (list string) :=
  match g with
  | [] => acc
  | _ => Some (default [] acc ++ g)
  end.


(** [c] does not occur in [s]. *)
Fixpoint lacks (c : ascii) (s : string) : Prop :=
  match s with
  | EmptyString => True
  | String x r => x <> c /\ lacks c r
  end.



(** [touches id k w w']: from [w] to [w'] no field other than field [k] of
    binding [id] changed, and what was recorded as assigned from the URL
    was assigned to that field. *)
Definition touches (id : nat) (k : string) (w w' : World) : Prop :=
  (forall id' k', (id', k') <> (id, k) -> field id' k' w' = field id' k' w)
  /\ exists extra,
       assignments w' = assignments w ++ extra
       /\ Forall (fun a => as_binding a = id /\ as_field a = k) extra.


(** What an own write leaves invariant while the listeners run: the cache
    entry of the written parameter (when the write left the parameter in
    the URL), the written field, and the absence of assignments to it. *)
Record own_write_inv (id : nat) (k param : string) (values : list string)
  (w0 w : World) : Prop := {
  ow_cache : values <> [] -> cached param w = Some (cachify param values);
  ow_field : field id k w = field id k w0;
  ow_trace : exists extra,
      assignments w = assignments w0 ++ extra
      /\ Forall (fun a => (as_binding a, as_field a) <> (id, k)) extra;
}.

(** The field is known to its binding under the given name only. *)
Definition named_only (id : nat) (k param : string) (w : World) : Prop :=
  forall b p, bindings w !! id = Some b -> (k, p) ∈ paramByKey b -> p = param.

(** The values a parameter has in the URL once the value is written. *)
Definition written (value : ParamValue) : list string :=
  match value with
  | One v => [v]
  | Many values => values
  | Absent => []
  end.

(** A positive finite number. *)
Definition positive_number (x : Number) : Prop :=
  match x with
  | Int (Zpos _) | Dyadic false _ _ => True
  | _ => False
  end.

(** A string of decimal digits. *)
Fixpoint all_digits (s : string) : bool :=
  match s with
  | EmptyString => true
  | String c r => is_digit c && all_digits r
  end.

(** No digit, and no start of a fraction or exponent. *)
Definition ends_number (rest : string) : Prop :=
  match rest with
  | EmptyString => True
  | String c _ =>
      is_digit c = false /\ c <> "."%char /\ c <> "e"%char /\ c <> "E"%char
  end.


(** ** Values that JSON represents *)

(** A key may be given to an object after the keys [seen] and be
    enumerated last: it is new, and when it is an array index the keys
    before it are smaller array indices. *)
Definition can_append (k : string) (seen : list string) : bool :=
  negb (existsb (fun k' => String.eqb k' k) seen)
  && match array_index k with
     | Some i =>
         forallb (fun k' => match array_index k' with
                            | Some j => (j <? i)%N
                            | None => false
                            end) seen
     | None => true
     end.

(** The keys of an object in the order in which it enumerates them. *)
Fixpoint own_key_order (seen keys : list string) : bool :=
  match keys with
  | [] => true
  | k :: rest => can_append k seen && own_key_order (seen ++ [k]) rest
  end.

(** The values that [JSON.stringify] and [JSON.parse] carry unchanged:
    [null], booleans, the finite numbers, well-formed strings, and arrays
    and objects of such values.  [undefined], [NaN] and the infinities have
    no JSON text of their own. *)
Fixpoint json_value (v : Value) : bool :=
  match v with
  | Undefined => false
  | Null => true
  | Bool _ => true
  | Num n => is_finite n && is_double n
  | Str s => utf8_valid s
  | Arr elems =>
      (fix all (l : list Value) : bool :=
         match l with
         | [] => true
         | e :: r => json_value e && all r
         end) elems
  | Obj props =>
      own_key_order [] (map fst props)
      && (fix all (l : list (string * Value)) : bool :=
            match l with
            | [] => true
            | (k, e) :: r => utf8_valid k && json_value e && all r
            end) props
  end.

(** The values the default handler carries through the URL: those of
    JSON, and [undefined] itself. *)
Definition round_trips (v : Value) : bool :=
  match v with
  | Undefined => true
  | _ => json_value v
  end.

(** The fuel that reading a value back takes. *)
Fixpoint json_size (v : Value) : nat :=
  match v with
  | Arr elems =>
      S ((fix sum (l : list Value) : nat :=
            match l with
            | [] => O
            | e :: r => (S (json_size e) + sum r)%nat
            end) elems)
  | Obj props =>
      S ((fix sum (l : list (string * Value)) : nat :=
            match l with
            | [] => O
            | (_, e) :: r => (S (json_size e) + sum r)%nat
            end) props)
  | _ => 1%nat
  end.

(** The JSON text of a value, [null] where it has none. *)
Definition text (v : Value) : string := default "null" (JSON_stringify v).

Definition member_text (kv : string * Value) : string :=
  json_quote (fst kv) +:+ ":" +:+ text (snd kv).

(** What may follow a value inside a JSON text. *)
Definition delimited (rest : string) : Prop :=
  match rest with
  | EmptyString => True
  | String c _ => c = ","%char \/ c = "]"%char \/ c = "}"%char
  end.

(** The characters a JSON value may begin with. *)
Definition value_start (c : ascii) : bool :=
  is_digit c || mem_ascii c "-ntf[{" || Ascii.eqb c dquote.

(** The default handler with a given [resolve]. *)
Definition default_handler (r : ResolveFn) : Handler :=
  verbosify (BareResolve r) "v" no_options.

(** The statement for one value: with enough fuel, the text of the value
    followed by a delimiter reads back as the value, and the rest stays. *)
Definition reads_back (v : Value) : Prop :=
  json_value v = true ->
  forall fuel rest, (json_size v <= fuel)%nat -> delimited rest ->
    parse_value fuel (text v +:+ rest) = Some (v, rest).


(** One code point: a single byte below 128, or a sequence of two to four
    bytes from 128 up that the validator accepts whatever follows. *)
Definition code_point (q : string) : Prop :=
  (forall t, utf8_valid (q +:+ t) = utf8_valid t)
  /\ ((exists c, q = String c EmptyString /\ (byte_val c < 128)%N)
      \/ (q <> EmptyString
          /\ Forall (fun c => (128 <= byte_val c)%N) (list_ascii_of_string q))).

(** A string of bytes below 128. *)
Definition is_ascii (s : string) : bool :=
  forallb (fun c => (byte_val c <? 128)%N) (list_ascii_of_string s).


(** * Example pages *)

Definition tags_target : gmap string Value :=
  {[ "tags" := Arr [Str "js"; Str "ts"]; "page" := Num (Int 3) ]}.

Definition tags_world : World :=
  cache "tags" "tags=js&tags=ts"
    (set_bindings
       [{| target := tags_target; handlers := []; options := no_options;
           paramByKey := [("tags", "tags"); ("page", "page")]; disposed := false;
           listening := true; effects := [] |}]
       (initial true [("page", "3")])).


Definition identity : ResolveFn := fun query _ _ => query.

Definition prefixed (prefix : string) : Options :=
  {| o_prefix := Some (Utils.Plain prefix); o_debounce := None; o_history := None;
     o_encode := None; o_decode := None; o_deserialize := None;
     o_serialize := None |}.

(** Two numeric fields bound under the prefix [a_], on a page that loaded
    without parameters; the effects have run once. *)
Definition xy_target : gmap string Value :=
  {[ "x" := Num (Int 1); "y" := Num (Int 2) ]}.

Definition xy_handlers : list (string * ParameterHandler) :=
  [("x", BareResolve identity); ("y", BareResolve identity)].

Definition xy_page : World :=
  runEffects 0
    (after (URLParameterize xy_target xy_handlers (prefixed "a_")) (initial true [])).

(** Beside the binding of [xy_page], a second binding of a field [x], under
    the prefix [b_]; its effect has run once. *)
Definition two_prefixes_page : World :=
  runEffects 1
    (after (URLParameterize {[ "x" := Num (Int 5) ]} [("x", BareResolve identity)]
              (prefixed "b_"))
       xy_page).

(** A field with an explicit key, bound under the prefix [a_]. *)
Definition hello_handler : VerboseParameterHandler :=
  {| vh_key := Some "h"; vh_history := None; vh_entries := None; vh_debounce := None;
     vh_resolve := identity; vh_serialize := None; vh_deserialize := None;
     vh_decode := None; vh_encode := None; vh_previousKeys := None |}.

Definition hello_page : World :=
  after (URLParameterize {[ "hello" := Str "world" ]}
           [("hello", Verbose hello_handler)] (prefixed "a_"))
        (initial true []).

(** A list field with ["multiple"] entries that holds the empty list. *)
Definition tags_handler : VerboseParameterHandler :=
  {| vh_key := None; vh_history := None; vh_entries := Some Multiple;
     vh_debounce := None; vh_resolve := identity; vh_serialize := None;
     vh_deserialize := None; vh_decode := None; vh_encode := None;
     vh_previousKeys := None |}.

Definition empty_tags_page : World :=
  after (URLParameterize {[ "tags" := Arr [] ]} [("tags", Verbose tags_handler)]
           no_options)
        (initial true []).

(** A burst of [n] calls of [enqueue] for one key, 30ms apart, with an idle
    time of 50ms and a maximal wait of 200ms. *)
Definition burst_config : Debounce.Config :=
  {| Debounce.idleMs := 50; Debounce.maxWaitMs := 200 |}.

Definition burst (n : nat) : list (Debounce.Call string nat) :=
  map (fun i => {| Debounce.call_time := 30 * Z.of_nat i; Debounce.call_key := "k";
                   Debounce.call_cb := i; Debounce.call_config := Some burst_config |})
      (seq 0 n).

Definition default_opts : Debounce.Config :=
  {| Debounce.idleMs := -1; Debounce.maxWaitMs := -1 |}.

(** The state of [xy_page], written out: both fields are registered,
    named, cached and in the URL. *)
Definition x_handler : Handler := verbosify (BareResolve identity) "x" (prefixed "a_").
Definition y_handler : Handler := verbosify (BareResolve identity) "y" (prefixed "a_").

Definition xy_binding : Binding :=
  {| target := xy_target; handlers := xy_handlers; options := prefixed "a_";
     paramByKey := [("x", "a_x"); ("y", "a_y")]; disposed := false;
     listening := true; effects := [] |}.

Definition xy_world : World :=
  {| supportsHistory := true; setupComplete := true;
     location := [("a_x", "1"); ("a_y", "2")];
     navigations := [];
     handlerByParam := <["a_x" := x_handler]> (<["a_y" := y_handler]> ∅);
     cachedByParam := <["a_x" := "a_x=1"]> (<["a_y" := "a_y=2"]> ∅);
     debouncer := debouncer (initial true []);
     bindings := [xy_binding]; assignments := [] |}.

(** A second caller that binds a field [x] under the same prefix: the
    state in which [URLParameterize] begins to set up the fields of the new
    binding. *)
Definition second_binding : Binding :=
  {| target := {[ "x" := Num (Int 5) ]};
     handlers := [("x", BareResolve identity)]; options := prefixed "a_";
     paramByKey := []; disposed := false; listening := true; effects := [] |}.

Definition xy_world_with_second : World :=
  set_bindings [xy_binding; second_binding] xy_world.








(** The [update] closure of the field [x], and the state once the
    application has assigned 7 to the field. *)
Definition x_update : Update :=
  {| u_binding := 0; u_field := "x"; u_param := "a_x"; u_handler := x_handler |}.

Definition xy_world_x7 : World :=
  set_bindings
    [with_target (<["x" := Num (Int 7)]> xy_target) xy_binding] xy_world.

(** * Vocabulary of the further properties *)

(** The name a handler gives its parameter, before prefix and escaping:
    [handler.key ?? key]. *)
Definition own_name (h : ParameterHandler) (name : string) : string :=
  match h with
  | Verbose v => nullish (vh_key v) name
  | BareResolve _ => name
  end.

(** A handler whose [previousKeys] name nothing to remove. *)
Definition removes_no_legacy_name (h : Handler) : Prop :=
  forall keys, previousKeys h = Some keys ->
    removal_group Push keys = [] /\ removal_group Replace keys = [].

Section DebounceInvariant.
Context {K : Type} `{Countable K} {CB : Type}.
Implicit Types (d : Debounce.t K CB) (tm : Debounce.Timer K) (key : K).

(** What the scheduler keeps true of its maps and of the host's timeouts:
    the default options are valid; every armed timeout is registered
    under its key, as idle or as max timer; a registered handle belongs to
    no other key's timeout; and handles still to be given out are new. *)
Definition tidy d : Prop :=
  Debounce.idleMs (Debounce.opts d) <= Debounce.maxWaitMs (Debounce.opts d)
  /\ (forall tm, tm ∈ Debounce.pending d ->
        (Debounce.handle tm < Debounce.nextHandle d)%nat
        /\ (Debounce.idleTimers d !! Debounce.flushes tm = Some (Debounce.handle tm)
            \/ Debounce.maxTimers d !! Debounce.flushes tm = Some (Debounce.handle tm)))
  /\ (forall key h,
        Debounce.idleTimers d !! key = Some h \/ Debounce.maxTimers d !! key = Some h ->
        (h < Debounce.nextHandle d)%nat
        /\ forall tm, tm ∈ Debounce.pending d -> Debounce.handle tm = h ->
                      Debounce.flushes tm = key).

(** What the scheduler keeps true of its callbacks: a key has a callback
    exactly while its timeouts are armed.  The idle timeout of a key that
    has a callback is armed and registered, so the key is among
    [callback_keys]; and every armed timeout flushes a key that has a
    callback. *)
Definition booked d : Prop :=
  tidy d
  /\ (forall key, is_Some (Debounce.callbacks d !! key) ->
                  key ∈ Debounce.callback_keys d)
  /\ (forall tm, tm ∈ Debounce.pending d ->
                 is_Some (Debounce.callbacks d !! Debounce.flushes tm)).

(** One turn of the host's timer loop: the timeout fires and runs
    [flush]. *)
Definition fire tm d : option CB * Debounce.t K CB :=
  Debounce.flush (Debounce.flushes tm)
    (Debounce.drop_timer (Debounce.handle tm)
       (Debounce.set_clock (Z.max (Debounce.now d) (Debounce.due tm)) d)).

End DebounceInvariant.

(** The key that [updatePrefix] gives a field. *)
Definition renamed (prefix : string) (kp : string * string) : string * string :=
  (fst kp, validParam (prefix +:+ fst kp)).

(** ** Further example pages *)

(** A scheduler on which nothing has been enqueued. *)
Definition fresh_scheduler : Debounce.t string nat :=
  {| Debounce.opts := default_opts; Debounce.maxTimers := ∅; Debounce.idleTimers := ∅;
     Debounce.callbacks := ∅; Debounce.now := 0; Debounce.nextHandle := 1%nat;
     Debounce.pending := [] |}.

(** The scheduler after [enqueue("k", 7, burst_config)] at time 0. *)
Definition armed_scheduler : Debounce.t string nat :=
  {| Debounce.opts := default_opts;
     Debounce.maxTimers := {[ "k" := 2%nat ]};
     Debounce.idleTimers := {[ "k" := 1%nat ]};
     Debounce.callbacks := {[ "k" := 7%nat ]};
     Debounce.now := 0; Debounce.nextHandle := 3%nat;
     Debounce.pending :=
       [ {| Debounce.handle := 1%nat; Debounce.due := 50; Debounce.flushes := "k" |};
         {| Debounce.handle := 2%nat; Debounce.due := 200; Debounce.flushes := "k" |} ] |}.

(** The page of [xy_world] with a parameter of its own in the URL. *)
Definition three_params_world : World :=
  {| supportsHistory := true; setupComplete := true;
     location := [("q", "svelte"); ("a_x", "1"); ("a_y", "2")];
     navigations := [];
     handlerByParam := <["a_x" := x_handler]> (<["a_y" := y_handler]> ∅);
     cachedByParam := <["a_x" := "a_x=1"]> (<["a_y" := "a_y=2"]> ∅);
     debouncer := debouncer (initial true []);
     bindings := [xy_binding]; assignments := [] |}.

(** A page that loaded with [?a_x=42&q=svelte], at the moment
    [URLParameterize] begins to set up the field [x] of a new binding. *)
Definition loading_world : World :=
  set_bindings [second_binding] (initial true [("a_x", "42"); ("q", "svelte")]).

(** The list handler of [empty_tags_page], resolved. *)
Definition tags_list_handler : Handler :=
  verbosify (Verbose tags_handler) "tags" no_options.

(** A page without parameters and with nothing cached, on which a binding
    has a list field [tags]: empty, or with the target of [tags_world]. *)
Definition fresh_tags_world : World :=
  set_bindings
    [{| target := {[ "tags" := Arr [] ]}; handlers := []; options := no_options;
        paramByKey := [("tags", "tags")]; disposed := false; listening := true;
        effects := [] |}]
    (initial true []).

Definition loaded_tags_world : World :=
  set_bindings
    [{| target := tags_target; handlers := []; options := no_options;
        paramByKey := [("tags", "tags")]; disposed := false; listening := true;
        effects := [] |}]
    (initial true []).



(** The effect of the field [x] when its handler is debounced. *)
Definition x_debounced_effect : Effect :=
  {| e_update := x_update; e_debounce := Some burst_config |}.

(* ================================================================== *)
(** * Part II. Properties                                              *)
(* ================================================================== *)

(** ** Handler resolution *)

Lemma verbosify_key (h : ParameterHandler) (name : string) (opts : Options) :
  key (verbosify h name opts)
  = validParam (Utils.resolve (o_prefix opts) EmptyString
                +:+ match h with
                    | Verbose v => nullish (vh_key v) name
                    | BareResolve _ => name
                    end).
Proof. destruct h; reflexivity. Qed.

(** ** The registry *)

Lemma safeSetHandler_conflict (h h0 : Handler) (w : World) :
  handlerByParam w !! key h = Some h0 ->
  safeSetHandler h w = (Err (KeyConflict (key h)), w).
Proof. intros Hin. unfold safeSetHandler. now rewrite Hin. Qed.

Lemma safeSetHandler_fresh (h : Handler) (w : World) :
  handlerByParam w !! key h = None ->
  safeSetHandler h w
  = (Ok tt, set_handlerByParam (<[key h := h]> (handlerByParam w)) w).
Proof. intros Hin. unfold safeSetHandler. now rewrite Hin. Qed.

Lemma safeSetHandler_ok_inv (h : Handler) (w w' : World) :
  safeSetHandler h w = (Ok tt, w') ->
  handlerByParam w !! key h = None /\ handlerByParam w' !! key h = Some h.
Proof.
  unfold safeSetHandler. destruct (handlerByParam w !! key h) eqn:E.
  - discriminate.
  - intros [= <-]. split; [reflexivity|]. cbn. apply lookup_insert_eq.
Qed.

(** ** What a listener may change *)

Lemma quiet_refl w : quiet w w.
Proof. split; try reflexivity. exists []. now rewrite app_nil_r. Qed.

Lemma quiet_trans w1 w2 w3 : quiet w1 w2 -> quiet w2 w3 -> quiet w1 w3.
Proof.
  intros [] []. split; try congruence.
  destruct q_trace0 as [e1 E1], q_trace1 as [e2 E2]. exists (e1 ++ e2).
  rewrite E2, E1. now rewrite app_assoc.
Qed.

Lemma quiet_cache p c w : quiet w (cache p c w).
Proof. split; try reflexivity. exists []. cbn. now rewrite app_nil_r. Qed.

Lemma quiet_uncache p w : quiet w (uncache p w).
Proof. split; try reflexivity. exists []. cbn. now rewrite app_nil_r. Qed.

Lemma quiet_record a w : quiet w (record_assignment a w).
Proof. split; try reflexivity. exists [a]. reflexivity. Qed.

Lemma wiring_insert_target (l : list Binding) id b v :
  l !! id = Some b ->
  map wiring (<[id := with_target v b]> l) = map wiring l.
Proof.
  revert id. induction l as [|x l IH]; intros [|id] Hl; cbn in *; try discriminate.
  - injection Hl as ->. reflexivity.
  - f_equal. auto.
Qed.

Lemma quiet_set_field id k v w : quiet w (set_field id k v w).
Proof.
  unfold set_field, update_binding.
  destruct (bindings w !! id) as [b|] eqn:E; [|apply quiet_refl].
  split; try reflexivity.
  - cbn. now apply wiring_insert_target.
  - exists []. cbn. now rewrite app_nil_r.
Qed.

Lemma quiet_bind {A B : Type} (m : M A) (k : A -> M B) w :
  (forall w0, quiet w0 (after m w0)) ->
  (forall a w0, quiet w0 (after (k a) w0)) ->
  quiet w (after (bind m k) w).
Proof.
  intros Hm Hk. unfold after, bind. specialize (Hm w). unfold after in Hm.
  destruct (m w) as [[a|e] w1]; cbn in *; [|exact Hm].
  eapply quiet_trans; [exact Hm | apply Hk].
Qed.

Lemma quiet_resolve_changed id k param h values previous index w :
  quiet w (after (resolve_changed id k param h values previous index) w).
Proof.
  revert index w. induction values as [|v rest IH]; intros index w.
  - apply quiet_refl.
  - cbn [resolve_changed]. apply quiet_bind; [|intros; apply IH].
    intros w0. destruct (bool_decide (Some v = previous !! index)); [apply quiet_refl|].
    destruct (evaluate h v param (Some index)); [|apply quiet_refl].
    unfold after. destruct (assign_index (field id k w0) index v0); cbn; [|apply quiet_refl].
    eapply quiet_trans; [apply quiet_set_field | apply quiet_record].
Qed.

Lemma quiet_hydrate_entries id k param hd values doCache w :
  quiet w (after (hydrate_entries id k param hd values doCache) w).
Proof.
  unfold after at 1, hydrate_entries.
  apply quiet_bind; [intros; apply quiet_resolve_changed|]. intros _ w0.
  apply quiet_bind.
  - intros w1. unfold after, splice_field. destruct (splice _ _ _); cbn;
      [apply quiet_set_field | apply quiet_refl].
  - intros _ w1. unfold after, exec; cbn.
    destruct doCache; [apply quiet_cache | apply quiet_refl].
Qed.

Lemma quiet_hydrate_single id k param hd cur doCache w :
  quiet w (after (hydrate_single id k param hd cur doCache) w).
Proof.
  unfold after, hydrate_single.
  destruct (bool_decide _); [apply quiet_refl|].
  destruct (evaluate _ _ _ _); [|apply quiet_refl].
  cbn [snd]. destruct doCache.
  - eapply quiet_trans; [apply quiet_set_field|].
    eapply quiet_trans; [apply quiet_record | apply quiet_cache].
  - eapply quiet_trans; [apply quiet_set_field | apply quiet_record].
Qed.

Lemma quiet_trySetFromURL state id k param h doCache w :
  quiet w (after (trySetFromURL state id k param h doCache) w).
Proof.
  unfold after at 1, trySetFromURL.
  destruct (state !! param) as [current|]; cbn [snd].
  2:{ destruct (isArray _);
        [eapply quiet_trans; [apply quiet_uncache | apply quiet_set_field]
        | apply quiet_uncache]. }
  destruct (match h with Some h0 => Some h0 | None => handlerByParam w !! param end)
    as [hd|]; [|apply quiet_refl].
  destruct current as [cur|values], (supportsMultiple hd);
    first [apply quiet_hydrate_entries | apply quiet_hydrate_single | apply quiet_refl].
Qed.

Lemma quiet_onURLChange_loop state id entries w :
  quiet w (after (onURLChange_loop state id entries) w).
Proof.
  revert w. induction entries as [|[k p] rest IH]; intros w.
  - apply quiet_refl.
  - cbn [onURLChange_loop]. apply quiet_bind; [intros; apply quiet_trySetFromURL|].
    intros _ w0. apply IH.
Qed.

Lemma quiet_onURLChange state id w : quiet w (after (onURLChange state id) w).
Proof.
  unfold after at 1, onURLChange. destruct (bindings w !! id); [|apply quiet_refl].
  apply quiet_onURLChange_loop.
Qed.

Lemma quiet_dispatch state ids w : quiet w (dispatch state ids w).
Proof.
  revert w. induction ids as [|id rest IH]; intros w; cbn [dispatch].
  - apply quiet_refl.
  - eapply quiet_trans; [|apply IH].
    destruct (bindings w !! id) as [b|]; [|apply quiet_refl].
    destruct (listening b); [apply quiet_onURLChange | apply quiet_refl].
Qed.

Lemma quiet_emit w : quiet w (emit w).
Proof. apply quiet_dispatch. Qed.

(** ** Search parameters and snapshots *)

Lemma name_is_true p kv : URLSearchParams.name_is p kv = true <-> fst kv = p.
Proof. unfold URLSearchParams.name_is. apply String.eqb_eq. Qed.

Lemma name_is_false p kv : URLSearchParams.name_is p kv = false <-> fst kv <> p.
Proof. unfold URLSearchParams.name_is. apply String.eqb_neq. Qed.

Lemma getAll_nil p : URLSearchParams.getAll p [] = [].
Proof. reflexivity. Qed.

Lemma getAll_cons p kv u :
  URLSearchParams.getAll p (kv :: u)
  = if URLSearchParams.name_is p kv then snd kv :: URLSearchParams.getAll p u
    else URLSearchParams.getAll p u.
Proof.
  unfold URLSearchParams.getAll. rewrite filter_cons.
  destruct (URLSearchParams.name_is p kv) eqn:E.
  - rewrite decide_True by reflexivity. reflexivity.
  - rewrite decide_False by discriminate. reflexivity.
Qed.

Lemma getAll_app p u1 u2 :
  URLSearchParams.getAll p (u1 ++ u2)
  = URLSearchParams.getAll p u1 ++ URLSearchParams.getAll p u2.
Proof.
  unfold URLSearchParams.getAll. now rewrite filter_app, map_app.
Qed.

Lemma delete_cons p kv u :
  URLSearchParams.delete p (kv :: u)
  = if URLSearchParams.name_is p kv then URLSearchParams.delete p u
    else kv :: URLSearchParams.delete p u.
Proof.
  unfold URLSearchParams.delete. rewrite filter_cons.
  destruct (URLSearchParams.name_is p kv) eqn:E.
  - rewrite decide_False by discriminate. reflexivity.
  - rewrite decide_True by reflexivity. reflexivity.
Qed.

Lemma getAll_delete p q u :
  URLSearchParams.getAll q (URLSearchParams.delete p u)
  = if String.eqb q p then [] else URLSearchParams.getAll q u.
Proof.
  induction u as [|kv u IH].
  - now destruct (String.eqb q p).
  - rewrite delete_cons, getAll_cons.
    destruct (URLSearchParams.name_is p kv) eqn:Ep.
    + rewrite IH. destruct (String.eqb q p) eqn:Eq; [reflexivity|].
      apply name_is_true in Ep. apply String.eqb_neq in Eq.
      destruct (URLSearchParams.name_is q kv) eqn:E2; [|reflexivity].
      apply name_is_true in E2. congruence.
    + rewrite getAll_cons, IH.
      destruct (String.eqb q p) eqn:Eq; [|reflexivity].
      apply String.eqb_eq in Eq. subst q. now rewrite Ep.
Qed.

Lemma getAll_delete_same p u :
  URLSearchParams.getAll p (URLSearchParams.delete p u) = [].
Proof. rewrite getAll_delete. now rewrite String.eqb_refl. Qed.

Lemma getAll_set p q v u :
  URLSearchParams.getAll q (URLSearchParams.set p v u)
  = if String.eqb q p then [v] else URLSearchParams.getAll q u.
Proof.
  induction u as [|kv u IH]; cbn [URLSearchParams.set].
  - rewrite getAll_cons. unfold URLSearchParams.name_is; cbn [fst snd].
    rewrite String.eqb_sym. destruct (String.eqb q p); reflexivity.
  - destruct (URLSearchParams.name_is p kv) eqn:Ep.
    + rewrite getAll_cons, getAll_delete. unfold URLSearchParams.name_is at 1; cbn [fst snd].
      rewrite (String.eqb_sym p q). destruct (String.eqb q p) eqn:Eq; [reflexivity|].
      rewrite getAll_cons. apply name_is_true in Ep. apply String.eqb_neq in Eq.
      destruct (URLSearchParams.name_is q kv) eqn:E2; [|reflexivity].
      apply name_is_true in E2. congruence.
    + rewrite !getAll_cons, IH. destruct (String.eqb q p) eqn:Eq; [|reflexivity].
      apply String.eqb_eq in Eq. subst q. now rewrite Ep.
Qed.

Lemma getAll_append_fold p q values u :
  URLSearchParams.getAll q
    (fold_left (fun u0 v => URLSearchParams.append p v u0) values u)
  = URLSearchParams.getAll q u ++ (if String.eqb q p then values else []).
Proof.
  revert u. induction values as [|v rest IH]; intros u; cbn [fold_left].
  - destruct (String.eqb q p); now rewrite app_nil_r.
  - rewrite IH. unfold URLSearchParams.append. rewrite getAll_app, getAll_cons, getAll_nil.
    unfold URLSearchParams.name_is; cbn [fst snd]. rewrite (String.eqb_sym p q).
    destruct (String.eqb q p); [now rewrite <- app_assoc | now rewrite app_nil_r].
Qed.

(** What [modifySearchParam] leaves under each name. *)
Lemma getAll_modifySearchParam param value q u :
  URLSearchParams.getAll q (modifySearchParam param value u)
  = if String.eqb q param then
      match value with
      | Absent => []
      | One v => [v]
      | Many values => values
      end
    else URLSearchParams.getAll q u.
Proof.
  destruct value as [|v|values]; cbn [modifySearchParam].
  - apply getAll_delete.
  - apply getAll_set.
  - rewrite getAll_append_fold, getAll_delete.
    destruct (String.eqb q param); [reflexivity | now rewrite app_nil_r].
Qed.

Lemma has_getAll p u :
  URLSearchParams.has p u = false <-> URLSearchParams.getAll p u = [].
Proof.
  induction u as [|kv u IH]; cbn [URLSearchParams.has existsb].
  - split; reflexivity.
  - rewrite getAll_cons. destruct (URLSearchParams.name_is p kv); cbn [orb].
    + split; discriminate.
    + exact IH.
Qed.

Lemma getURLState_snoc u kv :
  getURLState (u ++ [kv]) = getURLState_step (getURLState u) kv.
Proof. unfold getURLState. now rewrite fold_left_app. Qed.

Lemma entry_of_snoc_ne values v :
  values <> [] ->
  entry_of (values ++ [v])
  = Some (Repeated (match values with [e] => [e; v] | _ => values ++ [v] end)).
Proof.
  destruct values as [|e [|e' r]]; intros Hne; try congruence; reflexivity.
Qed.

(** A snapshot holds, for every name, the values of that name in order:
    one string when there is one, a list when there are several. *)
Lemma getURLState_lookup u p :
  getURLState u !! p = entry_of (URLSearchParams.getAll p u).
Proof.
  induction u as [|kv u IH] using rev_ind.
  - reflexivity.
  - rewrite getURLState_snoc, getAll_app, getAll_cons, getAll_nil.
    unfold getURLState_step.
    destruct (decide (p = fst kv)) as [->|Hne].
    + replace (URLSearchParams.name_is (fst kv) kv) with true
        by (symmetry; now apply name_is_true).
      rewrite IH.
      destruct (URLSearchParams.getAll (fst kv) u) as [|e [|e' r]]; cbn [entry_of app];
        now rewrite lookup_insert_eq.
    + replace (URLSearchParams.name_is p kv) with false
        by (symmetry; apply name_is_false; congruence).
      rewrite app_nil_r, <- IH.
      destruct (getURLState u !! fst kv) as [[e|l]|];
        now rewrite lookup_insert_ne by congruence.
Qed.

Lemma getURLState_absent u p :
  getURLState u !! p = None <-> URLSearchParams.has p u = false.
Proof.
  rewrite getURLState_lookup, has_getAll.
  destruct (URLSearchParams.getAll p u) as [|e [|e' r]]; cbn; split; congruence.
Qed.

(** ** The cache, the fields and the trace under a listener *)

Lemma cached_set_field id k v p w : cached p (set_field id k v w) = cached p w.
Proof.
  unfold set_field, update_binding. now destruct (bindings w !! id).
Qed.

Lemma cachedByParam_resolve_changed id k param h values previous index w :
  cachedByParam (after (resolve_changed id k param h values previous index) w)
  = cachedByParam w.
Proof.
  revert index w. induction values as [|v rest IH]; intros index w; [reflexivity|].
  cbn [resolve_changed]. unfold after, bind in *.
  destruct (bool_decide (Some v = previous !! index)); cbn.
  - apply IH.
  - destruct (evaluate h v param (Some index)); cbn; [|reflexivity].
    destruct (assign_index (field id k w) index v0); cbn; [|reflexivity].
    rewrite IH. cbn. unfold set_field, update_binding.
    now destruct (bindings w !! id).
Qed.

Lemma cached_hydrate_entries id k param h values doCache p w :
  p <> param ->
  cached p (after (hydrate_entries id k param h values doCache) w) = cached p w.
Proof.
  intros Hne. unfold after, hydrate_entries, bind, cached.
  pose proof (cachedByParam_resolve_changed id k param h values
     (URLSearchParams.getAll param (URLSearchParams.of_init (cachedByParam w !! param))) 0 w) as E.
  unfold after, cached in *.
  destruct (resolve_changed _ _ _ _ _ _ _ w) as [[[]|e] w1]; cbn in *; [|now rewrite E].
  unfold splice_field. destruct (splice _ _ _); cbn; [|now rewrite E].
  unfold set_field, update_binding.
  destruct doCache; destruct (bindings w1 !! id); cbn; rewrite ?E;
    try reflexivity; now rewrite lookup_insert_ne.
Qed.

Lemma cached_hydrate_single id k param h cur doCache p w :
  p <> param ->
  cached p (after (hydrate_single id k param h cur doCache) w) = cached p w.
Proof.
  intros Hne. unfold after, hydrate_single, cached.
  destruct (bool_decide _); [reflexivity|].
  destruct (evaluate _ _ _ _); [|reflexivity].
  unfold set_field, update_binding.
  destruct doCache; destruct (bindings w !! id); cbn;
    try reflexivity; now rewrite lookup_insert_ne.
Qed.

(** A listener step touches the cache of its own parameter only. *)
Lemma cached_trySetFromURL_other state id k param h doCache p w :
  p <> param ->
  cached p (after (trySetFromURL state id k param h doCache) w) = cached p w.
Proof.
  intros Hne. unfold after at 1, trySetFromURL.
  destruct (state !! param) as [current|]; cbn [snd].
  2:{ destruct (isArray _); rewrite ?cached_set_field; unfold cached, uncache; cbn;
        now rewrite lookup_delete_ne. }
  destruct (match h with Some h0 => Some h0 | None => handlerByParam w !! param end)
    as [hd|]; [|reflexivity].
  destruct current as [cur|values], (supportsMultiple hd);
    first [now apply cached_hydrate_entries | now apply cached_hydrate_single | reflexivity].
Qed.

(** When the snapshot lacks the parameter, its cache entry is dropped. *)
Lemma cached_trySetFromURL_absent state id k param h doCache w :
  state !! param = None ->
  cached param (after (trySetFromURL state id k param h doCache) w) = None.
Proof.
  intros Habs. unfold after, trySetFromURL. rewrite Habs. cbn [snd].
  destruct (isArray _); rewrite ?cached_set_field; unfold cached, uncache; cbn;
    apply lookup_delete_eq.
Qed.

Lemma cached_trySetFromURL_stays_none state id k param h doCache p w :
  state !! p = None -> cached p w = None ->
  cached p (after (trySetFromURL state id k param h doCache) w) = None.
Proof.
  intros Habs Hnone. destruct (decide (p = param)) as [->|Hne].
  - now apply cached_trySetFromURL_absent.
  - now rewrite cached_trySetFromURL_other.
Qed.

Lemma cached_onURLChange_loop_stays_none state id entries p w :
  state !! p = None -> cached p w = None ->
  cached p (after (onURLChange_loop state id entries) w) = None.
Proof.
  intros Habs. revert w. induction entries as [|[k q] rest IH]; intros w Hnone; [exact Hnone|].
  cbn [onURLChange_loop]. unfold after, bind.
  pose proof (cached_trySetFromURL_stays_none state id k q None true p w Habs Hnone) as E.
  unfold after in E.
  destruct (trySetFromURL state id k q None true w) as [[[]|e] w1]; cbn in *; [|exact E].
  now apply IH.
Qed.

Lemma cached_dispatch_stays_none state ids p w :
  state !! p = None -> cached p w = None ->
  cached p (dispatch state ids w) = None.
Proof.
  intros Habs. revert w. induction ids as [|id rest IH]; intros w Hnone; [exact Hnone|].
  cbn [dispatch]. apply IH.
  destruct (bindings w !! id) as [b|]; [|exact Hnone].
  destruct (listening b); [|exact Hnone].
  unfold after, onURLChange. destruct (bindings w !! id); [|exact Hnone].
  now apply cached_onURLChange_loop_stays_none.
Qed.

(** After an emit, a parameter that is not in the URL and had no cache
    entry still has none. *)
Lemma cached_emit_stays_none p w :
  URLSearchParams.has p (location w) = false -> cached p w = None ->
  cached p (emit w) = None.
Proof.
  intros Hhas Hnone. apply cached_dispatch_stays_none; [|exact Hnone].
  now apply getURLState_absent.
Qed.

(** ** Reading and writing fields *)

Lemma field_uncache id k p w : field id k (uncache p w) = field id k w.
Proof. reflexivity. Qed.

Lemma field_cache id k p c w : field id k (cache p c w) = field id k w.
Proof. reflexivity. Qed.

Lemma field_record id k a w : field id k (record_assignment a w) = field id k w.
Proof. reflexivity. Qed.

Lemma field_set_field_same id k v w :
  is_Some (bindings w !! id) -> field id k (set_field id k v w) = v.
Proof.
  intros [b Hb]. unfold field, set_field, update_binding. rewrite Hb. cbn.
  rewrite list_lookup_insert_eq by (now apply lookup_lt_Some in Hb).
  cbn. now rewrite lookup_insert_eq.
Qed.

Lemma field_set_field_ne id k v id' k' w :
  (id', k') <> (id, k) -> field id' k' (set_field id k v w) = field id' k' w.
Proof.
  intros Hne. unfold field, set_field, update_binding.
  destruct (bindings w !! id) as [b|] eqn:Hb; [|reflexivity]. cbn.
  destruct (decide (id' = id)) as [->|Hid].
  - rewrite list_lookup_insert_eq by (now apply lookup_lt_Some in Hb).
    rewrite Hb. cbn. rewrite lookup_insert_ne by congruence. reflexivity.
  - now rewrite list_lookup_insert_ne by congruence.
Qed.

Lemma isArray_field_binding id k w :
  isArray (field id k w) = true -> is_Some (bindings w !! id).
Proof.
  unfold field. destruct (bindings w !! id); [eauto | discriminate].
Qed.


(** ** Navigations *)

Lemma setupListener_installed w :
  setupComplete w = true -> setupListener w = (true, w).
Proof. intros H. unfold setupListener. now rewrite H. Qed.

Lemma commit_installed url behavior w :
  setupComplete w = true ->
  commit url behavior w = emit (navigate {| nav_behavior := behavior; nav_url := url |} w).
Proof. intros H. unfold commit. now rewrite setupListener_installed. Qed.

Lemma handlerByParam_commit url behavior w :
  handlerByParam (commit url behavior w) = handlerByParam w.
Proof.
  unfold commit, setupListener.
  destruct (setupComplete w).
  - now rewrite (q_handlers _ _ (quiet_emit _)).
  - destruct (supportsHistory w); cbn [negb]; [|reflexivity].
    now rewrite (q_handlers _ _ (quiet_emit _)).
Qed.

Lemma handlerByParam_update_binding id f w :
  handlerByParam (update_binding id f w) = handlerByParam w.
Proof. unfold update_binding. now destruct (bindings w !! id). Qed.

Lemma quiet_historical_loop id k h state keys pushes replacements w :
  quiet w (after (historical_loop id k h state keys pushes replacements) w).
Proof.
  revert pushes replacements w.
  induction keys as [|pk rest IH]; intros pushes replacements w; [apply quiet_refl|].
  cbn [historical_loop]. apply quiet_bind.
  - intros w0. destruct (default true (pk_apply pk));
      [apply quiet_trySetFromURL | apply quiet_refl].
  - intros _ w0. destruct (default true (pk_remove pk)); [|apply IH].
    destruct (default Replace (pk_behavior pk)); apply IH.
Qed.

Lemma handlerByParam_tryProcessHistoricalKeys id k h state w :
  handlerByParam (after (tryProcessHistoricalKeys id k h state) w) = handlerByParam w.
Proof.
  unfold tryProcessHistoricalKeys. destruct (previousKeys h) as [keys|]; [|reflexivity].
  unfold after, bind.
  pose proof (quiet_historical_loop id k h state keys None None w) as Q.
  unfold after in Q.
  destruct (historical_loop id k h state keys None None w) as [[[pu re]|e] w1];
    cbn in *; [|apply Q].
  destruct pu, re; cbn; unfold batchTrigger; rewrite ?handlerByParam_commit; apply Q.
Qed.


(** ** [globals.delete] *)

Section GlobalsDelete.
Variables (p : string) (w : World).
Hypothesis installed : setupComplete w = true.

Let w3 : World :=
  set_handlerByParam (delete p (handlerByParam w))
    (uncache p (set_debouncer (Debounce.clear p (debouncer w)) w)).

Lemma globals_delete_installed :
  globals_delete p w
  = emit (navigate {| nav_behavior := Replace;
                      nav_url := URLSearchParams.delete p (location w) |} w3).
Proof.
  unfold globals_delete, trigger. fold w3. now rewrite commit_installed.
Qed.

Lemma navigations_globals_delete :
  navigations (globals_delete p w)
  = navigations w ++ [{| nav_behavior := Replace;
                         nav_url := URLSearchParams.delete p (location w) |}].
Proof. rewrite globals_delete_installed. now rewrite (q_navigations _ _ (quiet_emit _)). Qed.

Lemma location_globals_delete :
  location (globals_delete p w) = URLSearchParams.delete p (location w).
Proof. rewrite globals_delete_installed. now rewrite (q_location _ _ (quiet_emit _)). Qed.

Lemma handlerByParam_globals_delete :
  handlerByParam (globals_delete p w) = delete p (handlerByParam w).
Proof. rewrite globals_delete_installed. now rewrite (q_handlers _ _ (quiet_emit _)). Qed.

Lemma debouncer_globals_delete :
  debouncer (globals_delete p w) = Debounce.clear p (debouncer w).
Proof. rewrite globals_delete_installed. now rewrite (q_debouncer _ _ (quiet_emit _)). Qed.

Lemma setupComplete_globals_delete : setupComplete (globals_delete p w) = true.
Proof. rewrite globals_delete_installed. now rewrite (q_setup _ _ (quiet_emit _)). Qed.

Lemma wiring_globals_delete :
  map wiring (bindings (globals_delete p w)) = map wiring (bindings w).
Proof. rewrite globals_delete_installed. now rewrite (q_bindings _ _ (quiet_emit _)). Qed.

(** The deleted name has no cache entry afterwards, and a name that was
    neither in the URL nor cached stays so. *)
Lemma cached_globals_delete q :
  q = p \/ (URLSearchParams.has q (location w) = false /\ cached q w = None) ->
  cached q (globals_delete p w) = None.
Proof.
  intros Hq. rewrite globals_delete_installed. apply cached_emit_stays_none.
  - cbn. apply has_getAll. rewrite getAll_delete.
    destruct (String.eqb q p) eqn:E; [reflexivity|].
    destruct Hq as [->|[Hhas _]]; [now rewrite String.eqb_refl in E|].
    now apply has_getAll.
  - unfold cached. cbn. destruct Hq as [->|[_ Hnone]].
    + apply lookup_delete_eq.
    + destruct (decide (q = p)) as [->|Hne];
        [apply lookup_delete_eq | now rewrite lookup_delete_ne].
Qed.

End GlobalsDelete.

Lemma has_delete_same p u :
  URLSearchParams.has p (URLSearchParams.delete p u) = false.
Proof. apply has_getAll, getAll_delete_same. Qed.

Lemma has_delete_other p q u :
  URLSearchParams.has q u = false ->
  URLSearchParams.has q (URLSearchParams.delete p u) = false.
Proof.
  rewrite !has_getAll, getAll_delete. intros ->. now destruct (String.eqb q p).
Qed.

Lemma callbacks_clear (d : Debounce.t string Update) p :
  Debounce.callbacks (Debounce.clear p d) = delete p (Debounce.callbacks d).
Proof.
  unfold Debounce.clear, Debounce.clearTimeout.
  destruct (Debounce.idleTimers d !! p); cbn;
    destruct (Debounce.maxTimers d !! p); reflexivity.
Qed.

Lemma released_globals_delete_same p w :
  setupComplete w = true -> released p (globals_delete p w).
Proof.
  intros Hs. unfold released.
  rewrite handlerByParam_globals_delete, debouncer_globals_delete,
    location_globals_delete by exact Hs.
  repeat split.
  - apply lookup_delete_eq.
  - apply cached_globals_delete; auto.
  - rewrite callbacks_clear. apply lookup_delete_eq.
  - apply has_delete_same.
Qed.

Lemma released_globals_delete_other p q w :
  setupComplete w = true -> released q w -> released q (globals_delete p w).
Proof.
  intros Hs (Hh & Hc & Hd & Hu). unfold released.
  rewrite handlerByParam_globals_delete, debouncer_globals_delete,
    location_globals_delete by exact Hs.
  repeat split.
  - destruct (decide (q = p)) as [->|Hne];
      [apply lookup_delete_eq | now rewrite lookup_delete_ne].
  - apply cached_globals_delete; auto.
  - rewrite callbacks_clear. destruct (decide (q = p)) as [->|Hne];
      [apply lookup_delete_eq | now rewrite lookup_delete_ne].
  - now apply has_delete_other.
Qed.

(** Deleting a list of names, as [dispose] does for the names it owns:
    one navigation per name, each in replace mode and without the name. *)
Lemma globals_delete_each (ps : list (string * string)) (w : World) :
  setupComplete w = true ->
  let w' := fold_left (fun w0 kp => globals_delete (snd kp) w0) ps w in
  setupComplete w' = true
  /\ (exists navs,
        navigations w' = navigations w ++ navs
        /\ Forall2 (fun n kp => nav_behavior n = Replace
                                /\ URLSearchParams.has (snd kp) (nav_url n) = false)
             navs ps)
  /\ (forall q, released q w \/ q ∈ map snd ps -> released q w').
Proof.
  revert w. induction ps as [|[k p] rest IH]; intros w Hs; cbn [fold_left].
  - split; [exact Hs|]. split.
    + exists []. rewrite app_nil_r. split; [reflexivity | constructor].
    + intros q [Hq|Hq]; [exact Hq | inversion Hq].
  - cbn [snd]. specialize (IH (globals_delete p w) (setupComplete_globals_delete p w Hs)).
    cbv zeta in IH. destruct IH as (Hs' & (navs & Hn & Hf) & Hrel).
    split; [exact Hs'|]. split.
    + exists ({| nav_behavior := Replace;
                 nav_url := URLSearchParams.delete p (location w) |} :: navs).
      split.
      * rewrite Hn, navigations_globals_delete by exact Hs. now rewrite <- app_assoc.
      * constructor; [|exact Hf]. split; [reflexivity | apply has_delete_same].
    + intros q Hq. apply Hrel. cbn [map snd] in Hq.
      destruct Hq as [Hq|Hq].
      * left. now apply released_globals_delete_other.
      * apply elem_of_cons in Hq. destruct Hq as [->|Hq]; [|now right].
        left. now apply released_globals_delete_same.
Qed.


(** ** Legacy keys *)



Lemma gathered_cons acc p g :
  gathered (Some (default [] acc ++ [p])) g = gathered acc (p :: g).
Proof.
  unfold gathered. destruct g; cbn; [reflexivity|]. now rewrite <- app_assoc.
Qed.

Lemma removal_group_cons behavior pk keys :
  removal_group behavior (pk :: keys)
  = (if default true (pk_remove pk)
        && match default Replace (pk_behavior pk), behavior with
           | Push, Push | Replace, Replace => true
           | _, _ => false
           end
     then [validParam (fullname pk)] else [])
    ++ removal_group behavior keys.
Proof.
  unfold removal_group. cbn [List.filter].
  destruct (default true (pk_remove pk) && _); reflexivity.
Qed.

(** The loop reads the snapshot it was given and never navigates; what it
    returns are the two removal groups. *)
Lemma historical_loop_groups id k h state keys pushes replacements w :
  forall g w1,
    historical_loop id k h state keys pushes replacements w = (Ok g, w1) ->
    g = (gathered pushes (removal_group Push keys),
         gathered replacements (removal_group Replace keys)).
Proof.
  revert pushes replacements w.
  induction keys as [|pk rest IH]; intros pushes replacements w g w1.
  - cbn. intros [= <- _]. reflexivity.
  - cbn [historical_loop]. unfold bind at 1.
    match goal with
    | |- context [match ?m w with _ => _ end] => destruct (m w) as [[[]|e] w0]
    end; [|discriminate].
    rewrite !removal_group_cons.
    destruct (default true (pk_remove pk)); cbn [andb].
    + destruct (default Replace (pk_behavior pk)); intros Hl; apply IH in Hl;
        rewrite Hl; cbn [app]; now rewrite gathered_cons.
    + intros Hl; apply IH in Hl. exact Hl.
Qed.



(** ** The query-string form of search parameters *)

Lemma append_cons c (s t : string) : String c s +:+ t = String c (s +:+ t).
Proof. reflexivity. Qed.

Lemma append_nil_l (t : string) : EmptyString +:+ t = t.
Proof. reflexivity. Qed.

Lemma lacks_app c s1 s2 : lacks c s1 -> lacks c s2 -> lacks c (s1 +:+ s2).
Proof.
  induction s1 as [|x r IH]; cbn; [auto|]. intros [Hx Hr] H2. split; auto.
Qed.

Lemma form_safe_plain c :
  URLSearchParams.form_safe c = true ->
  c <> "&"%char /\ c <> "="%char /\ c <> "+"%char /\ c <> "%"%char /\ c <> "?"%char.
Proof.
  destruct c as [[] [] [] [] [] [] [] []]; vm_compute; intros H;
    try discriminate H; repeat split; discriminate.
Qed.

Lemma pct_escape_shape c :
  exists h l, pct_escape c = String "%" (String h (String l EmptyString))
    /\ hex_val h = Some (byte_val c / 16)%N /\ hex_val l = Some (byte_val c mod 16)%N
    /\ h <> "&"%char /\ h <> "="%char /\ l <> "&"%char /\ l <> "="%char.
Proof.
  destruct c as [[] [] [] [] [] [] [] []];
    (do 2 eexists; split; [vm_compute; reflexivity|];
     repeat split; solve [vm_compute; reflexivity | discriminate]).
Qed.

Lemma ascii_of_hex_parts c :
  ascii_of_N (16 * (byte_val c / 16) + byte_val c mod 16) = c.
Proof.
  unfold byte_val. rewrite <- N.div_mod by discriminate. apply ascii_N_embedding.
Qed.

Lemma form_encode_lacks s :
  lacks "&" (URLSearchParams.form_encode s) /\ lacks "=" (URLSearchParams.form_encode s).
Proof.
  induction s as [|c r [IH1 IH2]]; cbn [URLSearchParams.form_encode]; [split; exact I|].
  destruct (URLSearchParams.form_safe c) eqn:Es.
  - apply form_safe_plain in Es. destruct Es as (? & ? & _). cbn. repeat split; auto.
  - destruct (Ascii.eqb c " ").
    + cbn. repeat split; auto; discriminate.
    + destruct (pct_escape_shape c) as (h & l & -> & _ & _ & ? & ? & ? & ?).
      cbn. repeat split; auto; discriminate.
Qed.

Lemma form_decode_pct h l r a b :
  hex_val h = Some a -> hex_val l = Some b ->
  URLSearchParams.form_decode (String "%" (String h (String l r)))
  = String (ascii_of_N (16 * a + b)) (URLSearchParams.form_decode r).
Proof.
  intros Ha Hb. cbn [URLSearchParams.form_decode].
  change (Ascii.eqb "%" "+") with false. change (Ascii.eqb "%" "%") with true.
  cbv iota. rewrite Ha, Hb. reflexivity.
Qed.

Lemma form_decode_encode s :
  URLSearchParams.form_decode (URLSearchParams.form_encode s) = s.
Proof.
  induction s as [|c r IH]; [reflexivity|]. cbn [URLSearchParams.form_encode].
  destruct (URLSearchParams.form_safe c) eqn:Es.
  - apply form_safe_plain in Es. destruct Es as (_ & _ & Hp & Hq & _).
    cbn [URLSearchParams.form_decode].
    rewrite (proj2 (Ascii.eqb_neq c "+") Hp), (proj2 (Ascii.eqb_neq c "%") Hq).
    now rewrite IH.
  - destruct (Ascii.eqb c " ") eqn:Esp.
    + apply Ascii.eqb_eq in Esp. subst c. cbn. now rewrite IH.
    + destruct (pct_escape_shape c) as (h & l & -> & Hh & Hl & _).
      rewrite !append_cons, append_nil_l.
      rewrite (form_decode_pct _ _ _ _ _ Hh Hl), IH. now rewrite ascii_of_hex_parts.
Qed.

Lemma split_at_lacks c s rest :
  lacks c s -> URLSearchParams.split_at c (s +:+ String c rest) = (s, Some rest).
Proof.
  induction s as [|x r IH].
  - intros _. rewrite append_nil_l. cbn [URLSearchParams.split_at]. now rewrite Ascii.eqb_refl.
  - intros [Hx Hr]. rewrite append_cons. cbn [URLSearchParams.split_at].
    rewrite (proj2 (Ascii.eqb_neq x c) Hx). now rewrite IH.
Qed.

Lemma parse_pair_toString kv :
  URLSearchParams.parse_pair (URLSearchParams.pair_toString kv) = kv.
Proof.
  destruct kv as [k v]. unfold URLSearchParams.parse_pair, URLSearchParams.pair_toString. cbn [fst snd].
  change ("=" +:+ URLSearchParams.form_encode v) with (String "=" (URLSearchParams.form_encode v)).
  rewrite (split_at_lacks "=" _ _ (proj2 (form_encode_lacks k))).
  cbn. now rewrite !form_decode_encode.
Qed.

Lemma append_assoc (a b c : string) : (a +:+ b) +:+ c = a +:+ (b +:+ c).
Proof.
  induction a as [|x a IH]; [reflexivity|]. rewrite !append_cons. now rewrite IH.
Qed.

Lemma append_nil_r (a : string) : a +:+ EmptyString = a.
Proof.
  induction a as [|x a IH]; [reflexivity|]. rewrite append_cons. now rewrite IH.
Qed.

Lemma split_all_lacks c s cur rest :
  lacks c s ->
  URLSearchParams.split_all c (s +:+ rest) cur = URLSearchParams.split_all c rest (cur +:+ s).
Proof.
  revert cur. induction s as [|x r IH]; intros cur.
  - intros _. now rewrite append_nil_l, append_nil_r.
  - intros [Hx Hr]. rewrite append_cons. cbn [URLSearchParams.split_all].
    rewrite (proj2 (Ascii.eqb_neq x c) Hx), IH by exact Hr.
    now rewrite append_assoc.
Qed.

Lemma split_all_join pieces :
  Forall (lacks "&") pieces -> pieces <> [] ->
  URLSearchParams.split_all "&" (URLSearchParams.join_amp pieces) EmptyString = pieces.
Proof.
  intros Hall Hne. induction Hall as [|x rest Hx Hrest IH]; [congruence|].
  destruct rest as [|y rest'].
  - cbn [URLSearchParams.join_amp]. rewrite <- (append_nil_r x) at 1.
    rewrite split_all_lacks by exact Hx. reflexivity.
  - cbn [URLSearchParams.join_amp]. rewrite split_all_lacks by exact Hx.
    rewrite append_cons, append_nil_l. cbn [URLSearchParams.split_all].
    change (Ascii.eqb "&" "&") with true.
    cbv iota. f_equal. apply IH. discriminate.
Qed.

Lemma pair_toString_lacks kv : lacks "&" (URLSearchParams.pair_toString kv).
Proof.
  unfold URLSearchParams.pair_toString. apply lacks_app; [apply (form_encode_lacks (fst kv))|].
  rewrite append_cons, append_nil_l.
  split; [discriminate | apply (form_encode_lacks (snd kv))].
Qed.

Lemma pair_toString_nonempty kv :
  URLSearchParams.is_empty (URLSearchParams.pair_toString kv) = false.
Proof.
  unfold URLSearchParams.pair_toString. destruct (URLSearchParams.form_encode (fst kv)); reflexivity.
Qed.

(** Reading back what [URLSearchParams.toString] wrote gives the pairs that were written. *)
Lemma parse_toString (u : list (string * string)) :
  URLSearchParams.parse (URLSearchParams.toString u) = u.
Proof.
  unfold URLSearchParams.parse, URLSearchParams.toString. destruct u as [|kv u]; [reflexivity|].
  rewrite split_all_join.
  - induction (kv :: u) as [|x l IH]; [reflexivity|].
    cbn [map]. rewrite filter_cons, decide_True by apply pair_toString_nonempty.
    cbn [map]. now rewrite parse_pair_toString, IH.
  - induction (kv :: u); constructor; auto using pair_toString_lacks.
  - discriminate.
Qed.

Lemma form_encode_no_question s :
  match URLSearchParams.form_encode s with String c _ => c <> "?"%char | EmptyString => True end.
Proof.
  destruct s as [|c r]; [exact I|]. cbn [URLSearchParams.form_encode].
  destruct (URLSearchParams.form_safe c) eqn:Es; [apply form_safe_plain in Es; apply Es|].
  destruct (Ascii.eqb c " "); [discriminate|].
  destruct (pct_escape_shape c) as (h & l & -> & _). discriminate.
Qed.

Lemma of_init_toString (u : list (string * string)) :
  URLSearchParams.of_init (Some (URLSearchParams.toString u)) = u.
Proof.
  unfold URLSearchParams.of_init.
  destruct (URLSearchParams.toString u) as [|c r] eqn:E; [now rewrite <- E, parse_toString|].
  assert (Hc : c <> "?"%char).
  { destruct u as [|[k v] u]; [discriminate|].
    unfold URLSearchParams.toString in E. cbn [map] in E.
    assert (E' : exists t, URLSearchParams.pair_toString (k, v) +:+ t = String c r).
    { destruct (map URLSearchParams.pair_toString u); [exists EmptyString; now rewrite append_nil_r|].
      cbn [URLSearchParams.join_amp] in E. eauto. }
    destruct E' as [t E']. unfold URLSearchParams.pair_toString in E'. cbn [fst snd] in E'.
    pose proof (form_encode_no_question k) as Hq.
    destruct (URLSearchParams.form_encode k); cbn in E'.
    - injection E' as <- _. discriminate.
    - injection E' as <- _. exact Hq. }
  destruct c as [[] [] [] [] [] [] [] []]; try (now rewrite <- E, parse_toString).
  congruence.
Qed.

(** The cache string of a parameter holds its values, in order. *)
Lemma getAll_cachify param values :
  URLSearchParams.getAll param (URLSearchParams.of_init (Some (cachify param values))) = values.
Proof.
  unfold cachify. rewrite of_init_toString.
  induction values as [|v rest IH]; [reflexivity|].
  cbn [map]. rewrite getAll_cons. unfold URLSearchParams.name_is. cbn [fst snd].
  now rewrite String.eqb_refl, IH.
Qed.

(** ** Which field a listener step may assign *)

Lemma touches_refl id k w : touches id k w w.
Proof.
  split; [reflexivity|]. exists []. rewrite app_nil_r. split; [reflexivity|constructor].
Qed.

Lemma touches_trans id k w1 w2 w3 :
  touches id k w1 w2 -> touches id k w2 w3 -> touches id k w1 w3.
Proof.
  intros [F1 (e1 & E1 & A1)] [F2 (e2 & E2 & A2)]. split.
  - intros id' k' Hne. rewrite F2, F1; auto.
  - exists (e1 ++ e2). rewrite E2, E1, app_assoc. split; [reflexivity|].
    now apply Forall_app.
Qed.

Lemma touches_set_field id k v w : touches id k w (set_field id k v w).
Proof.
  split.
  - intros id' k' Hne. now apply field_set_field_ne.
  - exists []. rewrite app_nil_r. split; [|constructor].
    unfold set_field, update_binding. now destruct (bindings w !! id).
Qed.

Lemma touches_record id k index v w :
  touches id k w
    (record_assignment
       {| as_binding := id; as_field := k; as_index := index; as_value := v |} w).
Proof.
  split; [reflexivity|]. eexists. split; [reflexivity|]. constructor; [|constructor].
  split; reflexivity.
Qed.

Lemma touches_cache id k p c w : touches id k w (cache p c w).
Proof.
  split; [reflexivity|]. exists []. cbn. rewrite app_nil_r. split; [reflexivity|constructor].
Qed.

Lemma touches_uncache id k p w : touches id k w (uncache p w).
Proof.
  split; [reflexivity|]. exists []. cbn. rewrite app_nil_r. split; [reflexivity|constructor].
Qed.

Lemma touches_bind {A B : Type} id k (m : M A) (f : A -> M B) w :
  (forall w0, touches id k w0 (after m w0)) ->
  (forall a w0, touches id k w0 (after (f a) w0)) ->
  touches id k w (after (bind m f) w).
Proof.
  intros Hm Hf. unfold after, bind. specialize (Hm w). unfold after in Hm.
  destruct (m w) as [[a|e] w1]; cbn in *; [|exact Hm].
  eapply touches_trans; [exact Hm | apply Hf].
Qed.

Lemma touches_resolve_changed id k param h values previous index w :
  touches id k w (after (resolve_changed id k param h values previous index) w).
Proof.
  revert index w. induction values as [|v rest IH]; intros index w.
  - apply touches_refl.
  - cbn [resolve_changed]. apply touches_bind; [|intros; apply IH].
    intros w0. destruct (bool_decide (Some v = previous !! index)); [apply touches_refl|].
    destruct (evaluate h v param (Some index)); [|apply touches_refl].
    unfold after. destruct (assign_index (field id k w0) index v0); cbn;
      [|apply touches_refl].
    eapply touches_trans; [apply touches_set_field | apply touches_record].
Qed.

Lemma touches_hydrate_entries id k param h values doCache w :
  touches id k w (after (hydrate_entries id k param h values doCache) w).
Proof.
  unfold after at 1, hydrate_entries.
  apply touches_bind; [intros; apply touches_resolve_changed|]. intros _ w0.
  apply touches_bind.
  - intros w1. unfold after, splice_field. destruct (splice _ _ _); cbn;
      [apply touches_set_field | apply touches_refl].
  - intros _ w1. unfold after, exec; cbn.
    destruct doCache; [apply touches_cache | apply touches_refl].
Qed.

Lemma touches_hydrate_single id k param h cur doCache w :
  touches id k w (after (hydrate_single id k param h cur doCache) w).
Proof.
  unfold after, hydrate_single.
  destruct (bool_decide _); [apply touches_refl|].
  destruct (evaluate _ _ _ _); [|apply touches_refl].
  cbn [snd]. destruct doCache.
  - eapply touches_trans; [apply touches_set_field|].
    eapply touches_trans; [apply touches_record | apply touches_cache].
  - eapply touches_trans; [apply touches_set_field | apply touches_record].
Qed.

(** A listener step for field [k] of binding [id] assigns no other field. *)
Lemma touches_trySetFromURL state id k param h doCache w :
  touches id k w (after (trySetFromURL state id k param h doCache) w).
Proof.
  unfold after at 1, trySetFromURL.
  destruct (state !! param) as [current|]; cbn [snd].
  2:{ destruct (isArray _);
        [eapply touches_trans; [apply touches_uncache | apply touches_set_field]
        | apply touches_uncache]. }
  destruct (match h with Some h0 => Some h0 | None => handlerByParam w !! param end)
    as [hd|]; [|apply touches_refl].
  destruct current as [cur|values], (supportsMultiple hd);
    first [apply touches_hydrate_entries | apply touches_hydrate_single
          | apply touches_refl].
Qed.

(** ** Writing a value the cache already holds *)

Lemma cache_same p c w : cached p w = Some c -> cache p c w = w.
Proof.
  intros H. unfold cache, set_cachedByParam. unfold cached in H.
  rewrite insert_id by exact H. now destruct w.
Qed.

Lemma set_field_same id k v w :
  field id k w = v -> v <> Undefined -> set_field id k v w = w.
Proof.
  unfold field, set_field, update_binding.
  destruct (bindings w !! id) as [b|] eqn:Hb; [|reflexivity].
  intros Hf Hv. destruct (target b !! k) as [x|] eqn:Hk; cbn in Hf; [|congruence].
  subst x. rewrite insert_id by exact Hk.
  replace (with_target (target b) b) with b by (now destruct b).
  rewrite list_insert_id by exact Hb. now destruct w.
Qed.

Lemma resolve_changed_same id k param h values previous index w :
  (forall i v, values !! i = Some v -> previous !! (index + i)%nat = Some v) ->
  resolve_changed id k param h values previous index w = (Ok tt, w).
Proof.
  revert index. induction values as [|v rest IH]; intros index Hsame; [reflexivity|].
  cbn [resolve_changed]. unfold bind.
  rewrite bool_decide_eq_true_2.
  2:{ symmetry. specialize (Hsame 0%nat v eq_refl). now rewrite Nat.add_0_r in Hsame. }
  cbn. apply IH. intros i x Hi. specialize (Hsame (S i) x Hi).
  now rewrite Nat.add_succ_r in Hsame.
Qed.

Lemma splice_nothing l n : splice (Arr l) n 0 = Ok (Arr l).
Proof.
  unfold splice. cbn [Z.to_nat]. rewrite Nat.add_0_r. now rewrite take_drop.
Qed.

Lemma hydrate_entries_same id k param h values w :
  cached param w = Some (cachify param values) ->
  snd (hydrate_entries id k param h values true w) = w.
Proof.
  intros Hc. unfold hydrate_entries. rewrite Hc, getAll_cachify.
  unfold bind. rewrite resolve_changed_same by (intros i v Hi; exact Hi).
  rewrite Z.sub_diag. unfold splice_field.
  destruct (field id k w) as [| | | | |l|] eqn:Hf; try reflexivity.
  rewrite splice_nothing. cbn.
  rewrite set_field_same by (auto; discriminate). now apply cache_same.
Qed.

(** The listener finds the snapshot equal to the cache and changes
    nothing at all, whatever handler the registry holds, and also when the
    step throws. *)
Lemma trySetFromURL_own_write state id k param values w :
  values <> [] ->
  state !! param = entry_of values ->
  cached param w = Some (cachify param values) ->
  snd (trySetFromURL state id k param None true w) = w.
Proof.
  intros Hne Hst Hc. unfold trySetFromURL. rewrite Hst.
  destruct values as [|v [|v' rest]]; [congruence| |]; cbn [entry_of].
  - destruct (handlerByParam w !! param) as [h|]; [|reflexivity].
    destruct (supportsMultiple h).
    + now apply hydrate_entries_same.
    + unfold hydrate_single. unfold URLSearchParams.get. rewrite Hc, getAll_cachify.
      cbn [head]. now rewrite bool_decide_eq_true_2.
  - destruct (handlerByParam w !! param) as [h|]; [|reflexivity].
    destruct (supportsMultiple h); [|reflexivity].
    now apply hydrate_entries_same.
Qed.

(** ** The listeners after an own write *)

Section OwnWrite.
Variables (id : nat) (k param : string) (values : list string).
Variables (state : gmap string Entry) (w0 : World).
Hypothesis state_param : state !! param = entry_of values.
Hypothesis empty_field :
  values = [] -> isArray (field id k w0) = true -> field id k w0 = Arr [].

Lemma own_write_inv_step id' k' p' w :
  (id' = id -> k' = k -> p' = param) ->
  own_write_inv id k param values w0 w ->
  own_write_inv id k param values w0 (after (trySetFromURL state id' k' p' None true) w).
Proof.
  intros Hname [Hc Hf (extra & He & Ht)].
  destruct (decide (p' = param)) as [->|Hp].
  - destruct values as [|v rest] eqn:Ev.
    + (* the parameter left the URL: the absent branch *)
      unfold after, trySetFromURL. rewrite state_param. cbn [entry_of snd].
      rewrite field_uncache. split; [congruence| |].
      * destruct (decide ((id', k') = (id, k))) as [[= -> ->]|Hne].
        -- destruct (isArray (field id k w)) eqn:Harr; [|exact Hf].
           rewrite field_set_field_same by (eapply isArray_field_binding; eauto).
           rewrite Hf in Harr. symmetry. now apply empty_field.
        -- destruct (isArray (field id' k' w)); [|exact Hf].
           rewrite field_set_field_ne by congruence. exact Hf.
      * exists extra. split; [|exact Ht].
        destruct (isArray (field id' k' w)); [|exact He].
        unfold set_field, update_binding. now destruct (bindings _ !! id').
    + rewrite <- Ev in *. unfold after.
      rewrite (trySetFromURL_own_write state id' k' param values w);
        [split; eauto | congruence | exact state_param | apply Hc; congruence].
  - assert (Hne : (id, k) <> (id', k')).
    { intros [= -> ->]. now apply Hp, Hname. }
    destruct (touches_trySetFromURL state id' k' p' None true w)
      as [Hfield (extra' & He' & Ht')].
    split.
    + intros Hv. rewrite cached_trySetFromURL_other by congruence. now apply Hc.
    + rewrite Hfield by exact Hne. exact Hf.
    + exists (extra ++ extra'). rewrite He', He, app_assoc. split; [reflexivity|].
      apply Forall_app. split; [exact Ht|].
      eapply Forall_impl; [exact Ht'|]. cbn. intros a [-> ->]. congruence.
Qed.

Lemma own_write_inv_loop id' entries w :
  (id' = id -> forall p, (k, p) ∈ entries -> p = param) ->
  own_write_inv id k param values w0 w ->
  own_write_inv id k param values w0 (after (onURLChange_loop state id' entries) w).
Proof.
  revert w. induction entries as [|[k' p'] rest IH]; intros w Hnames Hinv; [exact Hinv|].
  cbn [onURLChange_loop]. unfold after, bind.
  pose proof (own_write_inv_step id' k' p' w) as Hstep. unfold after in Hstep.
  destruct (trySetFromURL state id' k' p' None true w) as [[[]|e] w1]; cbn in *.
  - apply IH.
    + intros -> p Hin. apply Hnames; [reflexivity | now right].
    + apply Hstep; [|exact Hinv]. intros -> ->. apply Hnames; [reflexivity | now left].
  - apply Hstep; [|exact Hinv]. intros -> ->. apply Hnames; [reflexivity | now left].
Qed.

Lemma named_only_wiring w w' :
  map wiring (bindings w') = map wiring (bindings w) ->
  named_only id k param w -> named_only id k param w'.
Proof.
  intros Hw Hn b' p Hb' Hin.
  assert (Hl : map wiring (bindings w') !! id = Some (wiring b'))
    by (now rewrite list_lookup_fmap, Hb').
  rewrite Hw, list_lookup_fmap in Hl.
  destruct (bindings w !! id) as [b|] eqn:Hb; [|discriminate].
  assert (Hp : paramByKey b = paramByKey b').
  { cbn in Hl. change (paramByKey (wiring b) = paramByKey (wiring b')).
    f_equal. congruence. }
  apply (Hn b p Hb). now rewrite Hp.
Qed.

Lemma own_write_inv_dispatch ids w :
  named_only id k param w ->
  own_write_inv id k param values w0 w ->
  own_write_inv id k param values w0 (dispatch state ids w).
Proof.
  revert w. induction ids as [|id' rest IH]; intros w Hn Hinv; [exact Hinv|].
  cbn [dispatch].
  destruct (bindings w !! id') as [b|] eqn:Hb; [|now apply IH].
  destruct (listening b); [|now apply IH].
  apply IH.
  - eapply named_only_wiring; [|exact Hn]. apply (q_bindings _ _ (quiet_onURLChange _ _ _)).
  - unfold after, onURLChange. rewrite Hb.
    apply own_write_inv_loop; [|exact Hinv].
    intros -> p Hin. now apply (Hn b p).
Qed.

End OwnWrite.

(** ** A write and the notification it causes *)

Lemma parameterize_cases f h :
  (exists s, parameterize f h = One s)
  \/ (exists elems, f = Arr elems
        /\ parameterize f h = Many (map (fun e => encode h (serialize h e)) elems)).
Proof.
  unfold parameterize, serialize_value, encode_value.
  destruct (entries h) eqn:E; destruct f; eauto.
  right. eexists. split; [reflexivity|]. now rewrite map_map.
Qed.

Lemma parameterize_written_empty f h :
  written (parameterize f h) = [] -> isArray f = true -> f = Arr [].
Proof.
  destruct (parameterize_cases f h) as [[s ->]|(elems & -> & ->)]; [discriminate|].
  cbn. destruct elems; [reflexivity | discriminate].
Qed.

Lemma parameterize_not_absent f h : parameterize f h <> Absent.
Proof.
  destruct (parameterize_cases f h) as [[s ->]|(elems & -> & ->)]; discriminate.
Qed.

Lemma cachify_value_written param value :
  value <> Absent -> cachify_value param value = cachify param (written value).
Proof. destruct value; [congruence | reflexivity | reflexivity]. Qed.

Lemma state_after_write param value u :
  getURLState (modifySearchParam param value u) !! param = entry_of (written value).
Proof.
  rewrite getURLState_lookup, getAll_modifySearchParam, String.eqb_refl.
  now destruct value.
Qed.

(** [update] writes the parameterized field, with or without the
    serialized value that the effect passes. *)
Lemma update_value u serialized w :
  serialized = None
  \/ serialized = Some (serialize_value (field (u_binding u) (u_field u) w) (u_handler u)) ->
  update u serialized w
  = trySetURLParam (u_param u)
      (parameterize (field (u_binding u) (u_field u) w) (u_handler u))
      (history (u_handler u)) w.
Proof.
  intros [->| ->]; unfold update; [reflexivity|].
  now destruct (truthy _).
Qed.

(** What the listeners leave of a write: the invariant holds of the state
    in which [trySetURLParam] returns. *)
Lemma trySetURLParam_own_write id k param value behavior w :
  value <> Absent ->
  named_only id k param w ->
  (written value = [] -> isArray (field id k w) = true -> field id k w = Arr []) ->
  (written value <> [] ->
   cached param (trySetURLParam param value behavior w)
   = Some (cachify_value param value))
  /\ field id k (trySetURLParam param value behavior w) = field id k w
  /\ exists extra,
       assignments (trySetURLParam param value behavior w) = assignments w ++ extra
       /\ Forall (fun a => (as_binding a, as_field a) <> (id, k)) extra.
Proof.
  intros Hv Hn Hempty. unfold trySetURLParam.
  set (c := cachify_value param value).
  destruct (bool_decide (cached param w = Some c)) eqn:Ec.
  { apply bool_decide_eq_true in Ec. split; [auto|]. split; [reflexivity|].
    exists []. rewrite app_nil_r. split; [reflexivity | constructor]. }
  clear Ec. unfold trigger, commit, setupListener.
  set (url := modifySearchParam param value (location (cache param c w))).
  assert (Hrun : forall w2,
            cachedByParam w2 = <[param := c]> (cachedByParam w) ->
            bindings w2 = bindings w -> assignments w2 = assignments w ->
            location w2 = url ->
            let w' := emit w2 in
            (written value <> [] -> cached param w' = Some c)
            /\ field id k w' = field id k w
            /\ exists extra,
                 assignments w' = assignments w ++ extra
                 /\ Forall (fun a => (as_binding a, as_field a) <> (id, k)) extra).
  { intros w2 Hc2 Hb2 Ha2 Hl2 w'. subst w'. unfold emit.
    assert (Hf2 : field id k w2 = field id k w) by (unfold field; now rewrite Hb2).
    destruct (own_write_inv_dispatch id k param (written value)
                (getURLState (location w2)) w2) with
      (ids := seq 0 (length (bindings w2))) (w := w2) as [Hc Hf Ht].
    - rewrite Hl2. apply state_after_write.
    - rewrite Hf2. exact Hempty.
    - intros b p Hb. apply Hn. now rewrite <- Hb2.
    - split.
      + intros _. unfold cached. rewrite Hc2, lookup_insert_eq.
        subst c. now rewrite cachify_value_written.
      + reflexivity.
      + exists []. rewrite app_nil_r. split; [reflexivity | constructor].
    - split; [|split].
      + intros Hw. rewrite Hc by exact Hw. subst c. now rewrite cachify_value_written.
      + now rewrite Hf.
      + destruct Ht as (extra & He & Hall). exists extra. now rewrite He, Ha2. }
  destruct (setupComplete (cache param c w)) eqn:Es.
  - apply Hrun; reflexivity.
  - destruct (supportsHistory (cache param c w)); cbn [negb].
    + apply Hrun; reflexivity.
    + split; [|split].
      * intros _. unfold cached. cbn. apply lookup_insert_eq.
      * reflexivity.
      * exists []. rewrite app_nil_r. split; [reflexivity | constructor].
Qed.

(** X9.  Writing the same value again makes no navigation, provided the value
    leaves the parameter in the URL: the second call finds its query
    string in the cache and returns the state unchanged. *)
Lemma repeated_write_is_suppressed param value behavior behavior' w :
  value <> Absent -> written value <> [] ->
  trySetURLParam param value behavior' (trySetURLParam param value behavior w)
  = trySetURLParam param value behavior w.
Proof.
  intros Hv Hw.
  destruct (trySetURLParam_own_write (length (bindings w)) EmptyString param value
              behavior w) as (Hc & _).
  - exact Hv.
  - intros b p Hb. apply lookup_lt_Some in Hb. lia.
  - unfold field. rewrite lookup_ge_None_2 by lia. discriminate.
  - unfold trySetURLParam at 1. now rewrite bool_decide_eq_true_2 by auto.
Qed.

Lemma repeated_write_witness :
  One "7" <> Absent
  /\ written (One "7") <> []
  /\ trySetURLParam "a_x" (One "7") Replace (trySetURLParam "a_x" (One "7") Push xy_world)
     = trySetURLParam "a_x" (One "7") Push xy_world.
Proof.
  assert (H1 : One "7" <> Absent) by discriminate.
  assert (H2 : written (One "7") <> []) by discriminate.
  split; [exact H1|]. split; [exact H2|].
  exact (repeated_write_is_suppressed "a_x" (One "7") Push Replace xy_world H1 H2).
Defined.


(** ** Decimal digits *)

Lemma byte_val_ascii_of_N n : (n < 256)%N -> byte_val (ascii_of_N n) = n.
Proof. intros H. unfold byte_val. now apply N_ascii_embedding. Qed.

Lemma digit_char m :
  (m < 10)%N ->
  is_digit (ascii_of_N (48 + m)) = true
  /\ (byte_val (ascii_of_N (48 + m)) - 48 = m)%N.
Proof.
  intros Hm. unfold is_digit, in_range. rewrite byte_val_ascii_of_N by lia.
  split; [|lia]. apply andb_true_iff. split; apply N.leb_le; lia.
Qed.

Lemma digit_char_zero m :
  (m < 10)%N -> (ascii_of_N (48 + m) = "0"%char <-> m = 0%N).
Proof.
  intros Hm. split.
  - intros H. apply (f_equal byte_val) in H. rewrite byte_val_ascii_of_N in H by lia.
    change (byte_val "0") with 48%N in H. lia.
  - intros ->. reflexivity.
Qed.

Lemma read_digits_digit m rest a :
  (m < 10)%N ->
  read_digits (String (ascii_of_N (48 + m)) rest) a = read_digits rest (10 * a + m)%N.
Proof.
  intros Hm. cbn [read_digits]. destruct (digit_char m Hm) as [-> ->]. reflexivity.
Qed.

(** The digits of [n] are written in front of [acc]; read back after [a],
    they continue the number [a]. *)
Lemma digits_of_spec fuel :
  forall n acc, (n < 10 ^ N.of_nat (S fuel))%N ->
    exists c s k,
      digits_of fuel n acc = String c s
      /\ is_digit c = true
      /\ (c = "0"%char <-> n = 0%N)
      /\ (n = 0%N -> s = acc)
      /\ forall a, read_digits (String c s) a = read_digits acc (a * 10 ^ k + n)%N.
Proof.
  induction fuel as [|fuel IH]; intros n acc Hn.
  - change (10 ^ N.of_nat 1)%N with 10%N in Hn. cbn [digits_of].
    rewrite N.mod_small by exact Hn.
    exists (ascii_of_N (48 + n)), acc, 1%N.
    split; [reflexivity|]. split; [apply digit_char; exact Hn|].
    split; [apply digit_char_zero; exact Hn|]. split; [reflexivity|].
    intros a. rewrite read_digits_digit by exact Hn. f_equal. lia.
  - cbn [digits_of]. destruct (n <? 10)%N eqn:E.
    + apply N.ltb_lt in E. rewrite N.mod_small by exact E.
      exists (ascii_of_N (48 + n)), acc, 1%N.
      split; [reflexivity|]. split; [apply digit_char; exact E|].
      split; [apply digit_char_zero; exact E|]. split; [reflexivity|].
      intros a. rewrite read_digits_digit by exact E. f_equal. lia.
    + apply N.ltb_ge in E.
      assert (Hd : (n / 10 < 10 ^ N.of_nat (S fuel))%N).
      { apply N.Div0.div_lt_upper_bound.
        replace (N.of_nat (S (S fuel))) with (N.succ (N.of_nat (S fuel))) in Hn by lia.
        rewrite N.pow_succ_r' in Hn. exact Hn. }
      destruct (IH (n / 10)%N (String (ascii_of_N (48 + n mod 10)) acc) Hd)
        as (c & s & k & -> & Hc & Hz & _ & Hr).
      exists c, s, (k + 1)%N.
      split; [reflexivity|]. split; [exact Hc|].
      assert (Hq : (0 < n / 10)%N) by (apply N.div_str_pos; lia).
      split.
      { split; [intros H0; apply Hz in H0; rewrite H0 in Hq; now apply N.lt_irrefl in Hq
               | intros H0; exfalso; clear - E H0; lia]. }
      split; [intros H0; exfalso; clear - E H0; lia|].
      intros a. rewrite Hr, read_digits_digit by (apply N.mod_lt; lia).
      f_equal. rewrite N.pow_add_r, N.pow_1_r.
      pose proof (N.div_mod n 10 ltac:(discriminate)) as D.
      remember (n / 10)%N as q. remember (n mod 10)%N as r.
      rewrite D. ring.
Qed.

Lemma digits_of_app fuel n acc rest :
  digits_of fuel n acc +:+ rest = digits_of fuel n (acc +:+ rest).
Proof.
  revert n acc. induction fuel as [|fuel IH]; intros n acc; cbn [digits_of].
  - reflexivity.
  - destruct (n <? 10)%N; [reflexivity|]. now rewrite IH.
Qed.

Lemma N_to_string_fuel n : (n < 10 ^ N.of_nat (S (N.to_nat (N.log2 n))))%N.
Proof.
  replace (N.of_nat (S (N.to_nat (N.log2 n)))) with (N.succ (N.log2 n)) by lia.
  destruct (N.eq_dec n 0%N) as [->|Hn]; [reflexivity|].
  apply N.lt_le_trans with (2 ^ N.succ (N.log2 n))%N.
  - apply N.log2_spec. lia.
  - apply N.pow_le_mono_l. lia.
Qed.

Lemma digit_not_minus c : is_digit c = true -> Ascii.eqb c "-" = false.
Proof.
  destruct c as [[] [] [] [] [] [] [] []]; vm_compute; congruence.
Qed.


(** ** Doubles: rounding a number that is a double *)

Lemma same_number_eq a b : same_number a b = true -> a = b.
Proof.
  destruct a as [ | | |x|s m e], b as [ | | |y|s' m' e']; cbn; try discriminate; try reflexivity.
  - intros E. apply Z.eqb_eq in E. now subst.
  - intros E. apply andb_true_iff in E as [E E3]. apply andb_true_iff in E as [E1 E2].
    apply Bool.eqb_prop in E1. apply Pos.eqb_eq in E2, E3. now subst.
Qed.

Lemma floor_log2_le p q :
  0 < p -> 0 < q ->
  (0 <= floor_log2 p q -> 2 ^ floor_log2 p q * q <= p)
  /\ (floor_log2 p q < 0 -> q <= p * 2 ^ (- floor_log2 p q)).
Proof.
  intros Hp Hq. unfold floor_log2. destruct (Z.leb_spec q p) as [Hle|Hlt].
  - assert (Hd : 0 < p / q) by (apply Z.div_str_pos; lia).
    split; [intros _ | pose proof (Z.log2_nonneg (p / q)); lia].
    pose proof (Z.log2_spec (p / q) Hd) as [Hlo _].
    pose proof (Z.mul_div_le p q Hq). nia.
  - set (c := (q + p - 1) / p).
    assert (Hc : q <= p * c).
    { subst c. pose proof (Z.div_mod (q + p - 1) p ltac:(lia)) as D.
      pose proof (Z.mod_pos_bound (q + p - 1) p Hp). lia. }
    assert (Hc1 : 1 < c) by nia.
    pose proof (Z.log2_up_spec c Hc1) as [_ Hup].
    pose proof (Z.log2_up_nonneg c).
    split; [intros H0; assert (Z.log2_up c = 0) as E0 by lia; rewrite E0 in Hup;
            cbn in Hup; lia|].
    intros _. rewrite Z.opp_involutive. nia.
Qed.

Lemma round_half_even_exact a q : 0 < q -> round_half_even (a * q) q = a.
Proof.
  intros Hq. unfold round_half_even.
  rewrite Z.div_mul, Z.mod_mul by lia. rewrite Z.mul_0_r.
  now rewrite (proj2 (Z.ltb_lt 0 q)) by lia.
Qed.

Lemma shiftl_nat_Z (p : positive) (n : nat) :
  Zpos (Pos.shiftl_nat p n) = Zpos p * 2 ^ Z.of_nat n.
Proof.
  induction n as [|n IH]; [cbn; lia|].
  change (Pos.shiftl_nat p (S n)) with (xO (Pos.shiftl_nat p n)).
  rewrite Pos2Z.inj_xO, IH, Nat2Z.inj_succ, Z.pow_succ_r by lia. ring.
Qed.

Lemma lowest_terms_xO (m : positive) (e : positive) :
  lowest_terms (xO m) (Pos.succ e) = lowest_terms m e.
Proof.
  cbn [lowest_terms]. destruct (Pos.succ e) eqn:E.
  - rewrite <- E, Pos.pred_succ. reflexivity.
  - rewrite <- E, Pos.pred_succ. reflexivity.
  - now apply Pos.succ_not_1 in E.
Qed.

Lemma lowest_terms_int (p : positive) (n : nat) :
  lowest_terms (Pos.shiftl_nat p (S n)) (Pos.of_succ_nat n) = Int (Zpos p).
Proof.
  induction n as [|n IH]; [reflexivity|].
  change (Pos.shiftl_nat p (S (S n))) with (xO (Pos.shiftl_nat p (S n))).
  change (Pos.of_succ_nat (S n)) with (Pos.succ (Pos.of_succ_nat n)).
  now rewrite lowest_terms_xO.
Qed.

Lemma lowest_terms_odd (m e : positive) (n : nat) :
  Z.odd (Zpos m) = true ->
  lowest_terms (Pos.shiftl_nat m n) (Nat.iter n Pos.succ e) = Dyadic false m e.
Proof.
  intros Hm. induction n as [|n IH].
  - cbn. destruct m; [reflexivity | discriminate Hm | reflexivity].
  - change (Pos.shiftl_nat m (S n)) with (xO (Pos.shiftl_nat m n)).
    change (Nat.iter (S n) Pos.succ e) with (Pos.succ (Nat.iter n Pos.succ e)).
    now rewrite lowest_terms_xO.
Qed.

Lemma iter_succ_Z (e : positive) (n : nat) :
  Nat.iter n Pos.succ e = Z.to_pos (Z.of_nat n + Zpos e).
Proof.
  induction n as [|n IH]; [reflexivity|].
  change (Nat.iter (S n) Pos.succ e) with (Pos.succ (Nat.iter n Pos.succ e)).
  rewrite IH, Nat2Z.inj_succ.
  replace (Z.succ (Z.of_nat n) + Zpos e) with (Z.succ (Z.of_nat n + Zpos e)) by lia.
  rewrite Z2Pos.inj_succ by lia. reflexivity.
Qed.

(** [scale] gives back an integer, and a fraction in lowest terms. *)
Lemma scale_up m t : 0 < m -> 0 <= t -> scale m t = Int (m * 2 ^ t).
Proof.
  intros Hm Ht. unfold scale. destruct m; try lia.
  now rewrite (proj2 (Z.leb_le 0 t)) by lia.
Qed.

Lemma scale_int (p : positive) j : 0 < j -> scale (Zpos p * 2 ^ j) (- j) = Int (Zpos p).
Proof.
  intros Hj. destruct (Z.to_nat j) as [|n] eqn:En; [lia|].
  assert (E : j = Z.of_nat (S n)) by lia. rewrite E at 1.
  rewrite <- shiftl_nat_Z. unfold scale.
  rewrite (proj2 (Z.leb_gt 0 (- j))) by lia.
  rewrite Z.opp_involutive. replace (Z.to_pos j) with (Pos.of_succ_nat n).
  - apply lowest_terms_int.
  - rewrite E. rewrite Nat2Z.inj_succ, <- Zpos_P_of_succ_nat. reflexivity.
Qed.

Lemma scale_dyadic (m e : positive) i :
  Z.odd (Zpos m) = true -> 0 <= i ->
  scale (Zpos m * 2 ^ i) (- (i + Zpos e)) = Dyadic false m e.
Proof.
  intros Hm Hi. rewrite <- (Z2Nat.id i) at 1 by exact Hi.
  rewrite <- shiftl_nat_Z. unfold scale.
  rewrite (proj2 (Z.leb_gt 0 (- (i + Zpos e)))) by lia.
  rewrite Z.opp_involutive.
  replace (Z.to_pos (i + Zpos e)) with (Nat.iter (Z.to_nat i) Pos.succ e)
    by (rewrite iter_succ_Z, Z2Nat.id by exact Hi; reflexivity).
  now apply lowest_terms_odd.
Qed.

Lemma odd_part_spec (p : positive) :
  exists j, 0 <= j /\ Zpos p = Zpos (odd_part p) * 2 ^ j.
Proof.
  induction p as [p IH|p IH|].
  - exists 0. cbn [odd_part]. lia.
  - destruct IH as (j & Hj & E). exists (j + 1). split; [lia|].
    cbn [odd_part]. rewrite Pos2Z.inj_xO, E, Z.pow_add_r by lia. ring.
  - exists 0. cbn. lia.
Qed.

(** The Number value for an integer that is a double is the integer. *)
Lemma nearest_double_int (p : positive) :
  is_double (Int (Zpos p)) = true -> nearest_double (Zpos p) 1 = Int (Zpos p).
Proof.
  intros H. cbn [is_double] in H. apply andb_true_iff in H as [Ho Hb].
  apply Z.ltb_lt in Ho, Hb.
  destruct (odd_part_spec p) as (j & Hj & E).
  set (o := Zpos (odd_part p)) in *.
  assert (Ho0 : 0 < o) by (subst o; lia).
  unfold nearest_double. rewrite (proj2 (Z.leb_gt _ _)) by lia.
  unfold floor_log2. rewrite (proj2 (Z.leb_le 1 (Zpos p))) by lia. rewrite Z.div_1_r.
  assert (HL : Z.log2 (Zpos p) = j + Z.log2 o)
    by (rewrite E; apply Z.log2_mul_pow2; lia).
  assert (Hlo : Z.log2 o < 53) by (apply Z.log2_lt_pow2; lia).
  pose proof (Z.log2_nonneg o) as Hl0.
  rewrite HL. cbv zeta.
  rewrite (Z.max_r (-1074) (j + Z.log2 o - 52)) by lia.
  set (t := j + Z.log2 o - 52).
  destruct (Z_lt_le_dec 0 t) as [Ht|Ht].
  - rewrite (Z.max_l 0 (- t)), (Z.max_r 0 t) by lia.
    assert (EM : Zpos p * 2 ^ 0 = (o * 2 ^ (j - t)) * (1 * 2 ^ t)).
    { rewrite E, Z.pow_0_r, Z.mul_1_r, Z.mul_1_l, <- Z.mul_assoc, <- Z.pow_add_r by lia.
      do 2 f_equal. lia. }
    rewrite EM, round_half_even_exact by (pose proof (Z.pow_pos_nonneg 2 t); lia).
    assert (Hv : o * 2 ^ (j - t) * 2 ^ t = Zpos p).
    { rewrite E, <- Z.mul_assoc, <- Z.pow_add_r by lia. do 2 f_equal. lia. }
    rewrite Hv, (proj2 (Z.leb_gt _ _)) by lia.
    rewrite scale_up by (pose proof (Z.pow_pos_nonneg 2 (j - t)); nia).
    now rewrite Hv.
  - rewrite (Z.max_r 0 (- t)), (Z.max_l 0 t) by lia.
    change (1 * 2 ^ 0) with 1.
    rewrite <- (Z.mul_1_r (Zpos p * 2 ^ (- t))).
    rewrite round_half_even_exact by lia.
    destruct (Z.eq_dec t 0) as [E0|Hne].
    + rewrite E0. change (- 0) with 0. rewrite Z.pow_0_r, !Z.mul_1_r.
      rewrite (proj2 (Z.leb_gt _ _)) by lia.
      rewrite scale_up by lia. now rewrite Z.pow_0_r, Z.mul_1_r.
    + rewrite (Z.pow_neg_r 2 t) by lia. rewrite Z.mul_0_r.
      rewrite (proj2 (Z.leb_gt _ 0)) by lia.
      rewrite <- (Z.opp_involutive t) at 2. apply scale_int. lia.
Qed.

(** The Number value for the decimal expansion of a fraction that is a
    double is the fraction. *)
Lemma nearest_double_dyadic (m e : positive) :
  is_double (Dyadic false m e) = true ->
  nearest_double (Zpos m * 5 ^ Zpos e) (10 ^ Zpos e) = Dyadic false m e.
Proof.
  intros H. cbn [is_double] in H. apply andb_true_iff in H as [H He].
  apply andb_true_iff in H as [Hodd Hm]. apply Z.ltb_lt in Hm. apply Z.leb_le in He.
  set (E := Zpos e) in *. assert (HE : 0 < E) by (subst E; lia).
  pose proof (Z.pow_pos_nonneg 5 E ltac:(lia) ltac:(lia)) as H5.
  pose proof (Z.pow_pos_nonneg 2 E ltac:(lia) ltac:(lia)) as H2.
  assert (H10 : 10 ^ E = 2 ^ E * 5 ^ E) by (rewrite <- Z.pow_mul_l; reflexivity).
  set (P := Zpos m * 5 ^ E). set (Q := 10 ^ E).
  assert (HP : 0 < P) by (subst P; nia). assert (HQ : 0 < Q) by (subst Q; lia).
  unfold nearest_double. rewrite (proj2 (Z.leb_gt _ _)) by lia.
  destruct (floor_log2_le P Q HP HQ) as [Hup Hdown].
  set (fl := floor_log2 P Q) in *.
  assert (Hfl : fl + E <= 52).
  { destruct (Z_lt_le_dec fl 0) as [Hneg|Hpos].
    - specialize (Hdown Hneg). subst P Q. rewrite H10 in Hdown.
      pose proof (Z.pow_pos_nonneg 2 (- fl) ltac:(lia) ltac:(lia)) as Hf.
      assert (Hc : 2 ^ E <= Zpos m * 2 ^ (- fl)) by nia.
      assert (Hlt : 2 ^ E < 2 ^ (53 - fl)).
      { replace (53 - fl) with (53 + - fl) by lia. rewrite Z.pow_add_r by lia. nia. }
      apply Z.pow_lt_mono_r_iff in Hlt; lia.
    - specialize (Hup Hpos). subst P Q. rewrite H10 in Hup.
      assert (Hc : 2 ^ (fl + E) <= Zpos m) by (rewrite Z.pow_add_r by lia; nia).
      assert (Hlt : 2 ^ (fl + E) < 2 ^ 53) by lia.
      apply Z.pow_lt_mono_r_iff in Hlt; lia. }
  set (t := Z.max (-1074) (fl - 52)).
  assert (Ht : t <= - E) by (subst t; lia).
  rewrite (Z.max_r 0 (- t)), (Z.max_l 0 t) by lia.
  assert (EM : P * 2 ^ (- t) = (Zpos m * 2 ^ (- t - E)) * (Q * 2 ^ 0)).
  { subst P Q. rewrite H10, Z.pow_0_r, Z.mul_1_r.
    replace (- t) with ((- t - E) + E) at 1 by lia.
    rewrite Z.pow_add_r by lia. ring. }
  rewrite EM, round_half_even_exact by (rewrite Z.pow_0_r; lia).
  rewrite (Z.pow_neg_r 2 t) by lia. rewrite Z.mul_0_r.
  rewrite (proj2 (Z.leb_gt _ 0)) by lia.
  replace t with (- ((- t - E) + Zpos e)) at 2 by (fold E; lia).
  apply scale_dyadic; [exact Hodd | lia].
Qed.

Lemma decimal_value_zero e10 : decimal_value 0 e10 = Int 0.
Proof.
  unfold decimal_value. destruct (0 <=? e10); reflexivity.
Qed.

Lemma decimal_value_exact x :
  positive_number x -> is_double x = true ->
  decimal_value (fst (exact_decimal x)) (snd (exact_decimal x)) = x
  /\ fst (exact_decimal x) <> 0%N.
Proof.
  destruct x as [ | | |[|p|p]|[] m e]; try contradiction; intros _ Hd.
  - cbn [exact_decimal fst snd Z.abs]. split; [|discriminate].
    unfold decimal_value. cbn [Z.leb Z.compare]. 
    rewrite Z2N.id by lia. rewrite Z.pow_0_r, Z.mul_1_r.
    now apply nearest_double_int.
  - cbn [exact_decimal fst snd]. split; [|discriminate].
    unfold decimal_value. cbn [Z.leb Z.compare Z.opp].
    change (Z.of_N (Npos (m * 5 ^ e))) with (Zpos (m * 5 ^ e)).
    rewrite Pos2Z.inj_mul, Pos2Z.inj_pow.
    now apply nearest_double_dyadic.
Qed.

(** ** The digits of a number *)

Lemma candidate_sound x s e d :
  candidate x s e = Some d -> decimal_value (fst d) (snd d) = x.
Proof.
  unfold candidate. destruct (strip_zeros 17 s e) as [s' e'].
  destruct (same_number _ x) eqn:E; [|discriminate].
  intros [= <-]. now apply same_number_eq.
Qed.

Lemma digits_at_sound x p q n k d :
  digits_at x p q n k = Some d -> decimal_value (fst d) (snd d) = x.
Proof.
  unfold digits_at.
  destruct (candidate x _ _) as [a|] eqn:Ea;
    destruct (candidate x (_ + 1) _) as [b|] eqn:Eb; intros [= <-].
  - destruct (_ <? _); [now apply (candidate_sound _ _ _ _ Ea)|].
    destruct (_ <? _); [now apply (candidate_sound _ _ _ _ Eb)|].
    destruct (Z.even _);
      [now apply (candidate_sound _ _ _ _ Ea) | now apply (candidate_sound _ _ _ _ Eb)].
  - now apply (candidate_sound _ _ _ _ Ea).
  - now apply (candidate_sound _ _ _ _ Eb).
Qed.

Lemma first_digits_sound x p q n ks d :
  first_digits x p q n ks = Some d -> decimal_value (fst d) (snd d) = x.
Proof.
  induction ks as [|k ks IH]; [discriminate|]. cbn [first_digits].
  destruct (digits_at x p q n k) as [d'|] eqn:E; [|exact IH].
  intros [= <-]. now apply (digits_at_sound _ _ _ _ _ _ E).
Qed.

(** The digits that [Number::toString] chooses for a double have the
    double as their Number value. *)
Lemma shortest_decimal_sound x :
  positive_number x -> is_double x = true ->
  decimal_value (fst (shortest_decimal x)) (snd (shortest_decimal x)) = x
  /\ fst (shortest_decimal x) <> 0%N.
Proof.
  intros Hpos Hd. unfold shortest_decimal. destruct (magnitude x) as [p q].
  destruct (first_digits x p q _ _) as [d|] eqn:E; [|now apply decimal_value_exact].
  pose proof (first_digits_sound _ _ _ _ _ _ E) as Hv. split; [exact Hv|].
  intros H0. rewrite H0, decimal_value_zero in Hv. subst x. contradiction.
Qed.

(** ** Strings of digits *)

Lemma length_append (a b : string) :
  String.length (a +:+ b) = (String.length a + String.length b)%nat.
Proof.
  induction a as [|c a IH]; [reflexivity|]. rewrite append_cons. cbn. now rewrite IH.
Qed.

Lemma all_digits_app a b : all_digits (a +:+ b) = all_digits a && all_digits b.
Proof.
  induction a as [|c a IH]; [reflexivity|].
  rewrite append_cons. cbn [all_digits]. now rewrite IH, andb_assoc.
Qed.

Lemma all_digits_digits_of fuel :
  forall n acc, all_digits acc = true -> all_digits (digits_of fuel n acc) = true.
Proof.
  induction fuel as [|fuel IH]; intros n acc Hacc; cbn [digits_of].
  - cbn [all_digits]. rewrite Hacc.
    now rewrite (proj1 (digit_char (n mod 10) (N.mod_lt n 10 ltac:(discriminate)))).
  - assert (Hstep : all_digits (String (ascii_of_N (48 + n mod 10)) acc) = true).
    { cbn [all_digits]. rewrite Hacc.
      now rewrite (proj1 (digit_char (n mod 10) (N.mod_lt n 10 ltac:(discriminate)))). }
    destruct (n <? 10)%N; [exact Hstep | now apply IH].
Qed.

Lemma all_digits_N_to_string n : all_digits (N_to_string n) = true.
Proof. now apply all_digits_digits_of. Qed.

(** The decimal text of a number: digits that start with [0] for zero only,
    and that read back as the number. *)
Lemma N_to_string_spec n :
  exists c r,
    N_to_string n = String c r
    /\ is_digit c = true
    /\ (c = "0"%char <-> n = 0%N)
    /\ fst (read_digits (N_to_string n) 0) = n.
Proof.
  unfold N_to_string.
  destruct (digits_of_spec _ n EmptyString (N_to_string_fuel n))
    as (c & s & k & E & Hc & Hz & _ & Hr).
  exists c, s. rewrite E. split; [reflexivity|]. split; [exact Hc|]. split; [exact Hz|].
  rewrite Hr. cbn. lia.
Qed.

Lemma read_digits_shift a :
  all_digits a = true ->
  forall acc,
    read_digits a acc
    = ((acc * 10 ^ N.of_nat (String.length a) + fst (read_digits a 0))%N, EmptyString).
Proof.
  induction a as [|c a IH]; intros Ha acc.
  - cbn. f_equal. lia.
  - cbn [all_digits] in Ha. apply andb_true_iff in Ha as [Hc Ha].
    cbn [read_digits]. rewrite Hc. rewrite (IH Ha (10 * acc + (byte_val c - 48))%N).
    rewrite (IH Ha (10 * 0 + (byte_val c - 48))%N). cbn [fst String.length].
    f_equal. rewrite Nat2N.inj_succ, N.pow_succ_r'. ring.
Qed.

Lemma read_digits_app a b :
  all_digits a = true ->
  forall acc, read_digits (a +:+ b) acc = read_digits b (fst (read_digits a acc)).
Proof.
  induction a as [|c a IH]; intros Ha acc; [reflexivity|].
  cbn [all_digits] in Ha. apply andb_true_iff in Ha as [Hc Ha].
  rewrite append_cons. cbn [read_digits]. rewrite Hc. now apply IH.
Qed.

Lemma read_digits_stop b acc : starts_with_digit b = false -> read_digits b acc = (acc, b).
Proof.
  destruct b as [|c b]; [reflexivity|]. cbn. now intros ->.
Qed.

Lemma starts_with_digit_app a b :
  all_digits a = true -> a <> EmptyString -> starts_with_digit (a +:+ b) = true.
Proof.
  destruct a as [|c a]; [congruence|]. cbn [all_digits]. intros Ha _.
  now apply andb_true_iff in Ha as [Hc _].
Qed.

Lemma all_digits_zeros k : all_digits (zeros k) = true.
Proof. induction k as [|k IH]; [reflexivity|]. exact IH. Qed.

Lemma length_zeros k : String.length (zeros k) = k.
Proof. induction k as [|k IH]; [reflexivity|]. cbn. now rewrite IH. Qed.

Lemma read_digits_zeros k : fst (read_digits (zeros k) 0) = 0%N.
Proof.
  induction k as [|k IH]; [reflexivity|]. exact IH.
Qed.

Lemma take_drop_string n s : string_take n s +:+ string_drop n s = s.
Proof.
  revert s. induction n as [|n IH]; intros [|c s]; try reflexivity.
  cbn [string_take string_drop]. rewrite append_cons. now rewrite IH.
Qed.

Lemma all_digits_take n s : all_digits s = true -> all_digits (string_take n s) = true.
Proof.
  revert s. induction n as [|n IH]; intros [|c s] Hs; try reflexivity.
  cbn [all_digits string_take] in *. apply andb_true_iff in Hs as [-> Hs]. now apply IH.
Qed.

Lemma all_digits_drop n s : all_digits s = true -> all_digits (string_drop n s) = true.
Proof.
  revert s. induction n as [|n IH]; intros [|c s] Hs; try exact Hs; try reflexivity.
  cbn [all_digits string_drop] in *. apply andb_true_iff in Hs as [_ Hs]. now apply IH.
Qed.

Lemma length_drop_string n s :
  String.length (string_drop n s) = (String.length s - n)%nat.
Proof.
  revert s. induction n as [|n IH]; intros [|c s]; try reflexivity.
  cbn [string_drop String.length]. now rewrite IH.
Qed.

Lemma nonempty_length s : (0 < String.length s)%nat -> s <> EmptyString.
Proof. destruct s; [cbn; lia | discriminate]. Qed.

(** What follows a number is read as neither fraction nor exponent. *)
Lemma ends_number_spec rest :
  ends_number rest ->
  starts_with_digit rest = false
  /\ (forall int, parse_frac int rest = Some (int, 0, rest))
  /\ parse_exp rest = Some (0, rest).
Proof.
  destruct rest as [|c r]; [intros _; repeat split|].
  intros (Hd & H1 & H2 & H3). apply Ascii.eqb_neq in H1, H2, H3.
  split; [exact Hd|]. split.
  - intros int. cbn. now rewrite H1.
  - cbn. now rewrite H2, H3.
Qed.

Lemma digit_not_dot c : is_digit c = true -> Ascii.eqb c "." = false.
Proof.
  destruct c as [[] [] [] [] [] [] [] []]; vm_compute; congruence.
Qed.

Lemma decimal_value_zeros s e10 :
  0 <= e10 ->
  decimal_value (s * 10 ^ N.of_nat (Z.to_nat e10)) 0 = decimal_value s e10.
Proof.
  intros He. unfold decimal_value. rewrite (proj2 (Z.leb_le 0 e10)) by exact He.
  cbn [Z.leb Z.compare]. f_equal.
  rewrite N2Z.inj_mul, N2Z.inj_pow, Z.pow_0_r, Z.mul_1_r.
  do 2 f_equal. lia.
Qed.

(** The exponent part that [Number::toString] writes reads back. *)
Lemma parse_exp_written (e : Z) rest :
  ends_number rest ->
  parse_exp (String "e" (String (if 0 <=? e then "+"%char else "-"%char)
                           (N_to_string (Z.abs_N e))) +:+ rest)
  = Some (e, rest).
Proof.
  intros Hrest. destruct (ends_number_spec rest Hrest) as (Hstop & _ & _).
  destruct (N_to_string_spec (Z.abs_N e)) as (c & r & E & Hc & _ & Hv).
  pose proof (all_digits_N_to_string (Z.abs_N e)) as Hall.
  rewrite !append_cons. cbn [parse_exp]. change (Ascii.eqb "e" "e") with true.
  cbn [orb].
  assert (Hread : read_digits (N_to_string (Z.abs_N e) +:+ rest) 0
                  = (Z.abs_N e, rest)).
  { rewrite read_digits_app by exact Hall. rewrite Hv. now apply read_digits_stop. }
  assert (Hstart : starts_with_digit (N_to_string (Z.abs_N e) +:+ rest) = true).
  { apply starts_with_digit_app; [exact Hall | rewrite E; discriminate]. }
  destruct (Z.leb_spec 0 e) as [He|He].
  - change (Ascii.eqb "+" "-") with false. change (Ascii.eqb "+" "+") with true.
    cbv iota. rewrite Hstart, Hread. do 2 f_equal. lia.
  - change (Ascii.eqb "-" "-") with true. cbv iota.
    rewrite Hstart, Hread. do 2 f_equal. lia.
Qed.

(** ** Reading back what [Number::toString] wrote *)

Lemma parse_int_read a b :
  all_digits a = true ->
  (exists c r, a = String c r /\ Ascii.eqb c "0" = false) ->
  starts_with_digit b = false ->
  parse_int (a +:+ b) = Some (fst (read_digits a 0), b).
Proof.
  intros Ha (c & r & E & Hc0) Hb.
  assert (Hc : is_digit c = true).
  { rewrite E in Ha. cbn [all_digits] in Ha. now apply andb_true_iff in Ha as [Hc _]. }
  rewrite <- (read_digits_stop b (fst (read_digits a 0)) Hb).
  rewrite <- read_digits_app by exact Ha.
  rewrite E, append_cons. cbn [parse_int]. now rewrite Hc0, Hc.
Qed.

Lemma parse_frac_read a b int :
  all_digits a = true -> a <> EmptyString -> starts_with_digit b = false ->
  parse_frac int (String "." (a +:+ b))
  = Some (fst (read_digits a int), Z.of_nat (String.length a), b).
Proof.
  intros Ha Hne Hb. cbn [parse_frac]. change (Ascii.eqb "." ".") with true. cbv iota.
  rewrite starts_with_digit_app by assumption.
  rewrite read_digits_app by exact Ha. rewrite read_digits_stop by exact Hb.
  rewrite length_append. do 3 f_equal. lia.
Qed.

Lemma parse_unsigned_format s e10 rest :
  s <> 0%N -> ends_number rest ->
  parse_unsigned (format_decimal s e10 +:+ rest) = Some (decimal_value s e10, rest).
Proof.
  intros Hs Hrest.
  destruct (ends_number_spec rest Hrest) as (Hstop & Hfrac & Hexp).
  destruct (N_to_string_spec s) as (c & r & E & Hc & Hz & Hv).
  pose proof (all_digits_N_to_string s) as Hall.
  assert (Hc0 : Ascii.eqb c "0" = false).
  { apply Ascii.eqb_neq. intros H0. apply Hz in H0. contradiction. }
  unfold format_decimal, parse_unsigned.
  set (ds := N_to_string s) in *.
  set (k := Z.of_nat (String.length ds)).
  assert (Hk : 1 <= k) by (subst k; rewrite E; cbn [String.length]; lia).
  set (n := e10 + k).
  destruct ((0 <=? e10) && (n <=? 21)) eqn:C1.
  { (* digits, then zeros *)
    apply andb_true_iff in C1 as [H1 H2]. apply Z.leb_le in H1, H2.
    rewrite parse_int_read;
      [| rewrite all_digits_app, Hall; apply all_digits_zeros
       | exists c, (r +:+ zeros (Z.to_nat e10)); rewrite E, append_cons; auto
       | exact Hstop].
    rewrite Hfrac, Hexp. do 2 f_equal.
    rewrite read_digits_app by exact Hall. rewrite Hv.
    rewrite (read_digits_shift _ (all_digits_zeros _)). cbn [fst].
    rewrite read_digits_zeros, length_zeros, N.add_0_r. change (0 - 0) with 0.
    now apply decimal_value_zeros. }
  assert (H21 : 0 <= e10 -> 21 < n).
  { intros H0. apply andb_false_iff in C1 as [C|C];
      [apply Z.leb_gt in C | apply Z.leb_gt in C]; lia. }
  clear C1.
  destruct ((0 <? n) && (n <=? 21)) eqn:C2.
  { (* digits, a point, digits *)
    apply andb_true_iff in C2 as [H1 H2]. apply Z.ltb_lt in H1. apply Z.leb_le in H2.
    assert (He : e10 < 0) by lia.
    set (nn := Z.to_nat n).
    assert (Hlen : (nn < String.length ds)%nat) by (subst nn k n; lia).
    rewrite !append_assoc.
    rewrite parse_int_read;
      [| now apply all_digits_take
       | destruct nn as [|m] eqn:En; [subst nn; lia|];
         exists c, (string_take m r); rewrite E; auto
       | reflexivity].
    rewrite append_cons, append_nil_l.
    rewrite parse_frac_read;
      [| now apply all_digits_drop
       | apply nonempty_length; rewrite length_drop_string; lia
       | exact Hstop].
    rewrite Hexp. do 2 f_equal. apply f_equal2.
    - transitivity (fst (read_digits (string_take nn ds +:+ string_drop nn ds) 0));
        [|rewrite take_drop_string; exact Hv].
      rewrite read_digits_app by (now apply all_digits_take). reflexivity.
    - rewrite length_drop_string. subst nn k n. lia. }
  assert (Hn : n <= 0 \/ 21 < n).
  { apply andb_false_iff in C2 as [C|C];
      [apply Z.ltb_ge in C | apply Z.leb_gt in C]; lia. }
  clear C2.
  destruct ((-6 <? n) && (n <=? 0)) eqn:C3.
  { (* a zero, a point, zeros, digits *)
    apply andb_true_iff in C3 as [H1 H2]. apply Z.ltb_lt in H1. apply Z.leb_le in H2.
    rewrite !append_assoc.
    change ("0." +:+ ?x) with (String "0" (String "." x)).
    cbn [parse_int]. change (Ascii.eqb "0" "0") with true. cbv iota.
    rewrite <- append_assoc.
    rewrite parse_frac_read;
      [| rewrite all_digits_app, Hall, all_digits_zeros; reflexivity
       | apply nonempty_length; rewrite length_append, E; cbn [String.length]; lia
       | exact Hstop].
    rewrite Hexp. do 2 f_equal. apply f_equal2.
    - rewrite read_digits_app by apply all_digits_zeros.
      now rewrite read_digits_zeros.
    - rewrite length_append, length_zeros. subst k n. lia. }
  assert (Hn' : n <= -6 \/ 21 < n).
  { apply andb_false_iff in C3 as [C|C];
      [apply Z.ltb_ge in C | apply Z.leb_gt in C]; lia. }
  clear C3 Hn.
  (* the exponent form *)
  pose proof (parse_exp_written (n - 1) rest Hrest) as Hexp'.
  set (exponent := String "e" _) in *.
  assert (Hestop : starts_with_digit (exponent +:+ rest) = false) by reflexivity.
  assert (Hefrac : forall int,
            parse_frac int (exponent +:+ rest) = Some (int, 0, exponent +:+ rest))
    by reflexivity.
  rewrite E. destruct r as [|c2 r2].
  - rewrite <- E, append_assoc.
    rewrite parse_int_read;
      [| exact Hall | exists c, EmptyString; auto | exact Hestop].
    rewrite Hefrac, Hexp', Hv. do 3 f_equal.
    subst n k. rewrite E. cbn [String.length]. lia.
  - rewrite !append_cons, append_assoc. cbn [parse_int]. rewrite Hc0, Hc.
    cbn [read_digits]. rewrite Hc.
    change (is_digit ".") with false. cbv iota.
    assert (Hr : all_digits (String c2 r2) = true).
    { rewrite E in Hall. cbn [all_digits] in Hall.
      now apply andb_true_iff in Hall as [_ Hr]. }
    rewrite <- append_cons.
    rewrite parse_frac_read; [| exact Hr | discriminate | exact Hestop].
    rewrite Hexp'. do 2 f_equal. apply f_equal2.
    + rewrite <- Hv, E. cbn [read_digits]. now rewrite Hc.
    + subst n k. rewrite E. cbn [String.length]. lia.
Qed.

Lemma format_decimal_start s e10 rest :
  exists c r, format_decimal s e10 +:+ rest = String c r /\ is_digit c = true.
Proof.
  destruct (N_to_string_spec s) as (c & r & E & Hc & _ & _).
  unfold format_decimal. rewrite E. cbn [String.length].
  set (n := e10 + Z.of_nat (S (String.length r))).
  destruct ((0 <=? e10) && (n <=? 21)); [rewrite !append_cons; eauto|].
  destruct ((0 <? n) && (n <=? 21)) eqn:C2.
  { apply andb_true_iff in C2 as [H1 _]. apply Z.ltb_lt in H1.
    destruct (Z.to_nat n) as [|m] eqn:En; [lia|].
    cbn [string_take]. rewrite !append_cons. eauto. }
  destruct ((-6 <? n) && (n <=? 0)).
  { change ("0." +:+ ?x) with (String "0" (String "." x)). rewrite !append_cons.
    eexists _, _. split; reflexivity. }
  destruct r; rewrite !append_cons; eauto.
Qed.

Lemma is_double_abs x : is_double (Number_abs x) = is_double x.
Proof. destruct x as [ | | |[|p|p]|neg m e]; reflexivity. Qed.

(** [JSON.parse] reads a number that [JSON.stringify] wrote as the number
    it was. *)
Lemma parse_number_Number_toJSON x rest :
  is_finite x = true -> is_double x = true -> ends_number rest ->
  parse_number (Number_toJSON x +:+ rest) = Some (Num x, rest).
Proof.
  intros Hf Hd Hrest. unfold Number_toJSON. rewrite Hf.
  destruct (ends_number_spec rest Hrest) as (Hstop & Hfrac & Hexp).
  assert (Hpos : forall y, positive_number y -> is_double y = true ->
            parse_unsigned
              (format_decimal (fst (shortest_decimal y)) (snd (shortest_decimal y)) +:+ rest)
            = Some (y, rest)).
  { intros y Hy Hdy. destruct (shortest_decimal_sound y Hy Hdy) as [Hv Hs].
    rewrite parse_unsigned_format by assumption. now rewrite Hv. }
  assert (Hplus : forall y, positive_number y -> is_double y = true ->
            parse_number
              (format_decimal (fst (shortest_decimal y)) (snd (shortest_decimal y)) +:+ rest)
            = Some (Num y, rest)).
  { intros y Hy Hdy. specialize (Hpos y Hy Hdy).
    destruct (format_decimal_start (fst (shortest_decimal y)) (snd (shortest_decimal y)) rest)
      as (c & r & E & Hc).
    rewrite E in *. unfold parse_number. now rewrite (digit_not_minus c Hc), Hpos. }
  assert (Hminus : forall y, positive_number y -> is_double y = true ->
            parse_number
              (String "-" (format_decimal (fst (shortest_decimal y))
                             (snd (shortest_decimal y))) +:+ rest)
            = Some (Num (Number_opp y), rest)).
  { intros y Hy Hdy. specialize (Hpos y Hy Hdy).
    rewrite append_cons. unfold parse_number. change (Ascii.eqb "-" "-") with true.
    cbv iota. now rewrite Hpos. }
  destruct x as [ | | |[|p|p]|[] m e]; try discriminate Hf.
  - unfold Number_toString. change ("0" +:+ rest) with (String "0" rest).
    unfold parse_number, parse_unsigned. change (Ascii.eqb "0" "-") with false.
    cbn [parse_int]. change (Ascii.eqb "0" "0") with true. cbv iota.
    rewrite Hfrac, Hexp. now rewrite decimal_value_zero.
  - unfold Number_toString. cbn [Number_abs is_negative].
    change (Z.abs (Zpos p)) with (Zpos p). change (Zpos p <? 0) with false.
    destruct (shortest_decimal (Int (Zpos p))) as [s e10] eqn:Es.
    specialize (Hplus (Int (Zpos p)) I Hd). now rewrite Es in Hplus.
  - unfold Number_toString. cbn [Number_abs is_negative].
    change (Z.abs (Zneg p)) with (Zpos p). change (Zneg p <? 0) with true.
    destruct (shortest_decimal (Int (Zpos p))) as [s e10] eqn:Es.
    specialize (Hminus (Int (Zpos p)) I Hd). now rewrite Es in Hminus.
  - unfold Number_toString. cbn [Number_abs is_negative].
    destruct (shortest_decimal (Dyadic false m e)) as [s e10] eqn:Es.
    specialize (Hminus (Dyadic false m e) I Hd). now rewrite Es in Hminus.
  - unfold Number_toString. cbn [Number_abs is_negative].
    destruct (shortest_decimal (Dyadic false m e)) as [s e10] eqn:Es.
    specialize (Hplus (Dyadic false m e) I Hd). now rewrite Es in Hplus.
Qed.

Lemma Number_toJSON_start x rest :
  is_finite x = true ->
  exists c r, Number_toJSON x +:+ rest = String c r
              /\ (is_digit c = true \/ c = "-"%char).
Proof.
  intros Hf. unfold Number_toJSON. rewrite Hf. unfold Number_toString.
  destruct x as [ | | |[|p|p]|neg m e]; try discriminate Hf.
  - eexists _, _. split; [reflexivity | now left].
  - destruct (shortest_decimal _) as [s e10]. cbn [is_negative].
    change (Zpos p <? 0) with false. cbv iota.
    destruct (format_decimal_start s e10 rest) as (c & r & E & Hc). eauto.
  - destruct (shortest_decimal _) as [s e10]. cbn [is_negative].
    change (Zneg p <? 0) with true. cbv iota.
    rewrite append_cons. eauto.
  - destruct (shortest_decimal _) as [s e10]. cbn [is_negative].
    destruct neg; [rewrite append_cons; eauto|].
    destruct (format_decimal_start s e10 rest) as (c & r & E & Hc). eauto.
Qed.

(** The text of a number is written in ASCII. *)
Lemma is_ascii_app a b : is_ascii (a +:+ b) = is_ascii a && is_ascii b.
Proof.
  unfold is_ascii. induction a as [|c a IH]; [reflexivity|].
  rewrite append_cons. cbn [list_ascii_of_string forallb]. now rewrite IH, andb_assoc.
Qed.

Lemma is_ascii_digits s : all_digits s = true -> is_ascii s = true.
Proof.
  unfold is_ascii. induction s as [|c s IH]; [reflexivity|].
  cbn [all_digits list_ascii_of_string forallb]. intros H.
  apply andb_true_iff in H as [Hc Hs]. rewrite (IH Hs), andb_true_r.
  unfold is_digit, in_range in Hc. apply andb_true_iff in Hc as [_ Hc].
  apply N.leb_le in Hc. apply N.ltb_lt. lia.
Qed.

Lemma is_ascii_format_decimal s e10 : is_ascii (format_decimal s e10) = true.
Proof.
  pose proof (all_digits_N_to_string s) as Hall.
  pose proof (is_ascii_digits _ Hall) as Ha.
  unfold format_decimal.
  set (ds := N_to_string s) in *. set (n := e10 + _).
  destruct (_ && _).
  { rewrite is_ascii_app, Ha. apply is_ascii_digits, all_digits_zeros. }
  destruct (_ && _).
  { rewrite !is_ascii_app.
    rewrite (is_ascii_digits _ (all_digits_take _ _ Hall)).
    rewrite (is_ascii_digits _ (all_digits_drop _ _ Hall)). reflexivity. }
  destruct (_ && _).
  { rewrite !is_ascii_app, Ha.
    rewrite (is_ascii_digits _ (all_digits_zeros _)). reflexivity. }
  assert (He : forall e, is_ascii
                 (String "e" (String (if 0 <=? e then "+"%char else "-"%char)
                                (N_to_string (Z.abs_N e)))) = true).
  { intros e. change (String "e" (String ?x ?y))
      with (String "e" (String x EmptyString) +:+ y).
    rewrite is_ascii_app, (is_ascii_digits _ (all_digits_N_to_string _)).
    now destruct (0 <=? e). }
  destruct ds as [|c [|c2 r2]] eqn:E.
  - apply He.
  - rewrite is_ascii_app, He, andb_true_r. exact Ha.
  - rewrite is_ascii_app, He, andb_true_r.
    change (String c (String "." (String c2 r2)))
      with (String c EmptyString +:+ String "." EmptyString +:+ String c2 r2).
    change (String c (String c2 r2)) with (String c EmptyString +:+ String c2 r2) in Ha.
    rewrite is_ascii_app in Ha. apply andb_true_iff in Ha as [Ha1 Ha2].
    rewrite !is_ascii_app, Ha1, Ha2. reflexivity.
Qed.

Lemma is_ascii_Number_toJSON x : is_ascii (Number_toJSON x) = true.
Proof.
  unfold Number_toJSON, Number_toString.
  destruct x as [ | | |[|p|p]|neg m e]; try reflexivity; cbn [is_finite].
  - destruct (shortest_decimal _) as [s e10]. apply is_ascii_format_decimal.
  - destruct (shortest_decimal _) as [s e10]. cbn [is_negative].
    change (Zneg p <? 0) with true. cbv iota.
    change (String "-" ?x) with (String "-" EmptyString +:+ x).
    rewrite is_ascii_app. apply is_ascii_format_decimal.
  - destruct (shortest_decimal _) as [s e10]. cbn [is_negative].
    destruct neg; [|apply is_ascii_format_decimal].
    change (String "-" ?x) with (String "-" EmptyString +:+ x).
    rewrite is_ascii_app. apply is_ascii_format_decimal.
Qed.

(** ** String literals *)

Lemma parse_string_char c r :
  parse_string_body (json_escape_char c +:+ r)
  = match parse_string_body r with
    | Some (body, rest) => Some (String c body, rest)
    | None => None
    end.
Proof.
  destruct c as [[] [] [] [] [] [] [] []]; reflexivity.
Qed.

Lemma parse_string_body_escape s rest :
  parse_string_body (json_escape s +:+ String dquote rest) = Some (s, rest).
Proof.
  induction s as [|c s IH].
  - reflexivity.
  - cbn [json_escape]. rewrite append_assoc, parse_string_char, IH. reflexivity.
Qed.

Lemma json_quote_app s rest :
  json_quote s +:+ rest = String dquote (json_escape s +:+ String dquote rest).
Proof.
  unfold json_quote. rewrite append_cons, append_assoc. reflexivity.
Qed.

(** ** The shape of a JSON text *)

Lemma forallb_weaken {A : Type} (f g : A -> bool) (l : list A) :
  (forall x, f x = true -> g x = true) -> forallb f l = true -> forallb g l = true.
Proof.
  intros Hfg. induction l as [|x l IH]; [reflexivity|]. cbn [forallb].
  intros H. apply andb_true_iff in H as [Hx Hl]. now rewrite (Hfg x Hx), IH.
Qed.

Lemma json_values_of_props props :
  forallb (fun kv => utf8_valid (fst kv) && json_value (snd kv)) props = true ->
  forallb (fun kv : string * Value => json_value (snd kv)) props = true.
Proof.
  apply forallb_weaken. intros kv H. now apply andb_true_iff in H.
Qed.

Lemma Value_ind_nested (P : Value -> Prop) :
  P Undefined -> P Null -> (forall b, P (Bool b)) -> (forall n, P (Num n)) ->
  (forall s, P (Str s)) ->
  (forall elems, Forall P elems -> P (Arr elems)) ->
  (forall props, Forall (fun kv => P (snd kv)) props -> P (Obj props)) ->
  forall v, P v.
Proof.
  intros HU HN HB HNum HS HA HO. fix IH 1. intros [| | b | n | s | elems | props].
  - exact HU.
  - exact HN.
  - apply HB.
  - apply HNum.
  - apply HS.
  - apply HA. induction elems as [|e r IHr]; constructor; [apply IH | exact IHr].
  - apply HO. induction props as [|[k e] r IHr]; constructor; [apply IH | exact IHr].
Qed.

Lemma json_value_Arr elems :
  json_value (Arr elems) = forallb json_value elems.
Proof.
  cbn [json_value]. induction elems as [|e r IH]; [reflexivity|].
  cbn [forallb]. now rewrite IH.
Qed.

Lemma json_value_Obj props :
  json_value (Obj props)
  = own_key_order [] (map fst props)
    && forallb (fun kv => utf8_valid (fst kv) && json_value (snd kv)) props.
Proof.
  cbn [json_value]. f_equal. induction props as [|[k e] r IH]; [reflexivity|].
  cbn [forallb fst snd]. now rewrite IH.
Qed.

Lemma json_size_Arr elems :
  json_size (Arr elems) = S (list_sum (map (fun e => S (json_size e)) elems)).
Proof.
  cbn [json_size]. f_equal. induction elems as [|e r IH]; [reflexivity|].
  cbn [map list_sum fold_right]. now rewrite IH.
Qed.

Lemma json_size_Obj props :
  json_size (Obj props) = S (list_sum (map (fun kv => S (json_size (snd kv))) props)).
Proof.
  cbn [json_size]. f_equal. induction props as [|[k e] r IH]; [reflexivity|].
  cbn [map list_sum fold_right snd]. now rewrite IH.
Qed.

Lemma stringify_Arr elems :
  JSON_stringify (Arr elems) = Some ("[" +:+ join_comma (map text elems) +:+ "]").
Proof.
  cbn [JSON_stringify].
  match goal with
  | |- Some (_ +:+ join_comma ?x +:+ _) = _ =>
      replace x with (map text elems); [reflexivity|]
  end.
  induction elems as [|e r IH]; [reflexivity|]. cbn [map]. now rewrite IH.
Qed.

Lemma json_value_stringify v : json_value v = true -> JSON_stringify v = Some (text v).
Proof.
  intros H. unfold text.
  destruct v as [| | [] | [] | | |]; try discriminate H; reflexivity.
Qed.

Lemma stringify_Obj props :
  forallb (fun kv => json_value (snd kv)) props = true ->
  JSON_stringify (Obj props)
  = Some ("{" +:+ join_comma (map member_text props) +:+ "}").
Proof.
  intros Hall. cbn [JSON_stringify].
  match goal with
  | |- Some (_ +:+ join_comma ?x +:+ _) = _ =>
      replace x with (map member_text props); [reflexivity|]
  end.
  induction props as [|[k e] r IH]; [reflexivity|].
  cbn [forallb snd] in Hall. apply andb_true_iff in Hall as [He Hr].
  rewrite (json_value_stringify e He). cbn [map]. unfold member_text at 1. cbn [fst snd].
  unfold text at 1. rewrite (json_value_stringify e He). cbn [default].
  now rewrite IH.
Qed.

Lemma text_Arr elems : text (Arr elems) = "[" +:+ join_comma (map text elems) +:+ "]".
Proof. unfold text at 1. now rewrite stringify_Arr. Qed.

Lemma text_Obj props :
  forallb (fun kv => json_value (snd kv)) props = true ->
  text (Obj props) = "{" +:+ join_comma (map member_text props) +:+ "}".
Proof. intros H. unfold text at 1. now rewrite stringify_Obj. Qed.

Lemma value_start_cases c :
  value_start c = true ->
  is_ws c = false /\ Ascii.eqb c "]" = false /\ Ascii.eqb c "}" = false
  /\ Ascii.eqb c "," = false.
Proof.
  destruct c as [[] [] [] [] [] [] [] []]; vm_compute; intros H;
    try discriminate H; repeat split.
Qed.

Lemma number_start_cases c :
  is_digit c = true \/ c = "-"%char ->
  is_ws c = false /\ Ascii.eqb c "{" = false /\ Ascii.eqb c "[" = false
  /\ Ascii.eqb c dquote = false /\ Ascii.eqb c "t" = false
  /\ Ascii.eqb c "f" = false /\ Ascii.eqb c "n" = false
  /\ value_start c = true /\ c <> "u"%char.
Proof.
  intros [H| ->]; [|vm_compute; repeat split; discriminate].
  destruct c as [[] [] [] [] [] [] [] []]; vm_compute in H; try discriminate H;
    vm_compute; repeat split; discriminate.
Qed.

(** A JSON text begins with a character that tells what value it is. *)
Lemma text_start v rest :
  json_value v = true ->
  exists c s, text v +:+ rest = String c s /\ value_start c = true /\ c <> "u"%char.
Proof.
  intros Hv. destruct v as [| | [] | n | str | elems | props]; try discriminate Hv.
  - eexists _, _. split; [reflexivity|]. split; [reflexivity | discriminate].
  - eexists _, _. split; [reflexivity|]. split; [reflexivity | discriminate].
  - eexists _, _. split; [reflexivity|]. split; [reflexivity | discriminate].
  - cbn [json_value] in Hv. apply andb_true_iff in Hv as [Hf _].
    destruct (Number_toJSON_start n rest Hf) as (c & s & E & Hc).
    exists c, s. split; [exact E|]. apply number_start_cases in Hc. tauto.
  - change (text (Str str)) with (json_quote str). rewrite json_quote_app.
    eexists _, _. split; [reflexivity|]. split; [reflexivity | discriminate].
  - rewrite text_Arr, append_cons.
    eexists _, _. split; [reflexivity|]. split; [reflexivity | discriminate].
  - rewrite json_value_Obj in Hv. apply andb_true_iff in Hv as [_ Hv].
    rewrite text_Obj, append_cons.
    + eexists _, _. split; [reflexivity|]. split; [reflexivity | discriminate].
    + now apply json_values_of_props.
Qed.

(** ** Reading back what [JSON.stringify] wrote *)

Lemma delimited_ends_number rest : delimited rest -> ends_number rest.
Proof.
  destruct rest as [|c r]; [auto|]. intros [->|[->| ->]]; repeat split; discriminate.
Qed.

Lemma delimited_comma s : delimited (String "," s).
Proof. left. reflexivity. Qed.

Lemma delimited_bracket s : delimited (String "]" s).
Proof. right. left. reflexivity. Qed.

Lemma delimited_brace s : delimited (String "}" s).
Proof. right. right. reflexivity. Qed.

Lemma skip_ws_start c s : is_ws c = false -> skip_ws (String c s) = String c s.
Proof. intros H. cbn [skip_ws]. now rewrite H. Qed.

Lemma parse_elements_reads_back elems :
  Forall reads_back elems -> forallb json_value elems = true -> elems <> [] ->
  forall fuel acc rest,
    (list_sum (map (fun e => S (json_size e)) elems) <= fuel)%nat ->
    parse_elements fuel (join_comma (map text elems) +:+ String "]" rest) acc
    = Some (Arr (acc ++ elems), rest).
Proof.
  induction 1 as [|e r He Hr IH]; intros Hall Hne fuel acc rest Hfuel; [congruence|].
  cbn [forallb] in Hall. apply andb_true_iff in Hall as [Hve Hvr].
  cbn [map list_sum fold_right] in Hfuel. destruct fuel as [|fuel]; [lia|].
  assert (Hsz : (json_size e <= fuel)%nat) by lia.
  cbn [parse_elements]. destruct r as [|e' r'].
  - cbn [map join_comma].
    rewrite (He Hve fuel (String "]" rest) Hsz (delimited_bracket _)).
    reflexivity.
  - cbn [map join_comma]. cbn [map join_comma] in IH.
    rewrite !append_assoc, append_cons, append_nil_l.
    rewrite (He Hve fuel _ Hsz (delimited_comma _)).
    rewrite skip_ws_start by reflexivity.
    change (Ascii.eqb "," ",") with true. cbv iota.
    rewrite IH by (try exact Hvr; try discriminate; cbn [map list_sum fold_right] in *; lia).
    now rewrite <- app_assoc.
Qed.

Lemma insert_index_append i k v l :
  forallb (fun k' => match array_index k' with
                     | Some j => (j <? i)%N
                     | None => false
                     end) (map fst l) = true ->
  insert_index i k v l = l ++ [(k, v)].
Proof.
  induction l as [|kv l IH]; [reflexivity|]. cbn [map forallb insert_index].
  intros H. apply andb_true_iff in H as [Hk Hl].
  destruct (array_index (fst kv)) as [j|]; [|discriminate].
  apply N.ltb_lt in Hk. rewrite (proj2 (N.ltb_ge i j)) by lia.
  now rewrite IH.
Qed.

Lemma obj_set_append k v l :
  can_append k (map fst l) = true -> obj_set k v l = l ++ [(k, v)].
Proof.
  unfold can_append, obj_set. intros H. apply andb_true_iff in H as [Hnew Hord].
  assert (Hhas : has_prop k l = false).
  { unfold has_prop. apply negb_true_iff in Hnew. rewrite <- Hnew.
    clear. induction l as [|kv l IH]; [reflexivity|]. cbn [map existsb]. now rewrite IH. }
  rewrite Hhas. destruct (array_index k) as [i|]; [|reflexivity].
  now apply insert_index_append.
Qed.

Lemma parse_members_reads_back props :
  Forall (fun kv => reads_back (snd kv)) props ->
  forallb (fun kv => utf8_valid (fst kv) && json_value (snd kv)) props = true ->
  props <> [] ->
  forall fuel acc rest,
    own_key_order (map fst acc) (map fst props) = true ->
    (list_sum (map (fun kv => S (json_size (snd kv))) props) <= fuel)%nat ->
    parse_members fuel (join_comma (map member_text props) +:+ String "}" rest) acc
    = Some (Obj (acc ++ props), rest).
Proof.
  induction 1 as [|[k e] r He Hr IH]; intros Hall Hne fuel acc rest Hord Hfuel;
    [congruence|].
  cbn [forallb fst snd] in Hall. apply andb_true_iff in Hall as [Hke Hvr].
  apply andb_true_iff in Hke as [_ Hve]. cbn [snd] in He.
  cbn [map list_sum fold_right snd] in Hfuel. destruct fuel as [|fuel]; [lia|].
  cbn [map fst own_key_order] in Hord. apply andb_true_iff in Hord as [Hk Hord].
  assert (Hhead : forall tail,
    parse_members (S fuel) (member_text (k, e) +:+ tail) acc
    = match parse_value fuel (text e +:+ tail) with
      | Some (v, r3) =>
          match skip_ws r3 with
          | String c' r4 =>
              if Ascii.eqb c' "," then parse_members fuel r4 (obj_set k v acc)
              else if Ascii.eqb c' "}" then Some (Obj (obj_set k v acc), r4)
              else None
          | EmptyString => None
          end
      | None => None
      end).
  { intros tail. unfold member_text. cbn [fst snd].
    rewrite !append_assoc, json_quote_app. cbn [parse_members].
    rewrite skip_ws_start by reflexivity.
    change (Ascii.eqb dquote dquote) with true. cbv iota.
    rewrite parse_string_body_escape, append_cons, append_nil_l.
    rewrite skip_ws_start by reflexivity.
    change (Ascii.eqb ":" ":") with true. cbv iota. reflexivity. }
  assert (Hsz : (json_size e <= fuel)%nat) by lia.
  destruct r as [|kv' r'].
  - cbn [map join_comma]. rewrite Hhead.
    rewrite (He Hve fuel (String "}" rest) Hsz (delimited_brace _)).
    rewrite skip_ws_start by reflexivity.
    change (Ascii.eqb "}" ",") with false. change (Ascii.eqb "}" "}") with true.
    cbv iota. now rewrite obj_set_append.
  - cbn [map join_comma]. cbn [map join_comma] in IH.
    rewrite !append_assoc, Hhead, append_cons, append_nil_l.
    rewrite (He Hve fuel _ Hsz (delimited_comma _)).
    rewrite skip_ws_start by reflexivity.
    change (Ascii.eqb "," ",") with true. cbv iota.
    rewrite obj_set_append by exact Hk.
    rewrite IH.
    + now rewrite <- app_assoc.
    + exact Hvr.
    + discriminate.
    + now rewrite map_app.
    + cbn [map list_sum fold_right] in *. lia.
Qed.

(** Every JSON value reads back. *)
Lemma parse_value_reads_back v : reads_back v.
Proof.
  induction v as [| | b | n | s | elems IH | props IH] using Value_ind_nested;
    intros Hv fuel rest Hfuel Hrest.
  - discriminate.
  - destruct fuel; [cbn in Hfuel; lia|]. reflexivity.
  - destruct fuel; [cbn in Hfuel; lia|]. destruct b; reflexivity.
  - cbn [json_value] in Hv. apply andb_true_iff in Hv as [Hf Hd].
    destruct fuel; [cbn in Hfuel; lia|].
    change (text (Num n)) with (Number_toJSON n).
    destruct (Number_toJSON_start n rest Hf) as (c & r & E & Hc).
    pose proof (parse_number_Number_toJSON n rest Hf Hd (delimited_ends_number _ Hrest))
      as Hp.
    rewrite E in *. apply number_start_cases in Hc.
    destruct Hc as (H1 & H2 & H3 & H4 & H5 & H6 & H7 & _).
    cbn [parse_value]. rewrite skip_ws_start by exact H1.
    now rewrite H2, H3, H4, H5, H6, H7.
  - destruct fuel; [cbn in Hfuel; lia|].
    change (text (Str s)) with (json_quote s). rewrite json_quote_app.
    cbn [parse_value]. rewrite skip_ws_start by reflexivity.
    change (Ascii.eqb dquote "{") with false. change (Ascii.eqb dquote "[") with false.
    change (Ascii.eqb dquote dquote) with true. cbv iota.
    now rewrite parse_string_body_escape.
  - rewrite json_value_Arr in Hv. rewrite json_size_Arr in Hfuel.
    destruct fuel as [|fuel]; [lia|].
    rewrite text_Arr, !append_assoc, append_cons, append_nil_l.
    cbn [parse_value]. rewrite skip_ws_start by reflexivity.
    change (Ascii.eqb "[" "{") with false. change (Ascii.eqb "[" "[") with true.
    cbv iota. rewrite append_cons, append_nil_l.
    destruct elems as [|e r].
    + reflexivity.
    + assert (Hve : json_value e = true).
      { cbn [forallb] in Hv. now apply andb_true_iff in Hv. }
      assert (Hs : exists c s,
                 join_comma (map text (e :: r)) +:+ String "]" rest = String c s
                 /\ value_start c = true).
      { destruct r as [|e' r']; cbn [map join_comma].
        - destruct (text_start e (String "]" rest) Hve) as (c1 & s1 & E1 & Hc1 & _).
          eauto.
        - rewrite append_assoc.
          destruct (text_start e (("," +:+ join_comma (text e' :: map text r'))
                                  +:+ String "]" rest) Hve)
            as (c1 & s1 & E1 & Hc1 & _).
          eauto. }
      destruct Hs as (c1 & s1 & E1 & Hc1).
      pose proof (parse_elements_reads_back (e :: r) IH Hv ltac:(discriminate)
                    fuel [] rest ltac:(lia)) as Hp.
      rewrite E1 in *. apply value_start_cases in Hc1.
      destruct Hc1 as (W & B & _).
      rewrite skip_ws_start by exact W. rewrite B. exact Hp.
  - rewrite json_value_Obj in Hv. apply andb_true_iff in Hv as [Hord Hv].
    rewrite json_size_Obj in Hfuel. destruct fuel as [|fuel]; [lia|].
    rewrite text_Obj, !append_assoc, append_cons, append_nil_l
      by (now apply json_values_of_props).
    cbn [parse_value]. rewrite skip_ws_start by reflexivity.
    change (Ascii.eqb "{" "{") with true. cbv iota. rewrite append_cons, append_nil_l.
    destruct props as [|[k e] r].
    + reflexivity.
    + pose proof (parse_members_reads_back ((k, e) :: r) IH Hv ltac:(discriminate)
                    fuel [] rest Hord ltac:(lia)) as Hp.
      assert (Hs : exists s,
                 join_comma (map member_text ((k, e) :: r)) +:+ String "}" rest
                 = String dquote s).
      { destruct r; cbn [map join_comma]; unfold member_text at 1; cbn [fst];
          rewrite !append_assoc, json_quote_app; eauto. }
      destruct Hs as (s1 & E1). rewrite E1 in *.
      rewrite skip_ws_start by reflexivity.
      change (Ascii.eqb dquote "}") with false. cbv iota. exact Hp.
Qed.

(** ** Well-formed UTF-8 *)

Lemma utf8_valid_cons c s :
  utf8_valid (String c s)
  = utf8_valid_bytes (byte_val c :: map byte_val (list_ascii_of_string s)).
Proof. reflexivity. Qed.

Lemma utf8_valid_fold s :
  utf8_valid_bytes (map byte_val (list_ascii_of_string s)) = utf8_valid s.
Proof. reflexivity. Qed.

Lemma utf8_valid_split_aux n :
  forall s, (String.length s <= n)%nat -> utf8_valid s = true ->
    s = EmptyString
    \/ exists q r, s = q +:+ r /\ code_point q /\ utf8_valid r = true
                   /\ (String.length r < String.length s)%nat.
Proof.
  intros s _ Hv. destruct s as [|c0 r0]; [now left|]. right.
  rewrite utf8_valid_cons in Hv. cbn [utf8_valid_bytes] in Hv.
  destruct (byte_val c0 <? 128)%N eqn:E1.
  { exists (String c0 EmptyString), r0. split; [reflexivity|]. split; [|split].
    - split.
      + intros t. rewrite append_cons, append_nil_l, utf8_valid_cons.
        cbn [utf8_valid_bytes]. now rewrite E1.
      + left. exists c0. split; [reflexivity|]. now apply N.ltb_lt.
    - exact Hv.
    - cbn. lia. }
  apply N.ltb_ge in E1.
  destruct ((194 <=? byte_val c0) && (byte_val c0 <=? 223))%N eqn:E2.
  { destruct r0 as [|c1 r1]; [discriminate|]. cbn [list_ascii_of_string map] in Hv.
    apply andb_true_iff in Hv as [Hc1 Hr].
    exists (String c0 (String c1 EmptyString)), r1.
    split; [reflexivity|]. split; [|split].
    - split.
      + intros t. rewrite !append_cons, append_nil_l, utf8_valid_cons.
        cbn [utf8_valid_bytes list_ascii_of_string map].
        rewrite (proj2 (N.ltb_ge _ _) E1), E2, Hc1. reflexivity.
      + right. split; [discriminate|]. repeat constructor; [exact E1|].
        unfold is_cont in Hc1. apply andb_true_iff in Hc1 as [H _].
        now apply N.leb_le in H.
    - exact Hr.
    - cbn. lia. }
  destruct ((224 <=? byte_val c0) && (byte_val c0 <=? 239))%N eqn:E3.
  { destruct r0 as [|c1 [|c2 r2]]; try discriminate.
    cbn [list_ascii_of_string map] in Hv.
    apply andb_true_iff in Hv as [Hv Hr].
    exists (String c0 (String c1 (String c2 EmptyString))), r2.
    split; [reflexivity|]. split; [|split].
    - split.
      + intros t. rewrite !append_cons, append_nil_l, utf8_valid_cons.
        cbn [utf8_valid_bytes list_ascii_of_string map].
        rewrite (proj2 (N.ltb_ge _ _) E1), E2, E3, Hv. reflexivity.
      + right. split; [discriminate|].
        apply andb_true_iff in Hv as [Hv _]. apply andb_true_iff in Hv as [Hv _].
        apply andb_true_iff in Hv as [Hc1 Hc2]. unfold is_cont in Hc1, Hc2.
        apply andb_true_iff in Hc1 as [H1 _]. apply andb_true_iff in Hc2 as [H2 _].
        apply N.leb_le in H1, H2. repeat constructor; assumption.
    - exact Hr.
    - cbn. lia. }
  destruct ((240 <=? byte_val c0) && (byte_val c0 <=? 244))%N eqn:E4; [|discriminate].
  destruct r0 as [|c1 [|c2 [|c3 r3]]]; try discriminate.
  cbn [list_ascii_of_string map] in Hv.
  apply andb_true_iff in Hv as [Hv Hr].
  exists (String c0 (String c1 (String c2 (String c3 EmptyString)))), r3.
  split; [reflexivity|]. split; [|split].
  - split.
    + intros t. rewrite !append_cons, append_nil_l, utf8_valid_cons.
      cbn [utf8_valid_bytes list_ascii_of_string map].
      rewrite (proj2 (N.ltb_ge _ _) E1), E2, E3, E4, Hv. reflexivity.
    + right. split; [discriminate|].
      apply andb_true_iff in Hv as [Hv _]. apply andb_true_iff in Hv as [Hv _].
      apply andb_true_iff in Hv as [Hv Hc3]. apply andb_true_iff in Hv as [Hc1 Hc2].
      unfold is_cont in Hc1, Hc2, Hc3.
      apply andb_true_iff in Hc1 as [H1 _]. apply andb_true_iff in Hc2 as [H2 _].
      apply andb_true_iff in Hc3 as [H3 _].
      apply N.leb_le in H1, H2, H3. repeat constructor; assumption.
  - exact Hr.
  - cbn. lia.
Qed.

(** Induction over a well-formed string, one code point at a time. *)
Lemma utf8_valid_ind (P : string -> Prop) :
  P EmptyString ->
  (forall q r, code_point q -> utf8_valid r = true -> P r -> P (q +:+ r)) ->
  forall s, utf8_valid s = true -> P s.
Proof.
  intros H0 Hstep s.
  remember (String.length s) as n eqn:Hn. revert s Hn.
  induction n as [n IH] using lt_wf_ind. intros s Hn Hv.
  destruct (utf8_valid_split_aux n s ltac:(lia) Hv) as [->|(q & r & -> & Hq & Hr & Hlen)];
    [exact H0|].
  apply Hstep; [exact Hq | exact Hr|].
  apply (IH (String.length r)); [lia | reflexivity | exact Hr].
Qed.

Lemma utf8_valid_app a b :
  utf8_valid a = true -> utf8_valid (a +:+ b) = utf8_valid b.
Proof.
  intros Ha. revert b.
  apply (utf8_valid_ind (fun a => forall b, utf8_valid (a +:+ b) = utf8_valid b));
    [reflexivity | | exact Ha].
  intros q r [Hq _] Hr IH b. rewrite append_assoc, Hq. apply IH.
Qed.

Lemma utf8_valid_ascii_app s t :
  is_ascii s = true -> utf8_valid (s +:+ t) = utf8_valid t.
Proof.
  unfold is_ascii. induction s as [|c s IH]; [reflexivity|].
  cbn [list_ascii_of_string forallb]. intros H. apply andb_true_iff in H as [Hc Hs].
  rewrite append_cons, utf8_valid_cons. cbn [utf8_valid_bytes].
  rewrite Hc. rewrite utf8_valid_fold. now apply IH.
Qed.

Lemma utf8_valid_ascii s : is_ascii s = true -> utf8_valid s = true.
Proof.
  intros H. rewrite <- (append_nil_r s). now rewrite utf8_valid_ascii_app.
Qed.

Lemma json_escape_char_cases c :
  if (byte_val c <? 128)%N then is_ascii (json_escape_char c) = true
  else json_escape_char c = String c EmptyString.
Proof.
  destruct c as [[] [] [] [] [] [] [] []]; vm_compute; reflexivity.
Qed.

Lemma json_escape_app a b : json_escape (a +:+ b) = json_escape a +:+ json_escape b.
Proof.
  induction a as [|c a IH]; [reflexivity|].
  rewrite append_cons. cbn [json_escape]. now rewrite IH, append_assoc.
Qed.

Lemma json_escape_high q :
  Forall (fun c => (128 <= byte_val c)%N) (list_ascii_of_string q) ->
  json_escape q = q.
Proof.
  induction q as [|c q IH]; [reflexivity|]. cbn [list_ascii_of_string].
  intros H. inversion H as [|? ? Hc Hq]; subst. cbn [json_escape].
  pose proof (json_escape_char_cases c) as Hcase.
  rewrite (proj2 (N.ltb_ge _ _) Hc) in Hcase. rewrite Hcase.
  now rewrite append_cons, append_nil_l, IH.
Qed.

Lemma utf8_valid_json_escape s t :
  utf8_valid s = true -> utf8_valid (json_escape s +:+ t) = utf8_valid t.
Proof.
  intros Hs. revert t.
  apply (utf8_valid_ind
           (fun s => forall t, utf8_valid (json_escape s +:+ t) = utf8_valid t));
    [reflexivity | | exact Hs].
  intros q r [Hq Hshape] Hr IH t.
  rewrite json_escape_app, append_assoc.
  destruct Hshape as [(c & -> & Hc)|[_ Hhigh]].
  - cbn [json_escape]. rewrite append_nil_r.
    pose proof (json_escape_char_cases c) as Ha.
    rewrite (proj2 (N.ltb_lt _ _) Hc) in Ha.
    rewrite utf8_valid_ascii_app by exact Ha. apply IH.
  - rewrite json_escape_high by exact Hhigh. rewrite Hq. apply IH.
Qed.

Lemma utf8_valid_json_quote s t :
  utf8_valid s = true -> utf8_valid (json_quote s +:+ t) = utf8_valid t.
Proof.
  intros Hs. rewrite json_quote_app.
  change (String dquote ?x) with (String dquote EmptyString +:+ x).
  rewrite utf8_valid_ascii_app by reflexivity.
  rewrite utf8_valid_json_escape by exact Hs.
  change (String dquote t) with (String dquote EmptyString +:+ t).
  now rewrite utf8_valid_ascii_app by reflexivity.
Qed.

(** ** The default handler *)

Lemma uri_unreserved_plain c : uri_unreserved c = true -> Ascii.eqb c "%" = false.
Proof.
  destruct c as [[] [] [] [] [] [] [] []]; vm_compute; congruence.
Qed.

Lemma pct_decode_escape c r :
  pct_decode (pct_escape c +:+ r) = option_map (String c) (pct_decode r).
Proof.
  destruct (pct_escape_shape c) as (h & l & -> & Hh & Hl & _).
  rewrite !append_cons, append_nil_l. cbn [pct_decode].
  change (Ascii.eqb "%" "%") with true. cbv iota.
  now rewrite Hh, Hl, ascii_of_hex_parts.
Qed.

Lemma pct_decode_encodeURIComponent s : pct_decode (encodeURIComponent s) = Some s.
Proof.
  induction s as [|c s IH]; [reflexivity|]. cbn [encodeURIComponent].
  destruct (uri_unreserved c) eqn:E.
  - cbn [pct_decode]. now rewrite (uri_unreserved_plain c E), IH.
  - now rewrite pct_decode_escape, IH.
Qed.

(** [decodeURIComponent] undoes [encodeURIComponent] on every well-formed
    string. *)
Lemma decodeURIComponent_encodeURIComponent s :
  utf8_valid s = true -> decodeURIComponent (encodeURIComponent s) = Some s.
Proof.
  intros Hs. unfold decodeURIComponent.
  now rewrite pct_decode_encodeURIComponent, Hs.
Qed.

Lemma length_join_comma l :
  (list_sum (map (fun s => S (String.length s)) l) <= S (String.length (join_comma l)))%nat.
Proof.
  induction l as [|x r IH]; [cbn; lia|].
  destruct r as [|y r].
  - cbn. lia.
  - change (join_comma (x :: y :: r)) with (x +:+ "," +:+ join_comma (y :: r)).
    rewrite !length_append.
    change (map ?f (x :: ?l)) with (f x :: map f l).
    change (list_sum (?a :: ?l)) with (a + list_sum l)%nat.
    change (String.length ",") with 1%nat. cbv beta.
    lia.
Qed.

Lemma list_sum_le {A : Type} (f g : A -> nat) (l : list A) :
  Forall (fun x => (f x <= g x)%nat) l ->
  (list_sum (map f l) <= list_sum (map g l))%nat.
Proof.
  induction 1 as [|x r Hx Hr IH]; [reflexivity|].
  change (map ?h (x :: ?l)) with (h x :: map h l).
  change (list_sum (?a :: ?l)) with (a + list_sum l)%nat. lia.
Qed.

Lemma text_nonempty v : json_value v = true -> (1 <= String.length (text v))%nat.
Proof.
  intros Hv. destruct (text_start v EmptyString Hv) as (c & s & E & _).
  rewrite append_nil_r in E. rewrite E. cbn. lia.
Qed.

(** The fuel [JSON.parse] starts with is enough for a text that
    [JSON.stringify] wrote. *)
Lemma json_size_le_length v :
  json_value v = true -> (json_size v <= String.length (text v))%nat.
Proof.
  induction v as [| | b | n | s | elems IH | props IH] using Value_ind_nested;
    intros Hv; try (apply text_nonempty; exact Hv).
  - rewrite json_value_Arr in Hv. rewrite json_size_Arr, text_Arr.
    rewrite !length_append. cbn [String.length].
    pose proof (length_join_comma (map text elems)) as Hj. rewrite map_map in Hj.
    assert (Hle : (list_sum (map (fun e => S (json_size e)) elems)
                   <= list_sum (map (fun e => S (String.length (text e))) elems))%nat).
    { apply list_sum_le. clear Hj. induction IH as [|e r He Hr IHr]; constructor.
      - cbn [forallb] in Hv. apply andb_true_iff in Hv as [Hve _].
        specialize (He Hve). lia.
      - apply IHr. cbn [forallb] in Hv. now apply andb_true_iff in Hv. }
    lia.
  - rewrite json_value_Obj in Hv. apply andb_true_iff in Hv as [_ Hv].
    rewrite json_size_Obj, text_Obj by (now apply json_values_of_props).
    rewrite !length_append. cbn [String.length].
    pose proof (length_join_comma (map member_text props)) as Hj. rewrite map_map in Hj.
    assert (Hle : (list_sum (map (fun kv => S (json_size (snd kv))) props)
                   <= list_sum (map (fun kv => S (String.length (member_text kv))) props))%nat).
    { apply list_sum_le. clear Hj. induction IH as [|[k e] r He Hr IHr]; constructor.
      - cbn [forallb fst snd] in Hv. apply andb_true_iff in Hv as [Hve _].
        apply andb_true_iff in Hve as [_ Hve]. cbn [snd] in *.
        specialize (He Hve). unfold member_text. cbn [fst snd].
        rewrite !length_append. lia.
      - apply IHr. cbn [forallb] in Hv. now apply andb_true_iff in Hv. }
    lia.
Qed.

Lemma JSON_parse_text v : json_value v = true -> JSON_parse (text v) = Some v.
Proof.
  intros Hv. unfold JSON_parse.
  pose proof (parse_value_reads_back v Hv (S (String.length (text v))) EmptyString) as Hp.
  rewrite append_nil_r in Hp. rewrite Hp; [reflexivity | | exact I].
  pose proof (json_size_le_length v Hv). lia.
Qed.

Lemma utf8_valid_join_comma l t :
  Forall (fun s => forall t', utf8_valid (s +:+ t') = utf8_valid t') l ->
  utf8_valid (join_comma l +:+ t) = utf8_valid t.
Proof.
  induction 1 as [|x r Hx Hr IH]; [reflexivity|]. destruct r as [|y r'].
  - cbn [join_comma]. apply Hx.
  - cbn [join_comma] in *. rewrite !append_assoc, Hx.
    rewrite utf8_valid_ascii_app by reflexivity. apply IH.
Qed.

(** The text of a JSON value is well-formed UTF-8. *)
Lemma utf8_valid_text v :
  json_value v = true -> forall t, utf8_valid (text v +:+ t) = utf8_valid t.
Proof.
  induction v as [| | b | n | s | elems IH | props IH] using Value_ind_nested;
    intros Hv t.
  - discriminate.
  - apply (utf8_valid_ascii_app "null"). reflexivity.
  - destruct b; [apply (utf8_valid_ascii_app "true") | apply (utf8_valid_ascii_app "false")];
      reflexivity.
  - change (text (Num n)) with (Number_toJSON n).
    apply utf8_valid_ascii_app, is_ascii_Number_toJSON.
  - now apply utf8_valid_json_quote.
  - rewrite json_value_Arr in Hv. rewrite text_Arr, !append_assoc.
    rewrite utf8_valid_ascii_app by reflexivity.
    rewrite utf8_valid_join_comma.
    + now apply (utf8_valid_ascii_app "]").
    + clear t. induction IH as [|e r He Hr IHr]; constructor.
      * apply He. cbn [forallb] in Hv. now apply andb_true_iff in Hv.
      * apply IHr. cbn [forallb] in Hv. now apply andb_true_iff in Hv.
  - rewrite json_value_Obj in Hv. apply andb_true_iff in Hv as [_ Hv].
    rewrite text_Obj, !append_assoc by (now apply json_values_of_props).
    rewrite utf8_valid_ascii_app by reflexivity.
    rewrite utf8_valid_join_comma.
    + now apply (utf8_valid_ascii_app "}").
    + clear t. induction IH as [|[k e] r He Hr IHr]; constructor.
      * cbn [forallb fst snd] in Hv. apply andb_true_iff in Hv as [Hke _].
        apply andb_true_iff in Hke as [Hk Hve]. cbn [snd] in He.
        intros t. unfold member_text. cbn [fst snd]. rewrite !append_assoc.
        rewrite utf8_valid_json_quote by exact Hk.
        rewrite utf8_valid_ascii_app by reflexivity. now apply He.
      * apply IHr. cbn [forallb] in Hv. now apply andb_true_iff in Hv.
Qed.

Lemma text_not_undefined v : json_value v = true -> String.eqb (text v) "undefined" = false.
Proof.
  intros Hv. destruct (text_start v EmptyString Hv) as (c & s & E & _ & Hu).
  rewrite append_nil_r in E. rewrite E. apply String.eqb_neq. congruence.
Qed.


(** ** Hydration from values that the cache does not hold *)

Lemma wiring_lookup l l' (id : nat) (b : Binding) :
  map wiring l' = map wiring l -> l !! id = Some b ->
  exists b', l' !! id = Some b' /\ wiring b' = wiring b.
Proof.
  intros Hw Hb. apply (f_equal (fun x => x !! id)) in Hw.
  rewrite !list_lookup_fmap, Hb in Hw.
  destruct (l' !! id) as [b'|]; [|discriminate].
  exists b'. split; [reflexivity|]. cbn in Hw. congruence.
Qed.

Lemma array_set_end x (done rest : list Value) :
  array_set (length done) x (done ++ rest) = done ++ x :: drop 1 rest.
Proof.
  unfold array_set. rewrite length_app. destruct rest as [|y rest]; cbn [length drop].
  - rewrite Nat.add_0_r, Nat.ltb_irrefl, Nat.sub_diag, app_nil_r. reflexivity.
  - rewrite (proj2 (Nat.ltb_lt _ _)) by lia.
    rewrite insert_app_r_alt, Nat.sub_diag by lia. reflexivity.
Qed.










(** ** A field that is no array while a navigation is announced *)








(** ** The example pages *)

(** The written-out state agrees with the state that the engine computes,
    in every part that is data. *)
Example xy_world_is_xy_page :
  location xy_page = location xy_world
  /\ map_to_list (cachedByParam xy_page) = map_to_list (cachedByParam xy_world)
  /\ map fst (map_to_list (handlerByParam xy_page))
     = map fst (map_to_list (handlerByParam xy_world))
  /\ map (fun b => (map_to_list (target b), paramByKey b, disposed b, listening b))
       (bindings xy_page)
     = map (fun b => (map_to_list (target b), paramByKey b, disposed b, listening b))
         (bindings xy_world)
  /\ setupComplete xy_page = setupComplete xy_world.
Proof.
  split; [vm_compute; reflexivity|]. split; [vm_compute; reflexivity|].
  split; [vm_compute; reflexivity|]. split; vm_compute; reflexivity.
Qed.

(** ** Numbers in JSON texts *)

(** [JSON.parse] rounds a literal to the nearest double, and
    [JSON.stringify] writes a double with the fewest digits that give it
    back: [0.1] is the double [3602879701896397 / 2^55]; [1.5] is [3 / 2];
    [1e21] and larger integers are written with an exponent; the smallest
    double is [5e-324], half of it rounds to zero; [2^53 + 1] is no double
    and rounds to [2^53]; and a literal from [2^1024] on is [Infinity]. *)
Example number_texts :
  JSON_parse "0.1" = Some (Num (Dyadic false 3602879701896397 55))
  /\ JSON_stringify (Num (Dyadic false 3602879701896397 55)) = Some "0.1"
  /\ JSON_parse "1.5" = Some (Num (Dyadic false 3 1))
  /\ JSON_stringify (Num (Dyadic true 3 1)) = Some "-1.5"
  /\ JSON_parse "0.30000000000000004" = Some (Num (Dyadic false 1351079888211149 52))
  /\ JSON_stringify (Num (Dyadic false 1351079888211149 52))
     = Some "0.30000000000000004"
  /\ JSON_parse "1e21" = Some (Num (Int (10 ^ 21)))
  /\ JSON_stringify (Num (Int (10 ^ 21))) = Some "1e+21"
  /\ JSON_stringify (Num (Int (10 ^ 21 - 2 ^ 17))) = Some "999999999999999900000"
  /\ JSON_parse "1E2" = Some (Num (Int 100))
  /\ JSON_parse "5e-324" = Some (Num (Dyadic false 1 1074))
  /\ JSON_stringify (Num (Dyadic false 1 1074)) = Some "5e-324"
  /\ JSON_parse "2e-324" = Some (Num (Int 0))
  /\ JSON_stringify (Num (Dyadic false 1 20)) = Some "9.5367431640625e-7"
  /\ JSON_stringify (Num (Dyadic false 1 10)) = Some "0.0009765625"
  /\ JSON_parse "9007199254740993" = Some (Num (Int (2 ^ 53)))
  /\ JSON_parse "1e309" = Some (Num PosInfinity)
  /\ JSON_parse "1." = None
  /\ JSON_parse ".5" = None
  /\ JSON_parse "01" = None
  /\ JSON_parse "1e" = None.
Proof.
  repeat split; vm_compute; reflexivity.
Qed.

(** ** A key absent from the snapshot *)

(** C8.  When a bound key is absent from the snapshot, [trySetFromURL]
    returns normally having dropped the key's write-cache entry; a field
    that holds an array is truncated to the empty array, any other field
    keeps its value.  No other cache entry and no other field changes,
    and nothing is recorded as assigned from the URL. *)
Theorem absent_key_clears_cache_and_truncates_arrays
  (state : gmap string Entry) (id : nat) (k param : string)
  (h : option Handler) (doCache : bool) (w : World) :
  state !! param = None ->
  let r := trySetFromURL state id k param h doCache w in
  fst r = Ok tt
  /\ cached param (snd r) = None
  /\ field id k (snd r) = (if isArray (field id k w) then Arr [] else field id k w)
  /\ (forall p, p <> param -> cached p (snd r) = cached p w)
  /\ (forall id' k', (id', k') <> (id, k) -> field id' k' (snd r) = field id' k' w)
  /\ assignments (snd r) = assignments w
  /\ navigations (snd r) = navigations w.
Proof.
  intros Habs r. subst r. unfold trySetFromURL. rewrite Habs. cbn [fst snd].
  rewrite field_uncache.
  destruct (isArray (field id k w)) eqn:Harr.
  - apply isArray_field_binding in Harr.
    repeat split.
    + rewrite cached_set_field. apply lookup_delete_eq.
    + now apply field_set_field_same.
    + intros p Hp. rewrite cached_set_field. now apply lookup_delete_ne.
    + intros id' k' Hne. now rewrite field_set_field_ne.
    + unfold set_field, update_binding. now destruct (bindings _ !! id).
    + unfold set_field, update_binding. now destruct (bindings _ !! id).
  - repeat split.
    + apply lookup_delete_eq.
    + intros p Hp. now apply lookup_delete_ne.
Qed.

Lemma absent_key_witness :
  let r := trySetFromURL (getURLState [("page", "3")]) 0 "tags" "tags" None true
             tags_world in
  fst r = Ok tt
  /\ cached "tags" (snd r) = None
  /\ field 0 "tags" (snd r) = Arr []
  /\ field 0 "page" (snd r) = Num (Int 3).
Proof.
  pose proof (absent_key_clears_cache_and_truncates_arrays
                (getURLState [("page", "3")]) 0 "tags" "tags" None true tags_world
                eq_refl) as H.
  cbv zeta in H. destruct H as (H1 & H2 & H3 & _ & H5 & _).
  split; [exact H1 | split; [exact H2 | split; [exact H3 |]]].
  rewrite H5 by discriminate. reflexivity.
Defined.

(** ** Key conflicts *)

(** C6 at two live bindings.  On [two_prefixes_page] the binding 0 owns
    the keys [a_x] and [a_y] and the binding 1 owns [b_x].  Setting up a
    field [x] under the prefix [a_] throws the key-conflict error, but
    moving the binding 1 to the prefix [a_] does not: [updatePrefix]
    registers the renamed handler with [unsafeSetHandler].  Afterwards both
    bindings are live and listening with their field [x] under [a_x], the
    registry has one entry for the key, and disposing of the binding 1
    takes the entry away from the binding 0 as well. *)
Theorem prefix_change_takes_a_key_in_use :
  map paramByKey (bindings two_prefixes_page)
  = [[("x", "a_x"); ("y", "a_y")]; [("x", "b_x")]]
  /\ fst (URLParameterize {[ "x" := Num (Int 5) ]} [("x", BareResolve identity)]
            (prefixed "a_") xy_page)
     = Err (KeyConflict "a_x")
  /\ fst (updatePrefix 1 "a_" two_prefixes_page) = Ok tt
  /\ map (fun b => (disposed b, listening b, paramByKey b))
       (bindings (after (updatePrefix 1 "a_") two_prefixes_page))
     = [(false, true, [("x", "a_x"); ("y", "a_y")]); (false, true, [("x", "a_x")])]
  /\ map fst (map_to_list (handlerByParam (after (updatePrefix 1 "a_") two_prefixes_page)))
     = ["a_y"; "a_x"]
  /\ location (after (updatePrefix 1 "a_") two_prefixes_page)
     = [("a_x", "5"); ("a_y", "2")]
  /\ map fst (map_to_list
                (handlerByParam (dispose 1 (after (updatePrefix 1 "a_") two_prefixes_page))))
     = ["a_y"].
Proof.
  repeat split; vm_compute; reflexivity.
Qed.

(** ** Disposal *)

(** C10.  Disposing a binding calls [globals.delete] for every name it
    owns.  Besides releasing the name (no handler, no cache entry, no
    pending debounce callback), each call makes one navigation, always in
    replace mode whatever history mode the handler was given, and the URL
    of that navigation no longer has the parameter. *)
Theorem dispose_navigates_once_per_key (w : World) (id : nat) (b : Binding) :
  bindings w !! id = Some b ->
  disposed b = false ->
  setupComplete w = true ->
  let w' := dispose id w in
  exists navs,
    navigations w' = navigations w ++ navs
    /\ Forall2 (fun n kp => nav_behavior n = Replace
                            /\ URLSearchParams.has (snd kp) (nav_url n) = false)
         navs (paramByKey b)
    /\ (forall name param, (name, param) ∈ paramByKey b -> released param w').
Proof.
  intros Hb Hd Hs w'. subst w'. unfold dispose. rewrite Hb, Hd.
  set (w1 := update_binding id (with_disposed true) w).
  assert (Hs1 : setupComplete w1 = true).
  { subst w1. unfold update_binding. now rewrite Hb. }
  assert (Hn1 : navigations w1 = navigations w).
  { subst w1. unfold update_binding. now rewrite Hb. }
  destruct (globals_delete_each (paramByKey b) w1 Hs1) as (_ & (navs & Hn & Hf) & Hrel).
  set (w2 := fold_left _ _ w1) in *.
  exists navs. split; [|split].
  - unfold update_binding. destruct (bindings w2 !! id); cbn; now rewrite Hn, Hn1.
  - exact Hf.
  - intros name param Hin.
    assert (R : released param w2).
    { apply Hrel. right. apply list_elem_of_fmap. now exists (name, param). }
    unfold update_binding. now destruct (bindings w2 !! id).
Qed.

Lemma dispose_witness :
  bindings xy_world !! 0%nat = Some xy_binding
  /\ let w' := dispose 0 xy_world in
     exists navs,
       navigations w' = navigations xy_world ++ navs
       /\ Forall2 (fun n kp => nav_behavior n = Replace
                               /\ URLSearchParams.has (snd kp) (nav_url n) = false)
            navs (paramByKey xy_binding)
       /\ (forall name param,
             (name, param) ∈ paramByKey xy_binding -> released param w').
Proof.
  split; [reflexivity|].
  exact (dispose_navigates_once_per_key xy_world 0 xy_binding eq_refl eq_refl eq_refl).
Defined.

(** ** Legacy keys *)




(** C4.  A field write that updates the URL is not read back into the
    field.  [update] caches the query string it writes and navigates; the
    notification this causes runs every listener, the writing binding's
    included, and when it is over the written field holds the value it
    held, no assignment from the URL to that field has happened, and, the
    parameter being in the URL, its cache entry is still the string that
    was written: the listener compared and found the two equal. *)
Theorem own_write_is_not_read_back
  (w : World) (u : Update) (serialized : option Serialized) :
  named_only (u_binding u) (u_field u) (u_param u) w ->
  serialized = None
  \/ serialized = Some (serialize_value (field (u_binding u) (u_field u) w) (u_handler u)) ->
  let value := parameterize (field (u_binding u) (u_field u) w) (u_handler u) in
  let w' := update u serialized w in
  field (u_binding u) (u_field u) w' = field (u_binding u) (u_field u) w
  /\ (exists extra,
        assignments w' = assignments w ++ extra
        /\ Forall (fun a => (as_binding a, as_field a) <> (u_binding u, u_field u)) extra)
  /\ (written value <> [] ->
      cached (u_param u) w' = Some (cachify_value (u_param u) value)).
Proof.
  intros Hn Hser value w'. subst w'. rewrite update_value by exact Hser. fold value.
  destruct (trySetURLParam_own_write (u_binding u) (u_field u) (u_param u) value
              (history (u_handler u)) w) as (Hc & Hf & Ht).
  - apply parameterize_not_absent.
  - exact Hn.
  - intros Hw Harr. now apply (parameterize_written_empty _ (u_handler u)).
  - auto.
Qed.


Lemma own_write_witness :
  named_only 0 "x" "a_x" xy_world_x7
  /\ let value := parameterize (field (u_binding x_update) (u_field x_update) xy_world_x7)
                    (u_handler x_update) in
     let w' := update x_update None xy_world_x7 in
     field (u_binding x_update) (u_field x_update) w'
     = field (u_binding x_update) (u_field x_update) xy_world_x7
     /\ (exists extra,
           assignments w' = assignments xy_world_x7 ++ extra
           /\ Forall (fun a => (as_binding a, as_field a)
                               <> (u_binding x_update, u_field x_update)) extra)
     /\ (written value <> [] ->
         cached (u_param x_update) w' = Some (cachify_value (u_param x_update) value)).
Proof.
  assert (Hn : named_only 0 "x" "a_x" xy_world_x7).
  { intros b p Hb Hin. injection Hb as <-. cbn [paramByKey with_target xy_binding] in Hin.
    apply elem_of_cons in Hin as [Hin|Hin]; [congruence|].
    apply elem_of_cons in Hin as [Hin|Hin]; [discriminate | inversion Hin]. }
  split; [exact Hn|].
  exact (own_write_is_not_read_back xy_world_x7 x_update None Hn (or_introl eq_refl)).
Defined.

(** ** A change of prefix *)

(** C1 at two bound fields.  On [xy_page] the URL holds [a_x=1&a_y=2].
    Changing the prefix to [b_] makes three navigations, all in replace
    mode: [globals.delete] removes [a_x], then [a_y], each with a
    navigation of its own, and only then is the batch with [b_x] and [b_y]
    committed.  After the second navigation the URL holds neither pair. *)
Theorem prefix_change_navigates_once_per_old_key :
  location xy_page = [("a_x", "1"); ("a_y", "2")]
  /\ drop (length (navigations xy_page))
       (navigations (after (updatePrefix 0 "b_") xy_page))
     = [ {| nav_behavior := Replace; nav_url := [("a_y", "2")] |};
         {| nav_behavior := Replace; nav_url := [] |};
         {| nav_behavior := Replace; nav_url := [("b_x", "1"); ("b_y", "2")] |} ].
Proof. split; [vm_compute; reflexivity | vm_compute; reflexivity]. Qed.


(** ** The debounce scheduler *)

(** C2 at a burst of eight calls.  With an idle time of 50ms and a maximal
    wait of 200ms, eight calls of [enqueue] 30ms apart (the last at 210ms)
    have invoked no callback by 200ms, nor by 259ms: every call clears and
    re-arms both timers.  The callback runs once, at 260ms, when the idle
    timer of the last call fires.  A burst of five calls ends at 120ms and
    is flushed at 170ms. *)
Theorem max_wait_timer_is_rearmed_by_enqueue :
  Debounce.fired_by default_opts (burst 8) 200 = Ok []
  /\ Debounce.fired_by default_opts (burst 8) 259 = Ok []
  /\ Debounce.fired_by default_opts (burst 8) 260
     = Ok [{| Debounce.at_time := 260; Debounce.for_key := "k"; Debounce.ran := 7%nat |}]
  /\ Debounce.fired_by default_opts (burst 5) 200
     = Ok [{| Debounce.at_time := 170; Debounce.for_key := "k"; Debounce.ran := 4%nat |}].
Proof.
  split; [vm_compute; reflexivity|]. split; [vm_compute; reflexivity|].
  split; vm_compute; reflexivity.
Qed.


(** ** The key after a change of prefix *)

(** C3 at a field with an explicit key.  The field [hello] is bound with
    the key [h] under the prefix [a_], so its parameter is [a_h].  After
    the prefix changes to [b_] the parameter is [b_hello], built from the
    field name, where the rule gives [b_h]. *)
Theorem prefix_change_forgets_explicit_key :
  map paramByKey (bindings hello_page) = [[("hello", "a_h")]]
  /\ map paramByKey (bindings (after (updatePrefix 0 "b_") hello_page))
     = [[("hello", "b_hello")]]
  /\ validParam ("b_" +:+ "h") = "b_h".
Proof.
  split; [vm_compute; reflexivity|]. split; vm_compute; reflexivity.
Qed.


(** ** Writing the same value twice *)

(** C5 at the empty list.  The field [tags] has ["multiple"] entries and
    holds the empty list.  Writing it removes the parameter from the URL;
    the notification then finds the key absent and drops the cache entry
    just written, so writing the same value again navigates again. *)
Theorem empty_list_written_twice_navigates_twice :
  let w1 := trySetURLParam "tags" (Many []) Push empty_tags_page in
  let w2 := trySetURLParam "tags" (Many []) Push w1 in
  navigations empty_tags_page = []
  /\ navigations w1 = [{| nav_behavior := Push; nav_url := [] |}]
  /\ cached "tags" w1 = None
  /\ navigations w2 = [{| nav_behavior := Push; nav_url := [] |};
                       {| nav_behavior := Push; nav_url := [] |}]
  /\ navigations (runEffects 0 (runEffects 0 empty_tags_page)) = navigations w2.
Proof.
  cbv zeta.
  split; [vm_compute; reflexivity|]. split; [vm_compute; reflexivity|].
  split; [vm_compute; reflexivity|]. split; vm_compute; reflexivity.
Qed.

(** ** C9: the round trip through the default handler *)

(** C9, as stated, at the number [Infinity]: [JSON.stringify] writes it as
    [null], and [null] is what comes back. *)
Lemma infinity_comes_back_as_null :
  evaluate (default_handler identity)
    (defaults.encode (defaults.serialize (Num PosInfinity))) "v" None
  = Some Null
  /\ Null <> Num PosInfinity.
Proof.
  split; [vm_compute; reflexivity | discriminate].
Qed.

(** C9, amended.  Under the default [serialize], [encode], [decode] and
    [deserialize] and an identity [resolve], every value of JSON (null, a
    boolean, a finite number, a well-formed string, an array or an object
    of such values), and [undefined] itself, comes back as it went in:
    [resolve(deserialize(decode(encode(serialize(v)))))] is [v]. *)
Theorem default_handler_round_trip (v : Value) (param : string) (index : option nat) :
  round_trips v = true ->
  evaluate (default_handler identity)
    (defaults.encode (defaults.serialize v)) param index
  = Some v.
Proof.
  intros Hv. unfold evaluate, default_handler. cbn [verbosify verbosify_verbose
    decode deserialize resolve nullish default no_options o_decode o_deserialize
    vh_decode vh_deserialize vh_resolve].
  unfold defaults.decode, defaults.encode, defaults.serialize, defaults.deserialize.
  destruct (json_value v) eqn:Hj.
  2:{ destruct v; cbn [round_trips] in Hv; try congruence. reflexivity. }
  -
  rewrite (json_value_stringify v Hj). unfold ToString. cbn [default]. unfold id.
    rewrite decodeURIComponent_encodeURIComponent.
    + now rewrite (text_not_undefined v Hj), (JSON_parse_text v Hj).
    + rewrite <- (append_nil_r (text v)). now rewrite utf8_valid_text.
Qed.

Lemma default_handler_round_trip_witness :
  let v := Obj [("a", Arr [Num (Int 1); Num (Dyadic false 3 1); Str "x"]);
                ("b", Null); ("c", Num (Dyadic true 3602879701896397 55))] in
  round_trips v = true
  /\ evaluate (default_handler identity)
       (defaults.encode (defaults.serialize v)) "v" None
     = Some v.
Proof.
  intros v. split; [vm_compute; reflexivity|].
  apply (default_handler_round_trip v "v" None). vm_compute. reflexivity.
Defined.

(** * Further properties of the code *)



(** ** Keys *)

Lemma validParam_inj a b : validParam a = validParam b -> a = b.
Proof.
  unfold validParam. intros E.
  pose proof (pct_decode_encodeURIComponent a) as Ha.
  rewrite E, pct_decode_encodeURIComponent in Ha. congruence.
Qed.

(** X1.  Escaping never merges two names: the keys that [verbosify] gives
    two handlers are equal exactly when prefix and name, put together, are
    equal before escaping. *)
Theorem keys_are_equal_only_for_equal_names
  (h1 h2 : ParameterHandler) (n1 n2 : string) (o1 o2 : Options) :
  key (verbosify h1 n1 o1) = key (verbosify h2 n2 o2)
  <-> Utils.resolve (o_prefix o1) EmptyString +:+ own_name h1 n1
      = Utils.resolve (o_prefix o2) EmptyString +:+ own_name h2 n2.
Proof.
  rewrite !verbosify_key. fold (own_name h1 n1). fold (own_name h2 n2). split.
  - apply validParam_inj.
  - now intros ->.
Qed.

(** ** Snapshots of the URL *)

(** X2.  [getURLState] files every parameter under its name: a name the
    URL does not have is not in the snapshot, a name that occurs once maps
    to its value, and a name that occurs more than once maps to all its
    values in the order of the URL. *)
Theorem getURLState_groups_values_by_name (u : URLSearchParams.t) (p : string) :
  match getURLState u !! p with
  | None => URLSearchParams.has p u = false
  | Some (Once v) => URLSearchParams.getAll p u = [v]
  | Some (Repeated l) => URLSearchParams.getAll p u = l /\ (2 <= length l)%nat
  end.
Proof.
  destruct (getURLState u !! p) as [[v|l]|] eqn:E.
  - rewrite getURLState_lookup in E.
    destruct (URLSearchParams.getAll p u) as [|a [|b r]]; cbn in E; congruence.
  - rewrite getURLState_lookup in E.
    destruct (URLSearchParams.getAll p u) as [|a [|b r]]; cbn in E; try congruence.
    inversion E; subst. split; [reflexivity | cbn; lia].
  - now apply getURLState_absent.
Qed.

(** ** The write cache *)

(** X3.  The cache string of a parameter determines its values.  Read
    back the way [trySetFromURL] reads it, [cachify(param, ...values)]
    gives [values] again, and its first value under [get]; so two lists of
    values have the same cache string only when they are the same list. *)
Theorem cachify_reads_back (param : string) (values : list string) :
  URLSearchParams.getAll param
    (URLSearchParams.of_init (Some (cachify param values))) = values
  /\ URLSearchParams.get param
       (URLSearchParams.of_init (Some (cachify param values))) = head values
  /\ (forall values', cachify param values = cachify param values' <-> values = values').
Proof.
  split; [apply getAll_cachify|]. split.
  - unfold URLSearchParams.get. now rewrite getAll_cachify.
  - intros values'. split; [|now intros ->].
    intros E. rewrite <- (getAll_cachify param values), E. apply getAll_cachify.
Qed.

(** ** Changing the search parameters *)

Lemma delete_delete p u :
  URLSearchParams.delete p (URLSearchParams.delete p u) = URLSearchParams.delete p u.
Proof.
  induction u as [|kv u IH]; [reflexivity|]. rewrite delete_cons.
  destruct (URLSearchParams.name_is p kv) eqn:E; [exact IH|].
  rewrite delete_cons, E. now rewrite IH.
Qed.

Lemma delete_set p v u :
  URLSearchParams.delete p (URLSearchParams.set p v u) = URLSearchParams.delete p u.
Proof.
  induction u as [|kv u IH].
  - cbn [URLSearchParams.set]. rewrite delete_cons.
    unfold URLSearchParams.name_is at 1. cbn [fst]. now rewrite String.eqb_refl.
  - cbn [URLSearchParams.set]. rewrite (delete_cons p kv u).
    destruct (URLSearchParams.name_is p kv) eqn:E.
    + rewrite delete_cons. unfold URLSearchParams.name_is at 1. cbn [fst].
      rewrite String.eqb_refl. apply delete_delete.
    + rewrite delete_cons, E. now rewrite IH.
Qed.

Lemma delete_append_fold p values u :
  URLSearchParams.delete p
    (fold_left (fun u0 v => URLSearchParams.append p v u0) values u)
  = URLSearchParams.delete p u.
Proof.
  revert u. induction values as [|v values IH]; intros u; [reflexivity|].
  cbn [fold_left]. rewrite IH. unfold URLSearchParams.append, URLSearchParams.delete.
  rewrite filter_app. cbn. unfold URLSearchParams.name_is at 2. cbn [fst].
  rewrite String.eqb_refl.
  rewrite decide_False by discriminate. apply app_nil_r.
Qed.

(** X5.  [modifySearchParam] changes one parameter and nothing else:
    afterwards the parameter has exactly the values given (none for
    [undefined]), and the pairs of every other name are the ones the URL
    had, in their order. *)
Theorem modifySearchParam_changes_one_parameter
  (param : string) (value : ParamValue) (u : URLSearchParams.t) :
  URLSearchParams.getAll param (modifySearchParam param value u) = written value
  /\ URLSearchParams.delete param (modifySearchParam param value u)
     = URLSearchParams.delete param u.
Proof.
  split.
  - rewrite getAll_modifySearchParam, String.eqb_refl. now destruct value.
  - destruct value as [|v|values]; cbn [modifySearchParam].
    + apply delete_delete.
    + apply delete_set.
    + rewrite delete_append_fold. apply delete_delete.
Qed.

(** ** The default encoder and decoder *)

(** X4.  The default [decode] undoes the default [encode] on every
    well-formed string, whatever the serializer wrote. *)
Theorem default_decode_undoes_encode (s : string) :
  utf8_valid s = true ->
  defaults.decode (defaults.encode (Some s)) = Some s.
Proof.
  intros Hs. unfold defaults.decode, defaults.encode, ToString. cbn [default].
  now apply decodeURIComponent_encodeURIComponent.
Qed.

Lemma default_decode_undoes_encode_witness :
  utf8_valid "a b&c=%" = true
  /\ defaults.encode (Some "a b&c=%") = "a%20b%26c%3D%25"
  /\ defaults.decode (defaults.encode (Some "a b&c=%")) = Some "a b&c=%".
Proof.
  split; [vm_compute; reflexivity|]. split; [vm_compute; reflexivity|].
  apply (default_decode_undoes_encode "a b&c=%"). vm_compute. reflexivity.
Defined.


(** ** Navigations *)

Lemma getAll_modify_fold values q u :
  q ∉ map fst values ->
  URLSearchParams.getAll q
    (fold_left (fun url pv => modifySearchParam (fst pv) (snd pv) url) values u)
  = URLSearchParams.getAll q u.
Proof.
  revert u. induction values as [|[p v] values IH]; intros u Hq; [reflexivity|].
  cbn [fold_left fst snd]. cbn [map fst] in Hq.
  rewrite IH by (intros Hin; apply Hq; now right).
  rewrite getAll_modifySearchParam.
  destruct (String.eqb_spec q p) as [->|]; [|reflexivity].
  exfalso. apply Hq. now left.
Qed.

(** X6.  [batchTrigger] makes one navigation for the whole batch, in the
    mode given, to the URL in which every listed parameter has been
    modified in turn; a parameter that is not listed keeps its values.
    Where the History API is missing it makes none and the URL stays. *)
Theorem batchTrigger_navigates_once
  (values : list (string * ParamValue)) (behavior : UpdateHistoryBehavior) (w : World) :
  let url := fold_left (fun url pv => modifySearchParam (fst pv) (snd pv) url)
               values (location w) in
  let w' := batchTrigger values behavior w in
  (if setupComplete w || supportsHistory w
   then navigations w' = navigations w ++ [{| nav_behavior := behavior; nav_url := url |}]
        /\ location w' = url
   else w' = w)
  /\ (forall q, q ∉ map fst values ->
        URLSearchParams.getAll q (location w') = URLSearchParams.getAll q (location w)).
Proof.
  intros url w'. subst w'. unfold batchTrigger. fold url. unfold commit, setupListener.
  assert (Hq : forall q, q ∉ map fst values ->
             URLSearchParams.getAll q url = URLSearchParams.getAll q (location w)).
  { intros q Hq. now apply getAll_modify_fold. }
  destruct (setupComplete w) eqn:Es; cbn [orb].
  - set (n := {| nav_behavior := behavior; nav_url := url |}).
    pose proof (quiet_emit (navigate n w)) as Q.
    rewrite (q_navigations _ _ Q), (q_location _ _ Q). cbn.
    split; [split; reflexivity | exact Hq].
  - destruct (supportsHistory w) eqn:Eh; cbn [negb].
    + set (n := {| nav_behavior := behavior; nav_url := url |}).
      pose proof (quiet_emit (navigate n (set_setupComplete true w))) as Q.
      rewrite (q_navigations _ _ Q), (q_location _ _ Q). cbn.
      split; [split; reflexivity | exact Hq].
    + split; [reflexivity | reflexivity].
Qed.

(** X7.  Where the History API is missing the module stays inert:
    [URLParameterize] returns the stub without creating a binding, and
    [trigger] and [batchTrigger] change nothing. *)
Theorem without_history_nothing_happens
  (tgt : gmap string Value) (hs : list (string * ParameterHandler)) (opts : Options)
  (param : string) (value : ParamValue) (values : list (string * ParamValue))
  (behavior : UpdateHistoryBehavior) (w : World) :
  supportsHistory w = false ->
  setupComplete w = false ->
  URLParameterize tgt hs opts w = (Ok None, w)
  /\ trigger param value behavior w = w
  /\ batchTrigger values behavior w = w.
Proof.
  intros Hh Hs.
  unfold URLParameterize, trigger, batchTrigger, commit, setupListener.
  now rewrite Hs, Hh.
Qed.

Lemma without_history_witness :
  URLParameterize xy_target xy_handlers (prefixed "a_") (initial false [("a_x", "5")])
  = (Ok None, initial false [("a_x", "5")])
  /\ trigger "a_x" (One "7") Push (initial false [("a_x", "5")])
     = initial false [("a_x", "5")]
  /\ batchTrigger [("a_x", Absent)] Push (initial false [("a_x", "5")])
     = initial false [("a_x", "5")].
Proof.
  exact (without_history_nothing_happens xy_target xy_handlers (prefixed "a_")
           "a_x" (One "7") [("a_x", Absent)] Push
           (initial false [("a_x", "5")]) eq_refl eq_refl).
Defined.

(** ** Setting up a binding *)

Lemma tryProcessHistoricalKeys_removes_nothing id name h state w :
  removes_no_legacy_name h ->
  quiet w (after (tryProcessHistoricalKeys id name h state) w).
Proof.
  intros Hn. unfold tryProcessHistoricalKeys.
  destruct (previousKeys h) as [keys|] eqn:Ek; [|apply quiet_refl].
  destruct (Hn keys Ek) as [Hp Hr].
  pose proof (quiet_historical_loop id name h state keys None None w) as Q.
  pose proof (historical_loop_groups id name h state keys None None w) as G.
  unfold after, bind in *.
  destruct (historical_loop id name h state keys None None w) as [[g|e] w1];
    cbn [snd] in *; [|exact Q].
  rewrite (G g w1 eq_refl), Hp, Hr. exact Q.
Qed.

(** What setting up fields changes besides fields, cache and registry:
    neither the URL nor the history. *)
Lemma setupEffect_stays id name h state w b :
  bindings w !! id = Some b ->
  removes_no_legacy_name (verbosify h name (options b)) ->
  navigations (after (setupEffect id name h state) w) = navigations w
  /\ location (after (setupEffect id name h state) w) = location w
  /\ exists b', bindings (after (setupEffect id name h state) w) !! id = Some b'
                /\ options b' = options b.
Proof.
  intros Hb Hn.
  set (P := fun w' : World =>
              navigations w' = navigations w /\ location w' = location w
              /\ exists b', bindings w' !! id = Some b' /\ options b' = options b).
  change (P (after (setupEffect id name h state) w)).
  assert (Hq : forall w2 w3, quiet w2 w3 -> P w2 -> P w3).
  { intros w2 w3 Q (Hn2 & Hl2 & b2 & Hb2 & Ho2). unfold P.
    rewrite (q_navigations _ _ Q), (q_location _ _ Q).
    split; [exact Hn2|]. split; [exact Hl2|].
    pose proof (q_bindings _ _ Q) as Hw.
    apply (f_equal (fun l => l !! id)) in Hw. rewrite !list_lookup_fmap, Hb2 in Hw.
    destruct (bindings w3 !! id) as [b3|]; [|discriminate].
    exists b3. split; [reflexivity|]. cbn in Hw.
    assert (Hw' : wiring b3 = wiring b2) by congruence.
    apply (f_equal options) in Hw'. cbn in Hw'. congruence. }
  assert (Hu : forall f w2, (forall b0, options (f b0) = options b0) -> P w2 ->
             P (update_binding id f w2)).
  { intros f w2 Hf (Hn2 & Hl2 & b2 & Hb2 & Ho2). unfold P, update_binding.
    rewrite Hb2. cbn. split; [exact Hn2|]. split; [exact Hl2|].
    eexists. rewrite list_lookup_insert_eq by (now apply lookup_lt_Some in Hb2).
    split; [reflexivity|]. now rewrite Hf. }
  assert (P0 : P w) by (unfold P; split; [reflexivity|]; split; [reflexivity|]; now exists b).
  unfold after, setupEffect. rewrite Hb.
  set (handler := verbosify h name (options b)) in *.
  unfold bind at 1. unfold safeSetHandler.
  destruct (handlerByParam w !! key handler); cbn [snd]; [exact P0|].
  set (w0 := set_handlerByParam _ w).
  assert (P1 : P w0) by exact P0.
  clearbody w0.
  unfold bind at 1, exec at 1.
  set (w1 := update_binding id _ w0).
  assert (P2 : P w1) by (subst w1; apply Hu; [reflexivity | exact P1]).
  clearbody w1.
  unfold bind at 1.
  pose proof (tryProcessHistoricalKeys_removes_nothing id name handler state w1 Hn) as Q2.
  unfold after in Q2.
  destruct (tryProcessHistoricalKeys id name handler state w1) as [[[]|e] w2];
    cbn [snd] in *; [|now apply (Hq w1 w2)].
  pose proof (Hq w1 w2 Q2 P2) as P3.
  unfold bind at 1.
  pose proof (quiet_trySetFromURL state id name (key handler) (Some handler) true w2) as Q3.
  unfold after in Q3.
  destruct (trySetFromURL state id name (key handler) (Some handler) true w2)
    as [[[]|e] w3]; cbn [snd] in *; [|now apply (Hq w2 w3)].
  unfold exec. cbn [snd]. apply Hu; [reflexivity|]. now apply (Hq w2 w3).
Qed.

Lemma setup_loop_stays id hs state :
  forall w b,
    bindings w !! id = Some b ->
    Forall (fun nh => removes_no_legacy_name (verbosify (snd nh) (fst nh) (options b))) hs ->
    navigations (after (setup_loop id hs state) w) = navigations w
    /\ location (after (setup_loop id hs state) w) = location w.
Proof.
  induction hs as [|[name h] hs IH]; intros w b Hb Hall; [now split|].
  inversion Hall as [|? ? Hh Hrest]; subst. cbn [fst snd] in Hh.
  destruct (setupEffect_stays id name h state w b Hb Hh) as (Hn & Hl & b' & Hb' & Ho).
  unfold after in *. cbn [setup_loop]. unfold bind.
  destruct (setupEffect id name h state w) as [[[]|e] w1]; cbn [snd] in *;
    [|now split].
  rewrite <- Ho in Hrest.
  destruct (IH w1 b' Hb' Hrest) as [Hn' Hl']. now rewrite Hn', Hl'.
Qed.

(** X14.  Setting up a binding reads the URL and does not write it: when
    no handler has a legacy name to remove, [URLParameterize] returns (or
    throws) without a navigation, and the URL is the one it found.  What
    the effects it has created write, they write when they run. *)
Theorem setup_makes_no_navigation
  (tgt : gmap string Value) (hs : list (string * ParameterHandler)) (opts : Options)
  (w : World) :
  Forall (fun nh => removes_no_legacy_name (verbosify (snd nh) (fst nh) opts)) hs ->
  navigations (after (URLParameterize tgt hs opts) w) = navigations w
  /\ location (after (URLParameterize tgt hs opts) w) = location w.
Proof.
  intros Hall. unfold after, URLParameterize, setupListener.
  assert (Hgo : forall w1, navigations w1 = navigations w -> location w1 = location w ->
    let id := length (bindings w1) in
    let w2 := set_bindings
                (bindings w1 ++
                 [{| target := tgt; handlers := hs; options := opts; paramByKey := [];
                     disposed := false; listening := true; effects := [] |}]) w1 in
    navigations (snd ((setup_loop id hs (getURLState (location w2)) ;;; ret (Some id)) w2))
    = navigations w
    /\ location (snd ((setup_loop id hs (getURLState (location w2)) ;;; ret (Some id)) w2))
       = location w).
  { intros w1 Hn1 Hl1 id w2.
    destruct (setup_loop_stays id hs (getURLState (location w2)) w2
                {| target := tgt; handlers := hs; options := opts; paramByKey := [];
                   disposed := false; listening := true; effects := [] |})
      as [Hn Hl].
    - subst w2 id. cbn. now rewrite lookup_app_r, Nat.sub_diag by lia.
    - exact Hall.
    - unfold after, bind in *.
      destruct (setup_loop id hs (getURLState (location w2)) w2) as [[[]|e] w3];
        cbn [snd ret] in *; now rewrite Hn, Hl. }
  destruct (setupComplete w) eqn:Es; cbn [negb].
  - now apply Hgo.
  - destruct (supportsHistory w); cbn [negb]; [|now split].
    now apply (Hgo (set_setupComplete true w)).
Qed.

Lemma setup_makes_no_navigation_witness :
  navigations (after (URLParameterize xy_target xy_handlers (prefixed "a_"))
                 (initial true [("a_x", "5"); ("q", "svelte")])) = []
  /\ location (after (URLParameterize xy_target xy_handlers (prefixed "a_"))
                 (initial true [("a_x", "5"); ("q", "svelte")]))
     = [("a_x", "5"); ("q", "svelte")].
Proof.
  apply (setup_makes_no_navigation xy_target xy_handlers (prefixed "a_")
           (initial true [("a_x", "5"); ("q", "svelte")])).
  unfold xy_handlers.
  constructor; [intros keys Hk; discriminate Hk|].
  constructor; [intros keys Hk; discriminate Hk|].
  constructor.
Defined.


(** ** Writing a parameter *)

(** X8.  A value whose query string is not the cached one is written
    through: [trySetURLParam] makes one navigation, in the mode given, to
    the URL in which the parameter has the new values, and other
    parameters keep theirs. *)
Theorem changed_value_is_written_once
  (param : string) (value : ParamValue) (behavior : UpdateHistoryBehavior) (w : World) :
  cached param w <> Some (cachify_value param value) ->
  setupComplete w = true ->
  let w' := trySetURLParam param value behavior w in
  navigations w'
  = navigations w ++ [{| nav_behavior := behavior;
                         nav_url := modifySearchParam param value (location w) |}]
  /\ URLSearchParams.getAll param (location w') = written value
  /\ forall q, q <> param ->
       URLSearchParams.getAll q (location w') = URLSearchParams.getAll q (location w).
Proof.
  intros Hc Hs w'. subst w'. unfold trySetURLParam.
  rewrite bool_decide_eq_false_2 by exact Hc.
  unfold trigger. rewrite commit_installed by exact Hs.
  set (n := {| nav_behavior := behavior; nav_url := _ |}).
  pose proof (quiet_emit (navigate n (cache param (cachify_value param value) w))) as Q.
  rewrite (q_navigations _ _ Q), (q_location _ _ Q).
  subst n. unfold navigate, cache, set_cachedByParam. cbn [navigations location nav_url].
  split; [reflexivity|]. split.
  - rewrite getAll_modifySearchParam, String.eqb_refl. now destruct value.
  - intros q Hq. rewrite getAll_modifySearchParam.
    now rewrite (proj2 (String.eqb_neq q param) Hq).
Qed.

Lemma changed_value_witness :
  cached "a_x" xy_world <> Some (cachify_value "a_x" (One "7"))
  /\ navigations (trySetURLParam "a_x" (One "7") Push xy_world)
     = [{| nav_behavior := Push; nav_url := [("a_x", "7"); ("a_y", "2")] |}]
  /\ URLSearchParams.getAll "a_x" (location (trySetURLParam "a_x" (One "7") Push xy_world))
     = ["7"].
Proof.
  assert (H : cached "a_x" xy_world <> Some (cachify_value "a_x" (One "7")))
    by (vm_compute; discriminate).
  split; [exact H|].
  destruct (changed_value_is_written_once "a_x" (One "7") Push xy_world H eq_refl)
    as (H1 & H2 & _).
  split; [exact H1 | exact H2].
Defined.



(** ** Hydration *)

Lemma uncache_uncache p w : uncache p (uncache p w) = uncache p w.
Proof.
  unfold uncache, set_cachedByParam. cbn. f_equal. apply delete_delete_eq.
Qed.

Lemma hydrate_entries_ok id k param h values w w1 :
  hydrate_entries id k param h values true w = (Ok tt, w1) ->
  cached param w1 = Some (cachify param values)
  /\ exists l, field id k w1 = Arr l.
Proof.
  unfold hydrate_entries, bind.
  destruct (resolve_changed id k param h values _ 0 w) as [[[]|e] wa]; [|discriminate].
  unfold splice_field.
  destruct (splice (field id k wa) _ _) as [arr|e] eqn:Es; [|discriminate].
  unfold exec. intros E. injection E as <-.
  split; [unfold cached, cache; cbn; apply lookup_insert_eq|].
  rewrite field_cache.
  destruct (field id k wa) as [| | | | |l|] eqn:Ef; try discriminate.
  cbn in Es. injection Es as <-.
  rewrite field_set_field_same; [now eexists|].
  apply isArray_field_binding with (k := k). now rewrite Ef.
Qed.

Lemma hydrate_entries_again id k param h values w l :
  cached param w = Some (cachify param values) ->
  field id k w = Arr l ->
  hydrate_entries id k param h values true w = (Ok tt, w).
Proof.
  intros Hc Hf. unfold hydrate_entries. rewrite Hc, getAll_cachify.
  unfold bind. rewrite resolve_changed_same by (intros i v Hv; exact Hv).
  unfold splice_field. rewrite Hf, Z.sub_diag, splice_nothing.
  rewrite set_field_same by (first [exact Hf | discriminate]).
  unfold exec. now rewrite cache_same.
Qed.

Lemma hydrate_single_again id k param h value doCache w :
  cached param w = Some (cachify param [value]) ->
  hydrate_single id k param h value doCache w = (Ok tt, w).
Proof.
  intros Hc. unfold hydrate_single, URLSearchParams.get.
  rewrite Hc, getAll_cachify. cbn [head]. now rewrite bool_decide_eq_true_2.
Qed.

(** X10.  A snapshot applied twice assigns once.  When [trySetFromURL],
    called with [doCache] true (its default, and how the listener and
    [setupEffect] call it), has returned, a second such call with the same
    snapshot returns too and changes nothing: no field is assigned again
    and the cache stays.  (The calls with [doCache] false that
    [tryProcessHistoricalKeys] makes cache nothing, and a second one would
    assign again.) *)
Theorem snapshot_applied_twice_assigns_once
  (state : gmap string Entry) (id : nat) (k param : string) (h : option Handler)
  (w : World) :
  fst (trySetFromURL state id k param h true w) = Ok tt ->
  let w1 := after (trySetFromURL state id k param h true) w in
  trySetFromURL state id k param h true w1 = (Ok tt, w1).
Proof.
  intros Hok w1. subst w1. unfold after.
  pose proof (quiet_trySetFromURL state id k param h true w) as Q. unfold after in Q.
  destruct (trySetFromURL state id k param h true w) as [r w1] eqn:E.
  cbn [fst snd] in *. subst r.
  pose proof (q_handlers _ _ Q) as Hh. clear Q.
  unfold trySetFromURL in *.
  destruct (state !! param) as [current|].
  - rewrite Hh.
    destruct (match h with Some h0 => Some h0 | None => handlerByParam w !! param end)
      as [hd|]; [|discriminate].
    destruct current as [value|values], (supportsMultiple hd); try discriminate.
    + destruct (hydrate_entries_ok _ _ _ _ _ _ _ E) as (Hc & l & Hf).
      now apply hydrate_entries_again with (l := l).
    + unfold hydrate_single in E.
      destruct (bool_decide (Some value = _)) eqn:Eb.
      * injection E as <-. unfold hydrate_single. now rewrite Eb.
      * destruct (evaluate hd value param None) as [x|]; [|discriminate].
        injection E as <-. apply hydrate_single_again.
        unfold cached, cache. cbn. apply lookup_insert_eq.
    + destruct (hydrate_entries_ok _ _ _ _ _ _ _ E) as (Hc & l & Hf).
      now apply hydrate_entries_again with (l := l).
  - injection E as <-. f_equal.
    destruct (isArray (field id k (uncache param w))) eqn:Ea.
    + assert (Hb : is_Some (bindings (uncache param w) !! id))
        by (now apply isArray_field_binding with (k := k)).
      assert (U : uncache param (set_field id k (Arr []) (uncache param w))
                  = set_field id k (Arr []) (uncache param w)).
      { unfold set_field, update_binding. destruct Hb as [b Hb]. rewrite Hb.
        unfold uncache, set_cachedByParam, set_bindings. cbn. f_equal. apply delete_delete_eq. }
      rewrite U, field_set_field_same by exact Hb. cbn [isArray].
      apply set_field_same; [now apply field_set_field_same | discriminate].
    + now rewrite uncache_uncache, Ea.
Qed.

Lemma snapshot_twice_witness :
  fst (trySetFromURL (getURLState [("tags", "1"); ("tags", "2"); ("tags", "3")])
         0 "tags" "tags" (Some (verbosify (Verbose tags_handler) "tags" no_options))
         true tags_world) = Ok tt
  /\ let w1 := after (trySetFromURL
                        (getURLState [("tags", "1"); ("tags", "2"); ("tags", "3")])
                        0 "tags" "tags"
                        (Some (verbosify (Verbose tags_handler) "tags" no_options)) true)
                 tags_world in
     trySetFromURL (getURLState [("tags", "1"); ("tags", "2"); ("tags", "3")])
       0 "tags" "tags" (Some (verbosify (Verbose tags_handler) "tags" no_options))
       true w1 = (Ok tt, w1).
Proof.
  assert (H : fst (trySetFromURL
                     (getURLState [("tags", "1"); ("tags", "2"); ("tags", "3")])
                     0 "tags" "tags"
                     (Some (verbosify (Verbose tags_handler) "tags" no_options))
                     true tags_world) = Ok tt) by (vm_compute; reflexivity).
  split; [exact H|].
  exact (snapshot_applied_twice_assigns_once _ 0 "tags" "tags" _ tags_world H).
Defined.


(** ** Lists as repeated parameters *)

(** The default codec reads back what it wrote, and hands it to the
    handler's [resolve]. *)
Lemma default_codec_reads_back (hd : Handler) (v : Value) (param : string)
  (index : option nat) :
  serialize hd = defaults.serialize -> encode hd = defaults.encode ->
  decode hd = defaults.decode -> deserialize hd = defaults.deserialize ->
  round_trips v = true ->
  evaluate hd (encode hd (serialize hd v)) param index = Some (resolve hd v param index).
Proof.
  intros Hs He Hd Hds Hv. unfold evaluate. rewrite Hs, He, Hd, Hds.
  unfold defaults.decode, defaults.encode, defaults.serialize, defaults.deserialize.
  destruct (json_value v) eqn:Hj.
  2:{ destruct v; cbn [round_trips] in Hv; try congruence. reflexivity. }
  rewrite (json_value_stringify v Hj). unfold ToString. cbn [default]. unfold id.
  rewrite decodeURIComponent_encodeURIComponent.
  - now rewrite (text_not_undefined v Hj), (JSON_parse_text v Hj).
  - rewrite <- (append_nil_r (text v)). now rewrite utf8_valid_text.
Qed.

Lemma resolve_changed_uncached id k param (hd : Handler) (old : list Value) :
  serialize hd = defaults.serialize -> encode hd = defaults.encode ->
  decode hd = defaults.decode -> deserialize hd = defaults.deserialize ->
  forall elems done w,
    field id k w = Arr (done ++ drop (length done) old) ->
    forallb round_trips elems = true ->
    exists w',
      resolve_changed id k param hd
        (map (fun e => encode hd (serialize hd e)) elems) [] (length done) w
      = (Ok tt, w')
      /\ field id k w'
         = Arr ((done ++ imap (fun i e => resolve hd e param (Some (length done + i)%nat))
                           elems)
                ++ drop (length done + length elems) old).
Proof.
  intros Hs He Hd Hds. induction elems as [|e elems IH]; intros done w Hf Hall.
  - exists w. cbn. now rewrite app_nil_r, Nat.add_0_r.
  - cbn [forallb] in Hall. apply andb_true_iff in Hall as [He1 Hall].
    cbn [map resolve_changed]. unfold bind.
    rewrite lookup_nil, bool_decide_eq_false_2 by discriminate.
    rewrite (default_codec_reads_back hd e param (Some (length done)) Hs He Hd Hds He1).
    rewrite Hf. cbn [assign_index]. rewrite array_set_end, drop_drop.
    set (x := resolve hd e param (Some (length done))).
    set (w1 := record_assignment _ _).
    assert (Hf1 : field id k w1
                  = Arr ((done ++ [x]) ++ drop (length (done ++ [x])) old)).
    { subst w1. rewrite field_record, field_set_field_same.
      - rewrite length_app. cbn [length]. now rewrite <- app_assoc.
      - apply isArray_field_binding with (k := k). now rewrite Hf. }
    destruct (IH (done ++ [x]) w1 Hf1 Hall) as (w' & Hr & Hf').
    rewrite length_app in Hr, Hf'. cbn [length] in Hr, Hf'.
    rewrite Nat.add_1_r in Hr. exists w'. split; [exact Hr|].
    rewrite Hf', <- !app_assoc. cbn [app imap length]. rewrite Nat.add_0_r. subst x.
    replace (length done + 1 + length elems)%nat
      with (length done + S (length elems))%nat by lia.
    do 4 f_equal. apply imap_ext. intros i y _. cbn. do 2 f_equal. lia.
Qed.

Lemma hydrate_entries_uncached id k param (hd : Handler) (elems old : list Value) w :
  serialize hd = defaults.serialize -> encode hd = defaults.encode ->
  decode hd = defaults.decode -> deserialize hd = defaults.deserialize ->
  forallb round_trips elems = true ->
  field id k w = Arr old ->
  cached param w = None ->
  let encs := map (fun e => encode hd (serialize hd e)) elems in
  fst (hydrate_entries id k param hd encs true w) = Ok tt
  /\ field id k (snd (hydrate_entries id k param hd encs true w))
     = Arr (imap (fun i e => resolve hd e param (Some i)) elems
            ++ drop (length elems) old).
Proof.
  intros Hs He Hd Hds Hall Hf Hc encs.
  unfold hydrate_entries. rewrite Hc. cbn [URLSearchParams.of_init].
  rewrite getAll_nil.
  destruct (resolve_changed_uncached id k param hd old Hs He Hd Hds elems [] w Hf Hall)
    as (w1 & Hr & Hf1).
  cbn [length app Nat.add] in Hr, Hf1. fold encs in Hr.
  unfold bind. rewrite Hr. unfold splice_field. rewrite Hf1. cbn [splice].
  assert (Hz : forall a b : nat, Z.to_nat (Z.of_nat a - Z.of_nat b) = (a - b)%nat)
    by lia.
  rewrite Hz. cbn [length Nat.sub]. rewrite Nat.add_0_r, take_drop.
  unfold exec. cbn [fst snd].
  split; [reflexivity|]. rewrite field_cache. apply field_set_field_same.
  apply isArray_field_binding with (k := k). now rewrite Hf1.
Qed.

Lemma parameterize_list (hd : Handler) (elems : list Value) :
  entries hd = Multiple ->
  parameterize (Arr elems) hd = Many (map (fun e => encode hd (serialize hd e)) elems).
Proof.
  intros Hm. unfold parameterize, serialize_value, encode_value. rewrite Hm.
  now rewrite map_map.
Qed.

(** X11.  A list written as repeated parameters comes back.  Under a
    handler with ["multiple"] entries and the default [serialize],
    [encode], [decode] and [deserialize], the parameter values that
    [parameterize] gives for a list of JSON values hydrate an empty array
    field, on a page that has nothing cached for the parameter, to the
    list of the resolved elements, in order. *)
Theorem list_comes_back_from_repeated_parameters
  (hd : Handler) (id : nat) (k param : string) (elems : list Value)
  (url : URLSearchParams.t) (w : World) :
  entries hd = Multiple ->
  serialize hd = defaults.serialize -> encode hd = defaults.encode ->
  decode hd = defaults.decode -> deserialize hd = defaults.deserialize ->
  forallb round_trips elems = true ->
  field id k w = Arr [] ->
  cached param w = None ->
  let state := getURLState (modifySearchParam param (parameterize (Arr elems) hd) url) in
  let r := trySetFromURL state id k param (Some hd) true w in
  fst r = Ok tt
  /\ field id k (snd r)
     = Arr (imap (fun i e => resolve hd e param (Some i)) elems).
Proof.
  intros Hm Hs He Hd Hds Hall Hf Hc state r. subst r state.
  assert (Hb : is_Some (bindings w !! id)).
  { apply isArray_field_binding with (k := k). now rewrite Hf. }
  pose proof (hydrate_entries_uncached id k param hd elems [] w Hs He Hd Hds Hall Hf Hc)
    as Hgo. cbv zeta in Hgo. rewrite drop_nil, app_nil_r in Hgo.
  unfold trySetFromURL. rewrite state_after_write, (parameterize_list hd elems Hm).
  cbn [written]. unfold supportsMultiple. rewrite Hm.
  destruct (map (fun e => encode hd (serialize hd e)) elems) as [|a [|a' encs']] eqn:Ee;
    cbn [entry_of]; [|exact Hgo|exact Hgo].
  assert (elems = []) as -> by (now destruct elems).
  rewrite field_uncache, Hf. cbn [isArray fst snd imap].
  split; [reflexivity|]. apply field_set_field_same.
  unfold uncache, set_cachedByParam. exact Hb.
Qed.

Lemma list_comes_back_witness :
  forallb round_trips [Str "js"; Num (Int 3); Null] = true
  /\ parameterize (Arr [Str "js"; Num (Int 3); Null]) tags_list_handler
     = Many ["%22js%22"; "3"; "null"]
  /\ let state := getURLState
                    (modifySearchParam "tags"
                       (parameterize (Arr [Str "js"; Num (Int 3); Null]) tags_list_handler)
                       [("q", "svelte")]) in
     let r := trySetFromURL state 0 "tags" "tags" (Some tags_list_handler) true
                fresh_tags_world in
     fst r = Ok tt /\ field 0 "tags" (snd r) = Arr [Str "js"; Num (Int 3); Null].
Proof.
  split; [vm_compute; reflexivity|]. split; [vm_compute; reflexivity|].
  exact (list_comes_back_from_repeated_parameters tags_list_handler 0 "tags" "tags"
           [Str "js"; Num (Int 3); Null] [("q", "svelte")] fresh_tags_world
           eq_refl eq_refl eq_refl eq_refl eq_refl eq_refl eq_refl eq_refl).
Defined.


(** X12.  With nothing cached for the parameter, hydrating an array
    field from a non-empty list of values overwrites the elements at the
    positions of the list and leaves the rest of the array in place: the
    field ends as the resolved values followed by the elements it held
    beyond them. *)
Theorem uncached_hydration_keeps_surplus_elements
  (hd : Handler) (id : nat) (k param : string) (elems old : list Value)
  (url : URLSearchParams.t) (w : World) :
  entries hd = Multiple ->
  serialize hd = defaults.serialize -> encode hd = defaults.encode ->
  decode hd = defaults.decode -> deserialize hd = defaults.deserialize ->
  forallb round_trips elems = true ->
  elems <> [] ->
  field id k w = Arr old ->
  cached param w = None ->
  let state := getURLState (modifySearchParam param (parameterize (Arr elems) hd) url) in
  let r := trySetFromURL state id k param (Some hd) true w in
  fst r = Ok tt
  /\ field id k (snd r)
     = Arr (imap (fun i e => resolve hd e param (Some i)) elems
            ++ drop (length elems) old).
Proof.
  intros Hm Hs He Hd Hds Hall Hne Hf Hc state r. subst r state.
  pose proof (hydrate_entries_uncached id k param hd elems old w Hs He Hd Hds Hall Hf Hc)
    as Hgo. cbv zeta in Hgo.
  unfold trySetFromURL. rewrite state_after_write, (parameterize_list hd elems Hm).
  cbn [written]. unfold supportsMultiple. rewrite Hm.
  destruct (map (fun e => encode hd (serialize hd e)) elems) as [|a [|a' encs']] eqn:Ee;
    cbn [entry_of]; [|exact Hgo|exact Hgo].
  now destruct elems.
Qed.
Lemma surplus_elements_witness :
  field 0 "tags" loaded_tags_world = Arr [Str "js"; Str "ts"]
  /\ let state := getURLState
                    (modifySearchParam "tags"
                       (parameterize (Arr [Str "go"]) tags_list_handler) []) in
     let r := trySetFromURL state 0 "tags" "tags" (Some tags_list_handler) true
                loaded_tags_world in
     fst r = Ok tt /\ field 0 "tags" (snd r) = Arr [Str "go"; Str "ts"].
Proof.
  split; [reflexivity|].
  assert (H : [Str "go"] <> []) by discriminate.
  exact (uncached_hydration_keeps_surplus_elements tags_list_handler 0 "tags" "tags"
           [Str "go"] [Str "js"; Str "ts"] [] loaded_tags_world
           eq_refl eq_refl eq_refl eq_refl eq_refl eq_refl H eq_refl eq_refl).
Defined.


(** ** Hydration at setup *)

Lemma field_update_binding_wiring id k f w :
  (forall b, target (f b) = target b) ->
  field id k (update_binding id f w) = field id k w.
Proof.
  intros Hf. unfold field, update_binding.
  destruct (bindings w !! id) as [b|] eqn:Hb; [|now rewrite Hb].
  cbn. rewrite list_lookup_insert_eq by (now apply lookup_lt_Some in Hb).
  now rewrite Hf.
Qed.

(** X15.  Setting up a field whose key is free and occurs once in the URL
    hydrates the field: [setupEffect] returns, the field holds what the
    handler's [decode], [deserialize] and [resolve] make of the URL's
    value, the value is cached, and the handler owns the key. *)
Theorem setup_hydrates_the_field
  (id : nat) (name : string) (h : ParameterHandler) (b : Binding) (w : World)
  (url : URLSearchParams.t) (v : string) (x : Value) :
  bindings w !! id = Some b ->
  let handler := verbosify h name (options b) in
  handlerByParam w !! key handler = None ->
  cached (key handler) w = None ->
  previousKeys handler = None ->
  entries handler = Single ->
  URLSearchParams.getAll (key handler) url = [v] ->
  evaluate handler v (key handler) None = Some x ->
  let r := setupEffect id name h (getURLState url) w in
  fst r = Ok tt
  /\ field id name (snd r) = x
  /\ cached (key handler) (snd r) = Some (cachify (key handler) [v])
  /\ handlerByParam (snd r) !! key handler = Some handler
  /\ navigations (snd r) = navigations w.
Proof.
  intros Hb handler Hfree Hc Hp He Hv Hx r.
  set (w1 := update_binding id
               (fun b0 => with_paramByKey (map_set name (key handler) (paramByKey b0)) b0)
               (set_handlerByParam (<[key handler := handler]> (handlerByParam w)) w)).
  assert (Hb1 : is_Some (bindings w1 !! id)).
  { subst w1. unfold update_binding. cbn. rewrite Hb. cbn.
    rewrite list_lookup_insert_eq by (now apply lookup_lt_Some in Hb). eauto. }
  assert (Hc1 : cached (key handler) w1 = None).
  { subst w1. unfold update_binding. cbn. now rewrite Hb. }
  assert (Hh1 : handlerByParam w1 = <[key handler := handler]> (handlerByParam w)).
  { subst w1. unfold update_binding. cbn. now rewrite Hb. }
  assert (Hn1 : navigations w1 = navigations w).
  { subst w1. unfold update_binding. cbn. now rewrite Hb. }
  assert (E : exists f, (forall b0, target (f b0) = target b0)
              /\ r = (Ok tt,
                      update_binding id f
                        (cache (key handler) (cachify (key handler) [v])
                           (record_assignment
                              {| as_binding := id; as_field := name; as_index := None;
                                 as_value := x |}
                              (set_field id name x w1))))).
  { eexists. split; [|subst r; unfold setupEffect; rewrite Hb; fold handler;
      unfold bind at 1; rewrite safeSetHandler_fresh by exact Hfree;
      unfold bind at 1, exec at 1; fold w1; clearbody w1;
      unfold bind at 1; unfold tryProcessHistoricalKeys; rewrite Hp; unfold ret at 1;
      unfold bind at 1; unfold trySetFromURL;
      rewrite getURLState_lookup, Hv; cbn [entry_of];
      unfold supportsMultiple; rewrite He;
      unfold hydrate_single; rewrite Hc1; cbn [URLSearchParams.of_init];
      unfold URLSearchParams.get; rewrite getAll_nil; cbn [head];
      rewrite bool_decide_eq_false_2 by discriminate; rewrite Hx;
      unfold exec; reflexivity].
    reflexivity. }
  destruct E as (f & Hf & ->). clearbody w1. cbn [fst snd].
  assert (U : forall w0, cached (key handler) (update_binding id f w0) = cached (key handler) w0
                         /\ handlerByParam (update_binding id f w0) = handlerByParam w0
                         /\ navigations (update_binding id f w0) = navigations w0).
  { intros w0. unfold update_binding. now destruct (bindings w0 !! id). }
  destruct (U (cache (key handler) (cachify (key handler) [v])
                 (record_assignment
                    {| as_binding := id; as_field := name; as_index := None;
                       as_value := x |}
                    (set_field id name x w1)))) as (-> & -> & ->).
  split; [reflexivity|]. split; [|split; [|split]].
  - rewrite field_update_binding_wiring by exact Hf.
    rewrite field_cache, field_record. now apply field_set_field_same.
  - unfold cached, cache. cbn. apply lookup_insert_eq.
  - cbn. unfold set_field, update_binding. destruct (bindings w1 !! id); cbn;
      rewrite Hh1; apply lookup_insert_eq.
  - cbn. unfold set_field, update_binding. destruct (bindings w1 !! id); cbn; exact Hn1.
Qed.

Lemma setup_hydrates_witness :
  bindings loading_world !! 0%nat = Some second_binding
  /\ URLSearchParams.getAll "a_x" (location loading_world) = ["42"]
  /\ let r := setupEffect 0 "x" (BareResolve identity)
                (getURLState (location loading_world)) loading_world in
     fst r = Ok tt
     /\ field 0 "x" (snd r) = Num (Int 42)
     /\ cached "a_x" (snd r) = Some "a_x=42"
     /\ navigations (snd r) = [].
Proof.
  split; [reflexivity|]. split; [reflexivity|].
  destruct (setup_hydrates_the_field 0 "x" (BareResolve identity) second_binding
              loading_world (location loading_world) "42" (Num (Int 42))
              eq_refl eq_refl eq_refl eq_refl eq_refl eq_refl eq_refl)
    as (H1 & H2 & H3 & _ & H5).
  cbv zeta. split; [exact H1|]. split; [exact H2|]. split; [exact H3 | exact H5].
Defined.



(** ** Disposal *)

Lemma onURLChange_loop_assigns_own state id entries w :
  exists extra,
    assignments (after (onURLChange_loop state id entries) w) = assignments w ++ extra
    /\ Forall (fun a => as_binding a = id) extra.
Proof.
  revert w. induction entries as [|[k p] entries IH]; intros w.
  - exists []. cbn. now rewrite app_nil_r.
  - cbn [onURLChange_loop]. unfold after, bind.
    destruct (touches_trySetFromURL state id k p None true w) as (_ & e1 & He1 & Hf1).
    unfold after in He1.
    destruct (trySetFromURL state id k p None true w) as [[[]|e] w1]; cbn [snd] in *.
    + destruct (IH w1) as (e2 & He2 & Hf2). unfold after in He2.
      exists (e1 ++ e2). rewrite He2, He1, app_assoc. split; [reflexivity|].
      apply Forall_app. split; [|exact Hf2].
      eapply Forall_impl; [exact Hf1|]. now intros a [Ha _].
    + exists e1. split; [exact He1|].
      eapply Forall_impl; [exact Hf1|]. now intros a [Ha _].
Qed.

Lemma dispatch_assigns_through_listeners state ids w :
  exists extra,
    assignments (dispatch state ids w) = assignments w ++ extra
    /\ Forall (fun a => exists b, bindings w !! as_binding a = Some b
                                  /\ listening b = true) extra.
Proof.
  revert w. induction ids as [|id ids IH]; intros w.
  - exists []. cbn. split; [now rewrite app_nil_r | constructor].
  - cbn [dispatch].
    set (w' := match bindings w !! id with
               | Some b => if listening b then after (onURLChange state id) w else w
               | None => w
               end).
    assert (Q : quiet w w').
    { subst w'. destruct (bindings w !! id) as [b|]; [|apply quiet_refl].
      destruct (listening b); [apply quiet_onURLChange | apply quiet_refl]. }
    assert (H1 : exists e1, assignments w' = assignments w ++ e1
                 /\ Forall (fun a => exists b, bindings w !! as_binding a = Some b
                                               /\ listening b = true) e1).
    { subst w'. destruct (bindings w !! id) as [b|] eqn:Hb;
        [|exists []; split; [now rewrite app_nil_r | constructor]].
      destruct (listening b) eqn:Hl;
        [|exists []; split; [now rewrite app_nil_r | constructor]].
      unfold onURLChange, after. rewrite Hb.
      destruct (onURLChange_loop_assigns_own state id (paramByKey b) w) as (e1 & He & Hf).
      exists e1. split; [exact He|].
      eapply Forall_impl; [exact Hf|]. intros a ->. now exists b. }
    destruct H1 as (e1 & He1 & Hf1). destruct (IH w') as (e2 & He2 & Hf2).
    exists (e1 ++ e2). rewrite He2, He1, app_assoc. split; [reflexivity|].
    apply Forall_app. split; [exact Hf1|].
    eapply Forall_impl; [exact Hf2|]. intros a (b' & Hb' & Hl').
    destruct (wiring_lookup _ _ _ _ (eq_sym (q_bindings _ _ Q)) Hb') as (b & Hb & Hw).
    exists b. split; [exact Hb|].
    apply (f_equal listening) in Hw. cbn in Hw. congruence.
Qed.

Lemma externalNavigation_assigns_through_listeners url w :
  exists extra,
    assignments (externalNavigation url w) = assignments w ++ extra
    /\ Forall (fun a => exists b, bindings w !! as_binding a = Some b
                                  /\ listening b = true) extra.
Proof.
  unfold externalNavigation.
  destruct (setupComplete w);
    [|exists []; split; [cbn; now rewrite app_nil_r | constructor]].
  match goal with |- context [emit ?w1] => 
    destruct (dispatch_assigns_through_listeners (getURLState (location w1))
                (seq 0 (length (bindings w1))) w1) as (extra & He & Hf)
  end.
  exists extra. split; [exact He | exact Hf].
Qed.

Lemma fold_globals_delete_frame (ps : list (string * string)) :
  forall w,
    setupComplete w = true ->
    let w' := fold_left (fun w0 kp => globals_delete (snd kp) w0) ps w in
    map wiring (bindings w') = map wiring (bindings w)
    /\ forall q, q ∉ map snd ps ->
         handlerByParam w' !! q = handlerByParam w !! q
         /\ URLSearchParams.getAll q (location w') = URLSearchParams.getAll q (location w)
         /\ Debounce.callbacks (debouncer w') !! q
            = Debounce.callbacks (debouncer w) !! q.
Proof.
  induction ps as [|[k p] ps IH]; intros w Hs; cbn [fold_left snd].
  - split; [reflexivity | now intros q _].
  - destruct (IH (globals_delete p w) (setupComplete_globals_delete p w Hs)) as [Hw Hq].
    split; [now rewrite Hw, wiring_globals_delete|].
    intros q Hin. cbn [map snd] in Hin. apply not_elem_of_cons in Hin as [Hne Hin].
    destruct (Hq q Hin) as (H1 & H2 & H3). rewrite H1, H2, H3.
    rewrite handlerByParam_globals_delete, location_globals_delete,
      debouncer_globals_delete, callbacks_clear by exact Hs.
    rewrite !lookup_delete_ne by congruence. rewrite getAll_delete.
    destruct (String.eqb_spec q p); [congruence | now repeat split].
Qed.

(** X17.  Disposal is final.  Once a binding is disposed it has no names
    left and no listener; disposing it again changes nothing, and no later
    change of the URL is assigned through it. *)
Theorem dispose_is_final (id : nat) (b : Binding) (w : World) :
  bindings w !! id = Some b ->
  disposed b = false ->
  setupComplete w = true ->
  let w' := dispose id w in
  dispose id w' = w'
  /\ (exists b', bindings w' !! id = Some b' /\ disposed b' = true
                 /\ listening b' = false /\ paramByKey b' = [])
  /\ forall url, exists extra,
       assignments (externalNavigation url w') = assignments w' ++ extra
       /\ Forall (fun a => as_binding a <> id) extra.
Proof.
  intros Hb Hd Hs w'.
  assert (Hb' : exists b', bindings w' !! id = Some b' /\ disposed b' = true
                           /\ listening b' = false /\ paramByKey b' = []).
  { subst w'. unfold dispose. rewrite Hb, Hd.
    set (w1 := update_binding id (with_disposed true) w).
    assert (Hs1 : setupComplete w1 = true).
    { subst w1. unfold update_binding. now rewrite Hb. }
    assert (Hb1 : bindings w1 !! id = Some (with_disposed true b)).
    { subst w1. unfold update_binding. rewrite Hb. cbn.
      apply list_lookup_insert_eq. now apply lookup_lt_Some in Hb. }
    destruct (fold_globals_delete_frame (paramByKey b) w1 Hs1) as [Hw _].
    set (w2 := fold_left _ _ w1) in *.
    destruct (wiring_lookup _ _ _ _ Hw Hb1) as (b2 & Hb2 & Hw2).
    unfold update_binding. rewrite Hb2. cbn.
    rewrite list_lookup_insert_eq by (now apply lookup_lt_Some in Hb2).
    eexists. split; [reflexivity|]. cbn.
    apply (f_equal disposed) in Hw2. cbn in Hw2. now rewrite Hw2. }
  destruct Hb' as (b' & Hb' & Hd' & Hl' & Hp').
  split; [|split].
  - unfold dispose at 1. now rewrite Hb', Hd'.
  - now exists b'.
  - intros url.
    destruct (externalNavigation_assigns_through_listeners url w') as (extra & He & Hf).
    exists extra. split; [exact He|].
    eapply Forall_impl; [exact Hf|]. intros a (b0 & Hb0 & Hl0) E.
    rewrite E in Hb0. congruence.
Qed.

Lemma dispose_is_final_witness :
  let w' := dispose 0 xy_world in
  dispose 0 w' = w'
  /\ (exists b', bindings w' !! 0%nat = Some b' /\ disposed b' = true
                 /\ listening b' = false /\ paramByKey b' = [])
  /\ forall url, exists extra,
       assignments (externalNavigation url w') = assignments w' ++ extra
       /\ Forall (fun a => as_binding a <> 0%nat) extra.
Proof.
  exact (dispose_is_final 0 xy_binding xy_world eq_refl eq_refl eq_refl).
Defined.

(** X18.  Disposal takes away the binding's own parameters only: every
    other name keeps its handler in the registry, its values in the URL
    and its pending debounce callback. *)
Theorem dispose_leaves_other_parameters (id : nat) (b : Binding) (w : World) (q : string) :
  bindings w !! id = Some b ->
  disposed b = false ->
  setupComplete w = true ->
  q ∉ map snd (paramByKey b) ->
  let w' := dispose id w in
  handlerByParam w' !! q = handlerByParam w !! q
  /\ URLSearchParams.getAll q (location w') = URLSearchParams.getAll q (location w)
  /\ Debounce.callbacks (debouncer w') !! q = Debounce.callbacks (debouncer w) !! q.
Proof.
  intros Hb Hd Hs Hq w'. subst w'. unfold dispose. rewrite Hb, Hd.
  set (w1 := update_binding id (with_disposed true) w).
  assert (Hs1 : setupComplete w1 = true).
  { subst w1. unfold update_binding. now rewrite Hb. }
  destruct (fold_globals_delete_frame (paramByKey b) w1 Hs1) as [_ Hf].
  destruct (Hf q Hq) as (H1 & H2 & H3).
  set (w2 := fold_left _ _ w1) in *.
  assert (E : forall f, handlerByParam (update_binding id f w2) = handlerByParam w2
                        /\ location (update_binding id f w2) = location w2
                        /\ debouncer (update_binding id f w2) = debouncer w2).
  { intros f. unfold update_binding. now destruct (bindings w2 !! id). }
  destruct (E (fun b' => with_listening false (with_paramByKey [] b'))) as (-> & -> & ->).
  rewrite H1, H2, H3. subst w1. unfold update_binding. now rewrite Hb.
Qed.

Lemma dispose_leaves_other_parameters_witness :
  ("q" ∉ map snd (paramByKey xy_binding))
  /\ URLSearchParams.getAll "q" (location (dispose 0 three_params_world)) = ["svelte"].
Proof.
  assert (H : "q" ∉ map snd (paramByKey xy_binding)).
  { cbn. rewrite !not_elem_of_cons. repeat split; try discriminate. apply not_elem_of_nil. }
  split; [exact H|].
  exact (proj1 (proj2 (dispose_leaves_other_parameters 0 xy_binding three_params_world "q"
                         eq_refl eq_refl eq_refl H))).
Defined.

Section DebounceFacts.
Context {K : Type} `{Countable K} {CB : Type}.
Implicit Types (d : Debounce.t K CB) (tm : Debounce.Timer K) (key : K).

Lemma elem_of_pending_clearTimeout tm h d :
  tm ∈ Debounce.pending (Debounce.clearTimeout h d)
  <-> tm ∈ Debounce.pending d /\ h <> Some (Debounce.handle tm).
Proof.
  destruct h as [h|]; cbn.
  - rewrite list_elem_of_filter. split; intros [H1 H2]; (split; [assumption || congruence|]);
      assumption || congruence.
  - split; [now intros | now intros []].
Qed.

Lemma elem_of_pending_clear tm key d :
  tm ∈ Debounce.pending (Debounce.clear key d)
  <-> tm ∈ Debounce.pending d
      /\ Debounce.idleTimers d !! key <> Some (Debounce.handle tm)
      /\ Debounce.maxTimers d !! key <> Some (Debounce.handle tm).
Proof.
  unfold Debounce.clear. cbn [Debounce.pending].
  rewrite !elem_of_pending_clearTimeout.
  assert (E : Debounce.maxTimers (Debounce.clearTimeout (Debounce.idleTimers d !! key) d)
              = Debounce.maxTimers d)
    by (now destruct (Debounce.idleTimers d !! key)).
  rewrite E. tauto.
Qed.

Lemma clear_fields key d :
  Debounce.opts (Debounce.clear key d) = Debounce.opts d
  /\ Debounce.now (Debounce.clear key d) = Debounce.now d
  /\ Debounce.nextHandle (Debounce.clear key d) = Debounce.nextHandle d
  /\ Debounce.idleTimers (Debounce.clear key d) = delete key (Debounce.idleTimers d)
  /\ Debounce.maxTimers (Debounce.clear key d) = delete key (Debounce.maxTimers d)
  /\ Debounce.callbacks (Debounce.clear key d) = delete key (Debounce.callbacks d).
Proof.
  unfold Debounce.clear, Debounce.clearTimeout.
  destruct (Debounce.idleTimers d !! key); cbn;
    destruct (Debounce.maxTimers d !! key); cbn; repeat split; reflexivity.
Qed.

(** After [clear(key)] no armed timeout flushes the key. *)
Lemma clear_disarms key d tm :
  tidy d -> tm ∈ Debounce.pending (Debounce.clear key d) -> Debounce.flushes tm <> key.
Proof.
  intros (_ & Hreg & _) Hin E.
  apply elem_of_pending_clear in Hin as (Hin & Hi & Hm).
  destruct (Hreg tm Hin) as [_ [Hr|Hr]]; rewrite E in Hr; contradiction.
Qed.

Lemma tidy_clear key d : tidy d -> tidy (Debounce.clear key d).
Proof.
  intros T. pose proof T as (Ho & Hreg & Hown).
  destruct (clear_fields key d) as (Eo & _ & En & Ei & Em & _).
  unfold tidy. rewrite Eo, En, Ei, Em. split; [exact Ho|]. split.
  - intros tm Hin. pose proof (clear_disarms key d tm T Hin) as Hne.
    apply elem_of_pending_clear in Hin as (Hin & _).
    destruct (Hreg tm Hin) as [Hlt Hr]. split; [exact Hlt|].
    rewrite !lookup_delete_ne by congruence. exact Hr.
  - intros k h Hk.
    assert (Hk' : Debounce.idleTimers d !! k = Some h \/ Debounce.maxTimers d !! k = Some h).
    { destruct Hk as [Hk|Hk]; apply lookup_delete_Some in Hk as [_ Hk]; auto. }
    destruct (Hown k h Hk') as [Hlt Hf]. split; [exact Hlt|].
    intros tm Hin. apply elem_of_pending_clear in Hin as (Hin & _). now apply Hf.
Qed.

Lemma tidy_fire tm d : tidy d -> tidy (snd (fire tm d)).
Proof.
  intros (Ho & Hreg & Hown). unfold fire, Debounce.flush. cbn [snd].
  apply tidy_clear. unfold tidy, Debounce.drop_timer. cbn.
  split; [exact Ho|]. split.
  - intros tm' Hin. apply list_elem_of_filter in Hin as [_ Hin]. now apply Hreg.
  - intros k h Hk. destruct (Hown k h Hk) as [Hlt Hf]. split; [exact Hlt|].
    intros tm' Hin. apply list_elem_of_filter in Hin as [_ Hin]. now apply Hf.
Qed.

Lemma enqueue_ok key cb config d d' :
  Debounce.enqueue key cb config d = Ok d' ->
  let idle := match config with
              | Some c => Debounce.idleMs c
              | None => Debounce.idleMs (Debounce.opts d)
              end in
  let maxWait := match config with
                 | Some c => Debounce.maxWaitMs c
                 | None => Debounce.maxWaitMs (Debounce.opts d)
                 end in
  let d1 := Debounce.clear key d in
  let hi := Debounce.nextHandle d in
  (match config with Some c => Debounce.idleMs c <= Debounce.maxWaitMs c | None => True end)
  /\ d' = {| Debounce.opts := Debounce.opts d;
             Debounce.maxTimers := <[key := S hi]> (Debounce.maxTimers d1);
             Debounce.idleTimers := <[key := hi]> (Debounce.idleTimers d1);
             Debounce.callbacks := <[key := cb]> (Debounce.callbacks d1);
             Debounce.now := Debounce.now d;
             Debounce.nextHandle := S (S hi);
             Debounce.pending :=
               (Debounce.pending d1
                ++ [{| Debounce.handle := hi;
                       Debounce.due := Debounce.now d + Debounce.delay idle;
                       Debounce.flushes := key |}])
               ++ [{| Debounce.handle := S hi;
                      Debounce.due := Debounce.now d + Debounce.delay maxWait;
                      Debounce.flushes := key |}] |}.
Proof.
  intros E0 idle maxWait d1 hi. revert E0. unfold Debounce.enqueue.
  destruct (clear_fields key d) as (Eo & Enow & En & _).
  assert (Hv : match config with
               | Some c => Debounce.ValidateConfig c
               | None => Ok tt
               end = Ok tt ->
               match config with
               | Some c => Debounce.idleMs c <= Debounce.maxWaitMs c
               | None => True
               end).
  { destruct config as [c|]; [|trivial]. unfold Debounce.ValidateConfig.
    destruct (Z.ltb_spec (Debounce.maxWaitMs c) (Debounce.idleMs c));
      intros E; [discriminate E | lia]. }
  destruct (match config with Some c => Debounce.ValidateConfig c | None => Ok tt end)
    as [[]|e]; [|intros E; discriminate E].
  unfold Debounce.setTimeout. cbn. fold d1. intros E. injection E as <-.
  split; [now apply Hv|]. subst d1 hi idle maxWait.
  unfold Debounce.clear, Debounce.clearTimeout.
  destruct (Debounce.idleTimers d !! key); cbn;
    destruct (Debounce.maxTimers d !! key); reflexivity.
Qed.

Lemma tidy_enqueue key cb config d d' :
  tidy d -> Debounce.enqueue key cb config d = Ok d' -> tidy d'.
Proof.
  intros T E. destruct (enqueue_ok key cb config d d' E) as [_ ->].
  pose proof (tidy_clear key d T) as (Ho & Hreg & Hown).
  destruct (clear_fields key d) as (Eo & _ & En & _).
  rewrite Eo in Ho. rewrite En in Hreg, Hown.
  unfold tidy. cbn. split; [exact Ho|]. split.
  - intros tm Hin. rewrite !elem_of_app, !list_elem_of_singleton in Hin.
    destruct Hin as [[Hin | ->] | ->]; cbn.
    + pose proof (clear_disarms key d tm T Hin) as Hne.
      destruct (Hreg tm Hin) as [Hlt Hr]. split; [lia|].
      rewrite !lookup_insert_ne by congruence. exact Hr.
    + split; [lia|]. left. apply lookup_insert_eq.
    + split; [lia|]. right. apply lookup_insert_eq.
  - intros k h Hk.
    destruct (decide (k = key)) as [->|Hne].
    + rewrite !lookup_insert_eq in Hk.
      split; [destruct Hk as [Hk|Hk]; injection Hk as <-; lia|].
      intros tm Hin Hh. rewrite !elem_of_app, !list_elem_of_singleton in Hin.
      destruct Hin as [[Hin | ->] | ->]; [|reflexivity|reflexivity].
      destruct (Hreg tm Hin) as [Hlt _].
      destruct Hk as [Hk|Hk]; injection Hk as <-; lia.
    + rewrite !lookup_insert_ne in Hk by congruence.
      destruct (Hown k h Hk) as [Hlt Hf]. split; [lia|].
      intros tm Hin Hh. rewrite !elem_of_app, !list_elem_of_singleton in Hin.
      destruct Hin as [[Hin | ->] | ->]; cbn in Hh; [now apply Hf | lia | lia].
Qed.


Lemma earlier_refl tm : Debounce.earlier tm tm = true.
Proof.
  unfold Debounce.earlier. rewrite Z.eqb_refl, Nat.leb_refl. apply orb_true_r.
Qed.

Lemma earlier_spec (a b : Debounce.Timer K) :
  Debounce.earlier a b = true
  <-> Debounce.due a < Debounce.due b
      \/ (Debounce.due a = Debounce.due b
          /\ (Debounce.handle a <= Debounce.handle b)%nat).
Proof.
  unfold Debounce.earlier.
  rewrite orb_true_iff, andb_true_iff, Z.ltb_lt, Z.eqb_eq, Nat.leb_le. reflexivity.
Qed.

Lemma next_timer_none (l : list (Debounce.Timer K)) :
  Debounce.next_timer l = None -> l = [].
Proof.
  destruct l as [|a r]; [reflexivity|]. cbn. now destruct (Debounce.next_timer r).
Qed.

(** The timeout that fires next is armed, and none is due before it. *)
Lemma next_timer_first (l : list (Debounce.Timer K)) tm :
  Debounce.next_timer l = Some tm ->
  tm ∈ l /\ forall x, x ∈ l -> Debounce.earlier tm x = true.
Proof.
  revert tm. induction l as [|a r IH]; intros tm; cbn [Debounce.next_timer];
    [discriminate|].
  destruct (Debounce.next_timer r) as [b|] eqn:Er.
  - destruct (IH b eq_refl) as [Hb Hmin]. intros E. injection E as <-.
    destruct (Debounce.earlier a b) eqn:Eab.
    + split; [now left|]. intros x Hx. apply elem_of_cons in Hx as [->|Hx];
        [apply earlier_refl|].
      specialize (Hmin x Hx). apply earlier_spec in Eab, Hmin. apply earlier_spec. lia.
    + split; [now right|]. intros x Hx. apply elem_of_cons in Hx as [->|Hx];
        [|now apply Hmin].
      apply earlier_spec. destruct (decide (Debounce.due b < Debounce.due a)); [now left|].
      right. assert (Hn : ~ (Debounce.due a < Debounce.due b
                             \/ (Debounce.due a = Debounce.due b
                                 /\ (Debounce.handle a <= Debounce.handle b)%nat))).
      { rewrite <- earlier_spec. now rewrite Eab. }
      lia.
  - intros E. injection E as <-. split; [now left|].
    intros x Hx. apply next_timer_none in Er as ->.
    apply list_elem_of_singleton in Hx as ->. apply earlier_refl.
Qed.

Lemma pending_fire_subset tm d tm' :
  tm' ∈ Debounce.pending (snd (fire tm d)) -> tm' ∈ Debounce.pending d.
Proof.
  unfold fire, Debounce.flush. cbn [snd]. intros Hin.
  apply elem_of_pending_clear in Hin as [Hin _].
  unfold Debounce.drop_timer in Hin. cbn in Hin.
  now apply list_elem_of_filter in Hin as [_ Hin].
Qed.

Lemma length_clearTimeout h d :
  (length (Debounce.pending (Debounce.clearTimeout h d)) <= length (Debounce.pending d))%nat.
Proof.
  destruct h; cbn; [apply length_filter | lia].
Qed.

Lemma length_pending_fire tm d :
  tm ∈ Debounce.pending d ->
  (length (Debounce.pending (snd (fire tm d))) < length (Debounce.pending d))%nat.
Proof.
  intros Hin. unfold fire, Debounce.flush, Debounce.clear. cbn [snd Debounce.pending].
  eapply Nat.le_lt_trans; [apply length_clearTimeout|].
  eapply Nat.le_lt_trans; [apply length_clearTimeout|].
  unfold Debounce.drop_timer. cbn.
  apply length_filter_lt with (x := tm); [exact Hin | now intros []].
Qed.

Lemma run_timers_step fuel limit d tm :
  Debounce.next_timer (Debounce.pending d) = Some tm ->
  Debounce.due tm <= limit ->
  Debounce.run_timers (S fuel) limit d
  = (match fst (fire tm d) with
     | Some c =>
         [{| Debounce.at_time := Z.max (Debounce.now d) (Debounce.due tm);
             Debounce.for_key := Debounce.flushes tm; Debounce.ran := c |}]
     | None => []
     end ++ fst (Debounce.run_timers fuel limit (snd (fire tm d))),
     snd (Debounce.run_timers fuel limit (snd (fire tm d)))).
Proof.
  intros En Hd. cbn [Debounce.run_timers]. rewrite En.
  rewrite (proj2 (Z.leb_le _ _) Hd).
  unfold fire, Debounce.flush. cbn [fst snd].
  destruct (Debounce.run_timers fuel limit _) as [log d3]. cbn [fst snd].
  now destruct (Debounce.callbacks _ !! _).
Qed.

(** A key that no armed timeout flushes has no callback run. *)
Lemma run_timers_silent key fuel limit :
  forall d,
    (forall tm, tm ∈ Debounce.pending d -> Debounce.flushes tm <> key) ->
    Forall (fun f => Debounce.for_key f <> key) (fst (Debounce.run_timers fuel limit d)).
Proof.
  induction fuel as [|fuel IH]; intros d Hno; [constructor|].
  destruct (Debounce.next_timer (Debounce.pending d)) as [tm|] eqn:En;
    [|cbn [Debounce.run_timers]; rewrite En; constructor].
  destruct (Z.leb_spec (Debounce.due tm) limit) as [Hd|Hd];
    [|cbn [Debounce.run_timers]; rewrite En, (proj2 (Z.leb_gt _ _) Hd); constructor].
  rewrite (run_timers_step fuel limit d tm En Hd). cbn [fst].
  apply Forall_app. split.
  - destruct (fst (fire tm d)); constructor; [|constructor]. cbn.
    apply Hno. now apply next_timer_first.
  - apply IH. intros tm' Hin. apply Hno. now apply (pending_fire_subset tm d).
Qed.


Lemma tidy_drop tm d :
  tidy d ->
  tidy (Debounce.drop_timer (Debounce.handle tm)
          (Debounce.set_clock (Z.max (Debounce.now d) (Debounce.due tm)) d)).
Proof.
  intros (Ho & Hreg & Hown). unfold tidy, Debounce.drop_timer. cbn.
  split; [exact Ho|]. split.
  - intros tm' Hin. apply list_elem_of_filter in Hin as [_ Hin]. now apply Hreg.
  - intros k h Hk. destruct (Hown k h Hk) as [Hlt Hf]. split; [exact Hlt|].
    intros tm' Hin. apply list_elem_of_filter in Hin as [_ Hin]. now apply Hf.
Qed.

Lemma fire_disarms tm d tm' :
  tidy d -> tm' ∈ Debounce.pending (snd (fire tm d)) ->
  Debounce.flushes tm' <> Debounce.flushes tm.
Proof.
  intros T Hin. unfold fire, Debounce.flush in Hin. cbn [snd] in Hin.
  eapply clear_disarms; [|exact Hin]. now apply tidy_drop.
Qed.

(** A timeout of another key outlives the firing. *)
Lemma fire_keeps_other tm d tm' :
  tidy d -> tm ∈ Debounce.pending d -> tm' ∈ Debounce.pending d ->
  Debounce.flushes tm' <> Debounce.flushes tm ->
  tm' ∈ Debounce.pending (snd (fire tm d)).
Proof.
  intros (_ & Hreg & Hown) Hin Hin' Hne.
  assert (Hforeign : forall h,
            Debounce.idleTimers d !! Debounce.flushes tm = Some h
            \/ Debounce.maxTimers d !! Debounce.flushes tm = Some h ->
            Debounce.handle tm' <> h).
  { intros h Hk Eh. destruct (Hown _ h Hk) as [_ Hf]. now apply Hne, Hf. }
  unfold fire, Debounce.flush. cbn [snd]. apply elem_of_pending_clear.
  unfold Debounce.drop_timer. cbn. split; [|split].
  - apply list_elem_of_filter. split; [|exact Hin'].
    destruct (Hreg tm Hin) as [_ Hr]. now apply Hforeign.
  - intros E. eapply Hforeign; [left; exact E | reflexivity].
  - intros E. eapply Hforeign; [right; exact E | reflexivity].
Qed.

Lemma callbacks_fire tm d key :
  key <> Debounce.flushes tm ->
  Debounce.callbacks (snd (fire tm d)) !! key = Debounce.callbacks d !! key.
Proof.
  intros Hne. unfold fire, Debounce.flush. cbn [snd].
  destruct (clear_fields (Debounce.flushes tm)
              (Debounce.drop_timer (Debounce.handle tm)
                 (Debounce.set_clock (Z.max (Debounce.now d) (Debounce.due tm)) d)))
    as (_ & _ & _ & _ & _ & ->).
  now rewrite lookup_delete_ne by congruence.
Qed.

Lemma now_fire tm d :
  Debounce.now (snd (fire tm d)) = Z.max (Debounce.now d) (Debounce.due tm).
Proof.
  unfold fire, Debounce.flush. cbn [snd].
  destruct (clear_fields (Debounce.flushes tm)
              (Debounce.drop_timer (Debounce.handle tm)
                 (Debounce.set_clock (Z.max (Debounce.now d) (Debounce.due tm)) d)))
    as (_ & -> & _). reflexivity.
Qed.

Lemma filter_silent key (log : list (Debounce.Fired K CB)) :
  Forall (fun f => Debounce.for_key f <> key) log ->
  filter (fun f => Debounce.for_key f = key) log = [].
Proof.
  induction 1 as [|f log Hf _ IH]; [reflexivity|].
  now rewrite filter_cons_False.
Qed.

Lemma idleTimers_fire tm d key :
  key <> Debounce.flushes tm ->
  Debounce.idleTimers (snd (fire tm d)) !! key = Debounce.idleTimers d !! key.
Proof.
  intros Hne. unfold fire, Debounce.flush. cbn [snd].
  destruct (clear_fields (Debounce.flushes tm)
              (Debounce.drop_timer (Debounce.handle tm)
                 (Debounce.set_clock (Z.max (Debounce.now d) (Debounce.due tm)) d)))
    as (_ & _ & _ & -> & _).
  now rewrite lookup_delete_ne by congruence.
Qed.

(** Two timeouts of one key neither of which comes after the other are
    the same timeout. *)
Lemma earlier_antisym (a b : Debounce.Timer K) :
  Debounce.earlier a b = true -> Debounce.earlier b a = true ->
  Debounce.flushes a = Debounce.flushes b -> a = b.
Proof.
  intros Hab Hba Ek. apply earlier_spec in Hab, Hba.
  destruct a as [ha da ka], b as [hb db kb]. cbn in *.
  f_equal; [lia | lia | exact Ek].
Qed.

(** The first timeout of a key fires at its due time and runs the key's
    callback, once: timeouts of other keys that are due before it do not
    disturb it, and the key's other timeout is disarmed by the flush. *)
Lemma run_timers_fires_first key cb (first : Debounce.Timer K) fuel :
  Debounce.flushes first = key ->
  forall d,
    tidy d ->
    (length (Debounce.pending d) <= fuel)%nat ->
    first ∈ Debounce.pending d ->
    Debounce.callbacks d !! key = Some cb ->
    Debounce.now d <= Debounce.due first ->
    (forall tm, tm ∈ Debounce.pending d -> Debounce.flushes tm = key ->
       Debounce.earlier first tm = true) ->
    filter (fun f => Debounce.for_key f = key)
      (fst (Debounce.run_timers fuel (Debounce.due first) d))
    = [{| Debounce.at_time := Debounce.due first; Debounce.for_key := key;
          Debounce.ran := cb |}].
Proof.
  intros Hkey. induction fuel as [|fuel IH]; intros d T Hlen Hin Hcb Hnow Hlater.
  { destruct (Debounce.pending d); [now apply elem_of_nil in Hin | cbn in Hlen; lia]. }
  destruct (Debounce.next_timer (Debounce.pending d)) as [tm|] eqn:En;
    [|apply next_timer_none in En; rewrite En in Hin; now apply elem_of_nil in Hin].
  destruct (next_timer_first _ _ En) as [Htm Hmin].
  pose proof (Hmin first Hin) as Hfirst.
  assert (Hdue : Debounce.due tm <= Debounce.due first)
    by (apply earlier_spec in Hfirst; lia).
  rewrite (run_timers_step fuel _ d tm En Hdue). cbn [fst].
  rewrite filter_app.
  destruct (decide (Debounce.flushes tm = key)) as [Ek|Ek].
  - assert (tm = first) as ->
      by (apply earlier_antisym; [exact Hfirst | now apply Hlater | congruence]).
    unfold fire at 1, Debounce.flush. cbn [fst].
    unfold Debounce.drop_timer, Debounce.clearTimeout, Debounce.set_clock.
    cbn [Debounce.callbacks]. rewrite Hkey, Hcb.
    rewrite filter_cons_True by reflexivity. rewrite filter_nil.
    rewrite Z.max_r by lia.
    rewrite filter_silent; [reflexivity|].
    apply run_timers_silent. intros tm' Hin'. rewrite <- Hkey.
    now apply (fire_disarms first d).
  - assert (Hhead : filter (fun f => Debounce.for_key f = key)
                      match fst (fire tm d) with
                      | Some c =>
                          [{| Debounce.at_time := Z.max (Debounce.now d) (Debounce.due tm);
                              Debounce.for_key := Debounce.flushes tm;
                              Debounce.ran := c |}]
                      | None => []
                      end = []).
    { destruct (fst (fire tm d)); [|reflexivity].
      now rewrite filter_cons_False. }
    rewrite Hhead. cbn [app]. apply IH.
    + now apply tidy_fire.
    + pose proof (length_pending_fire tm d Htm). lia.
    + apply fire_keeps_other; try assumption. congruence.
    + rewrite callbacks_fire by congruence. exact Hcb.
    + rewrite now_fire. lia.
    + intros tm' Hin' Ek'. apply Hlater; [|exact Ek'].
      now apply (pending_fire_subset tm d).
Qed.

(** While none of a key's timeouts is due, the timer loop leaves the key
    as it is: no callback runs for it, its timeouts stay armed, and its
    callback and idle timer stay registered. *)
Lemma run_timers_keeps key fuel limit :
  forall d,
    tidy d ->
    (forall x, x ∈ Debounce.pending d -> Debounce.flushes x = key ->
               limit < Debounce.due x) ->
    Forall (fun f => Debounce.for_key f <> key) (fst (Debounce.run_timers fuel limit d))
    /\ (forall x, x ∈ Debounce.pending d -> Debounce.flushes x = key ->
                  x ∈ Debounce.pending (snd (Debounce.run_timers fuel limit d)))
    /\ Debounce.callbacks (snd (Debounce.run_timers fuel limit d)) !! key
       = Debounce.callbacks d !! key
    /\ Debounce.idleTimers (snd (Debounce.run_timers fuel limit d)) !! key
       = Debounce.idleTimers d !! key.
Proof.
  induction fuel as [|fuel IH]; intros d T Hlate.
  { cbn. split; [constructor|]. split; [now intros|]. split; reflexivity. }
  destruct (Debounce.next_timer (Debounce.pending d)) as [tm|] eqn:En;
    [|cbn [Debounce.run_timers]; rewrite En; cbn;
      split; [constructor|]; split; [now intros|]; split; reflexivity].
  destruct (Z.leb_spec (Debounce.due tm) limit) as [Hd|Hd];
    [|cbn [Debounce.run_timers]; rewrite En, (proj2 (Z.leb_gt _ _) Hd); cbn;
      split; [constructor|]; split; [now intros|]; split; reflexivity].
  destruct (next_timer_first _ _ En) as [Htm _].
  assert (Ek : Debounce.flushes tm <> key).
  { intros Ek. specialize (Hlate tm Htm Ek). lia. }
  rewrite (run_timers_step fuel limit d tm En Hd). cbn [fst snd].
  destruct (IH (snd (fire tm d)) (tidy_fire tm d T)) as (Hlog & Hkeep & Hcb & Hi).
  { intros x Hx. apply Hlate. now apply (pending_fire_subset tm d). }
  split; [|split; [|split]].
  - apply Forall_app. split; [|exact Hlog].
    destruct (fst (fire tm d)); constructor; [exact Ek | constructor].
  - intros x Hx Ex. apply Hkeep; [|exact Ex].
    apply fire_keeps_other; try assumption. congruence.
  - rewrite Hcb. apply callbacks_fire. congruence.
  - rewrite Hi. apply idleTimers_fire. congruence.
Qed.


(** *** The page-lifecycle listener *)

Lemma flush_keys_snd (keys : list K) :
  forall d, snd (Debounce.flush_keys keys d)
            = fold_left (fun d0 k => Debounce.clear k d0) keys d.
Proof.
  induction keys as [|k keys IH]; intros d; [reflexivity|].
  cbn [Debounce.flush_keys fold_left]. unfold Debounce.flush.
  rewrite <- IH. now destruct (Debounce.flush_keys keys (Debounce.clear k d)).
Qed.

Lemma flush_keys_cons k (keys : list K) d :
  fst (Debounce.flush_keys (k :: keys) d)
  = match Debounce.callbacks d !! k with
    | Some c => [{| Debounce.at_time := Debounce.now d; Debounce.for_key := k;
                    Debounce.ran := c |}]
    | None => []
    end ++ fst (Debounce.flush_keys keys (Debounce.clear k d)).
Proof.
  cbn [Debounce.flush_keys]. unfold Debounce.flush.
  destruct (Debounce.flush_keys keys (Debounce.clear k d)) as [log d2].
  now destruct (Debounce.callbacks d !! k).
Qed.

Lemma callbacks_clear_lookup k key d :
  Debounce.callbacks (Debounce.clear k d) !! key
  = if decide (k = key) then None else Debounce.callbacks d !! key.
Proof.
  destruct (clear_fields k d) as (_ & _ & _ & _ & _ & ->).
  destruct (decide (k = key)) as [->|Hne];
    [apply lookup_delete_eq | now apply lookup_delete_ne].
Qed.

Lemma now_after_clear k d : Debounce.now (Debounce.clear k d) = Debounce.now d.
Proof. now destruct (clear_fields k d) as (_ & -> & _). Qed.

(** A key without a callback has none run by the listener. *)
Lemma flush_keys_silent key (keys : list K) :
  forall d, Debounce.callbacks d !! key = None ->
            Forall (fun f => Debounce.for_key f <> key) (fst (Debounce.flush_keys keys d)).
Proof.
  induction keys as [|k keys IH]; intros d Hcb; [constructor|].
  rewrite flush_keys_cons. apply Forall_app. split.
  - destruct (Debounce.callbacks d !! k) eqn:Ek; constructor; [|constructor].
    cbn. intros ->. congruence.
  - apply IH. rewrite callbacks_clear_lookup. now destruct (decide (k = key)).
Qed.

(** A key with a callback has it run by the listener, once and at once. *)
Lemma flush_keys_fires key cb (keys : list K) :
  forall d,
    key ∈ keys ->
    Debounce.callbacks d !! key = Some cb ->
    filter (fun f => Debounce.for_key f = key) (fst (Debounce.flush_keys keys d))
    = [{| Debounce.at_time := Debounce.now d; Debounce.for_key := key;
          Debounce.ran := cb |}].
Proof.
  induction keys as [|k keys IH]; intros d Hin Hcb; [now apply elem_of_nil in Hin|].
  rewrite flush_keys_cons, filter_app.
  destruct (decide (k = key)) as [->|Hne].
  - rewrite Hcb. rewrite filter_cons_True by reflexivity. rewrite filter_nil.
    rewrite filter_silent; [reflexivity|].
    apply flush_keys_silent. rewrite callbacks_clear_lookup. now destruct (decide (key = key)).
  - assert (Hhead : filter (fun f => Debounce.for_key f = key)
                      match Debounce.callbacks d !! k with
                      | Some c => [{| Debounce.at_time := Debounce.now d;
                                      Debounce.for_key := k; Debounce.ran := c |}]
                      | None => []
                      end = []).
    { destruct (Debounce.callbacks d !! k); [|reflexivity].
      now rewrite filter_cons_False. }
    rewrite Hhead. cbn [app]. rewrite <- (now_after_clear k d). apply IH.
    + apply elem_of_cons in Hin as [->|Hin]; [contradiction | exact Hin].
    + rewrite callbacks_clear_lookup. now destruct (decide (k = key)).
Qed.

(** A key whose idle timeout is armed is one the listener flushes. *)
Lemma elem_of_callback_keys key (ti : Debounce.Timer K) d :
  ti ∈ Debounce.pending d ->
  Debounce.flushes ti = key ->
  Debounce.idleTimers d !! key = Some (Debounce.handle ti) ->
  key ∈ Debounce.callback_keys d.
Proof.
  intros Hin Ek Hi. unfold Debounce.callback_keys.
  apply list_elem_of_fmap. exists ti. split; [now rewrite Ek|].
  apply list_elem_of_filter. split; [now rewrite Ek | exact Hin].
Qed.

Lemma run_timers_keys (P : K -> Prop) fuel limit :
  forall d,
    (forall tm, tm ∈ Debounce.pending d -> P (Debounce.flushes tm)) ->
    Forall (fun f => P (Debounce.for_key f)) (fst (Debounce.run_timers fuel limit d)).
Proof.
  induction fuel as [|fuel IH]; intros d Hno; [constructor|].
  destruct (Debounce.next_timer (Debounce.pending d)) as [tm|] eqn:En;
    [|cbn [Debounce.run_timers]; rewrite En; constructor].
  destruct (Z.leb_spec (Debounce.due tm) limit) as [Hd|Hd];
    [|cbn [Debounce.run_timers]; rewrite En, (proj2 (Z.leb_gt _ _) Hd); constructor].
  rewrite (run_timers_step fuel limit d tm En Hd). cbn [fst].
  apply Forall_app. split.
  - destruct (fst (fire tm d)); constructor; [|constructor]. cbn.
    apply Hno. now apply next_timer_first.
  - apply IH. intros tm' Hin. apply Hno. now apply (pending_fire_subset tm d).
Qed.

Lemma fold_clear_disarms (keys : list K) :
  forall d,
    tidy d ->
    forall tm, tm ∈ Debounce.pending (fold_left (fun d0 k => Debounce.clear k d0) keys d) ->
               tm ∈ Debounce.pending d /\ Debounce.flushes tm ∉ keys.
Proof.
  induction keys as [|k keys IH]; intros d T tm Hin; cbn [fold_left] in Hin.
  - split; [exact Hin | apply not_elem_of_nil].
  - destruct (IH (Debounce.clear k d) (tidy_clear k d T) tm Hin) as [Hin' Hni].
    split; [now apply elem_of_pending_clear in Hin' as [? _]|].
    apply not_elem_of_cons. split; [|exact Hni].
    now apply (clear_disarms k d tm T).
Qed.

End DebounceFacts.

(** ** The debounce scheduler: cancelling *)

(** X20.  [clear(key)] cancels: afterwards the key has no callback, and
    however long the clock runs, no callback is invoked for it. *)
Theorem clear_cancels_the_callback {K : Type} `{Countable K} {CB : Type}
  (key : K) (d : Debounce.t K CB) (limit : Z) :
  tidy d ->
  Debounce.callbacks (Debounce.clear key d) !! key = None
  /\ Forall (fun f => Debounce.for_key f <> key)
       (fst (Debounce.advance limit (Debounce.clear key d))).
Proof.
  intros T. split.
  - destruct (clear_fields key d) as (_ & _ & _ & _ & _ & ->). apply lookup_delete_eq.
  - unfold Debounce.advance. apply run_timers_silent.
    intros tm. now apply clear_disarms.
Qed.

Lemma tidy_fresh_scheduler : tidy fresh_scheduler.
Proof.
  split; [cbn; lia|]. split.
  - intros tm Hin. now apply elem_of_nil in Hin.
  - intros key h [Hk|Hk]; cbn in Hk; now rewrite lookup_empty in Hk.
Qed.

Example armed_scheduler_is_enqueued :
  Debounce.enqueue "k" 7%nat (Some burst_config) fresh_scheduler = Ok armed_scheduler.
Proof. vm_compute. reflexivity. Qed.

Lemma tidy_armed_scheduler : tidy armed_scheduler.
Proof.
  exact (tidy_enqueue "k" 7%nat (Some burst_config) fresh_scheduler armed_scheduler
           tidy_fresh_scheduler armed_scheduler_is_enqueued).
Qed.

Lemma clear_cancels_witness :
  tidy armed_scheduler
  /\ Debounce.callbacks armed_scheduler !! "k" = Some 7%nat
  /\ Debounce.callbacks (Debounce.clear "k" armed_scheduler) !! "k" = None
  /\ Forall (fun f => Debounce.for_key f <> "k")
       (fst (Debounce.advance 1000 (Debounce.clear "k" armed_scheduler))).
Proof.
  split; [exact tidy_armed_scheduler|]. split; [reflexivity|].
  exact (clear_cancels_the_callback "k" armed_scheduler 1000 tidy_armed_scheduler).
Defined.







Section SchedulerInvariant.
Context {K : Type} `{Countable K} {CB : Type}.
Implicit Types (d : Debounce.t K CB).

Lemma tidy_create (o : Debounce.Config) (start : Z) d :
  Debounce.create o start = Ok d -> tidy d.
Proof.
  unfold Debounce.create, Debounce.ValidateConfig.
  destruct (Z.ltb_spec (Debounce.maxWaitMs o) (Debounce.idleMs o)); intros E;
    [discriminate E|].
  injection E as <-. split; [cbn; lia|]. split.
  - intros tm Hin. now apply elem_of_nil in Hin.
  - intros key h [Hk|Hk]; cbn in Hk; now rewrite lookup_empty in Hk.
Qed.

Lemma tidy_set_clock tm d : tidy d -> tidy (Debounce.set_clock tm d).
Proof. intros T. exact T. Qed.

Lemma tidy_run_timers fuel limit :
  forall d, tidy d -> tidy (snd (Debounce.run_timers fuel limit d)).
Proof.
  induction fuel as [|fuel IH]; intros d T; [exact T|].
  destruct (Debounce.next_timer (Debounce.pending d)) as [tm|] eqn:En;
    [|cbn [Debounce.run_timers]; rewrite En; exact T].
  destruct (Z.leb_spec (Debounce.due tm) limit) as [Hd|Hd];
    [|cbn [Debounce.run_timers]; rewrite En, (proj2 (Z.leb_gt _ _) Hd); exact T].
  rewrite (run_timers_step fuel limit d tm En Hd). cbn [snd].
  apply IH. now apply tidy_fire.
Qed.

(** The fuel of [advance] is enough: when it returns, no armed timeout is
    due. *)
Lemma run_timers_fires_all fuel limit :
  forall d,
    (length (Debounce.pending d) <= fuel)%nat ->
    forall tm, tm ∈ Debounce.pending (snd (Debounce.run_timers fuel limit d)) ->
               limit < Debounce.due tm.
Proof.
  induction fuel as [|fuel IH]; intros d Hlen tm Hin.
  - cbn in Hin. destruct (Debounce.pending d); [now apply elem_of_nil in Hin|].
    cbn in Hlen. lia.
  - destruct (Debounce.next_timer (Debounce.pending d)) as [t0|] eqn:En.
    + destruct (next_timer_first _ _ En) as [Ht0 Hmin].
      destruct (Z.leb_spec (Debounce.due t0) limit) as [Hd|Hd].
      * rewrite (run_timers_step fuel limit d t0 En Hd) in Hin. cbn [snd] in Hin.
        apply (IH (snd (fire t0 d))); [|exact Hin].
        pose proof (length_pending_fire t0 d Ht0). lia.
      * cbn [Debounce.run_timers] in Hin.
        rewrite En, (proj2 (Z.leb_gt _ _) Hd) in Hin. cbn in Hin.
        specialize (Hmin tm Hin). apply earlier_spec in Hmin. lia.
    + cbn [Debounce.run_timers] in Hin. rewrite En in Hin. cbn in Hin.
      apply next_timer_none in En. rewrite En in Hin. now apply elem_of_nil in Hin.
Qed.

End SchedulerInvariant.

(** ** The debounce scheduler: what it keeps true *)

(** X23.  The scheduler keeps its books.  The constructor establishes,
    and [enqueue], [clear], [flush] and the firing of timeouts preserve,
    that the default options are valid, that every armed timeout is
    registered under its key as idle or max timer, and that a registered
    handle belongs to no other key's timeout; and when the clock has
    advanced to a time, no timeout due by then is still armed. *)
Theorem scheduler_keeps_its_books {K : Type} `{Countable K} {CB : Type} :
  (forall o start (d : Debounce.t K CB), Debounce.create o start = Ok d -> tidy d)
  /\ (forall key (cb : CB) config (d d' : Debounce.t K CB),
        tidy d -> Debounce.enqueue key cb config d = Ok d' -> tidy d')
  /\ (forall key (d : Debounce.t K CB), tidy d -> tidy (Debounce.clear key d))
  /\ (forall key (d : Debounce.t K CB), tidy d -> tidy (snd (Debounce.flush key d)))
  /\ (forall limit (d : Debounce.t K CB),
        tidy d ->
        tidy (snd (Debounce.advance limit d))
        /\ forall tm, tm ∈ Debounce.pending (snd (Debounce.advance limit d)) ->
                      limit < Debounce.due tm).
Proof.
  split; [exact tidy_create|]. split; [exact tidy_enqueue|].
  split; [exact tidy_clear|]. split; [intros key d T; now apply tidy_clear|].
  intros limit d T. unfold Debounce.advance. split.
  - now apply tidy_run_timers.
  - now apply run_timers_fires_all.
Qed.

(** ** The debounce scheduler: when the callback runs *)

(** What [enqueue] leaves armed: the idle and the max timeout of the key,
    and nothing else for the key. *)
Lemma enqueue_arms {K : Type} `{Countable K} {CB : Type}
  (key : K) (cb : CB) (config : option Debounce.Config) (d d' : Debounce.t K CB) :
  tidy d ->
  Debounce.enqueue key cb config d = Ok d' ->
  let idle := match config with
              | Some c => Debounce.idleMs c
              | None => Debounce.idleMs (Debounce.opts d)
              end in
  let maxWait := match config with
                 | Some c => Debounce.maxWaitMs c
                 | None => Debounce.maxWaitMs (Debounce.opts d)
                 end in
  let ti := {| Debounce.handle := Debounce.nextHandle d;
               Debounce.due := Debounce.now d + Debounce.delay idle;
               Debounce.flushes := key |} in
  let tm := {| Debounce.handle := S (Debounce.nextHandle d);
               Debounce.due := Debounce.now d + Debounce.delay maxWait;
               Debounce.flushes := key |} in
  tidy d'
  /\ idle <= maxWait
  /\ ti ∈ Debounce.pending d'
  /\ tm ∈ Debounce.pending d'
  /\ Debounce.idleTimers d' !! key = Some (Debounce.handle ti)
  /\ Debounce.callbacks d' !! key = Some cb
  /\ Debounce.now d' = Debounce.now d
  /\ (forall x, x ∈ Debounce.pending d' -> Debounce.flushes x = key -> x = ti \/ x = tm).
Proof.
  intros T E idle maxWait ti tm.
  pose proof (tidy_enqueue key cb config d d' T E) as T'.
  destruct (enqueue_ok key cb config d d' E) as [Hv Ed].
  assert (Hle : idle <= maxWait).
  { subst idle maxWait. destruct config; [exact Hv | exact (proj1 T)]. }
  split; [exact T'|]. split; [exact Hle|]. split; [|split; [|split; [|split; [|split]]]].
  - rewrite Ed. cbn. rewrite !elem_of_app, !list_elem_of_singleton. left. now right.
  - rewrite Ed. cbn. rewrite !elem_of_app, !list_elem_of_singleton. now right.
  - rewrite Ed. cbn. apply lookup_insert_eq.
  - rewrite Ed. cbn. apply lookup_insert_eq.
  - rewrite Ed. reflexivity.
  - intros x Hin Ek. rewrite Ed in Hin. cbn in Hin.
    rewrite !elem_of_app, !list_elem_of_singleton in Hin.
    destruct Hin as [[Hin | ->] | ->]; [|now left|now right].
    exfalso. now apply (clear_disarms key d x T Hin).
Qed.

Lemma delay_nonneg ms : 0 <= Debounce.delay ms.
Proof. unfold Debounce.delay. lia. Qed.

(** A delay within the signed 32-bit range is waited for as it is. *)
Lemma delay_in_range ms : 0 <= ms < 2 ^ 31 -> Debounce.delay ms = ms.
Proof.
  intros Hr. unfold Debounce.delay, Debounce.to_int32.
  rewrite Z.mod_small by lia. lia.
Qed.




(** ** A change of prefix, in general *)

Lemma map_set_middle name v p (l1 l2 : list (string * string)) :
  name ∉ map fst l1 ->
  map_set name v (l1 ++ (name, p) :: l2) = l1 ++ (name, v) :: l2.
Proof.
  induction l1 as [|[k q] l1 IH]; intros Hn; cbn [app map_set fst].
  - now rewrite String.eqb_refl.
  - cbn [map fst] in Hn. apply not_elem_of_cons in Hn as [Hne Hn].
    rewrite (proj2 (String.eqb_neq k name)) by congruence. now rewrite IH.
Qed.

Lemma filter_uncached_frame values :
  forall w,
    let w' := snd (filter_uncached values w) in
    setupComplete w' = setupComplete w /\ navigations w' = navigations w
    /\ location w' = location w /\ bindings w' = bindings w.
Proof.
  induction values as [|[p v] values IH]; intros w; cbn [filter_uncached]; [now auto|].
  destruct (bool_decide _); [apply IH|].
  specialize (IH (cache p (cachify_value p v) w)). cbv zeta in IH.
  destruct (filter_uncached values _) as [kept w1]. exact IH.
Qed.

Lemma trySetURLParams_frame values behavior w :
  setupComplete w = true ->
  exists n,
    navigations (trySetURLParams values behavior w) = navigations w ++ [n]
    /\ nav_behavior n = behavior
    /\ map wiring (bindings (trySetURLParams values behavior w)) = map wiring (bindings w).
Proof.
  intros Hs. unfold trySetURLParams.
  destruct (filter_uncached_frame values w) as (Hs1 & Hn1 & _ & Hb1).
  destruct (filter_uncached values w) as [kept w1]. cbn [snd] in *.
  unfold batchTrigger. rewrite commit_installed by congruence.
  set (n := {| nav_behavior := behavior; nav_url := _ |}).
  pose proof (quiet_emit (navigate n w1)) as Q.
  exists n. rewrite (q_navigations _ _ Q), (q_bindings _ _ Q). cbn.
  rewrite Hn1, Hb1. now repeat split.
Qed.

Lemma updatePrefix_loop_spec id prefix :
  forall names updates w r w',
    setupComplete w = true ->
    updatePrefix_loop id prefix names updates w = (Ok r, w') ->
    setupComplete w' = true
    /\ (exists navs,
          navigations w' = navigations w ++ navs
          /\ length navs = length names
          /\ Forall (fun n => nav_behavior n = Replace) navs)
    /\ (forall b done,
          bindings w !! id = Some b ->
          paramByKey b = done ++ names ->
          NoDup (map fst (done ++ names)) ->
          exists b', bindings w' !! id = Some b'
                     /\ paramByKey b' = done ++ map (renamed prefix) names).
Proof.
  induction names as [|[name param] names IH]; intros updates w r w' Hs E.
  - cbn in E. injection E as <- <-. split; [exact Hs|]. split.
    + exists []. now rewrite app_nil_r.
    + intros b done Hb Hp _. exists b. now rewrite Hp.
  - cbn [updatePrefix_loop] in E.
    destruct (handlerByParam w !! param) as [h|]; [|discriminate].
    set (handler := with_key h (validParam (prefix +:+ name))) in *.
    set (w1 := globals_delete param w) in *.
    set (w3 := update_binding id _ (unsafeSetHandler handler w1)) in *.
    assert (Hs1 : setupComplete w1 = true) by (now apply setupComplete_globals_delete).
    assert (Hs3 : setupComplete w3 = true).
    { subst w3. unfold update_binding, unsafeSetHandler.
      now destruct (bindings _ !! id). }
    assert (Hn3 : navigations w3
                  = navigations w
                    ++ [{| nav_behavior := Replace;
                           nav_url := URLSearchParams.delete param (location w) |}]).
    { subst w3. unfold update_binding, unsafeSetHandler.
      destruct (bindings _ !! id); cbn; now apply navigations_globals_delete. }
    destruct (IH _ w3 r w' Hs3 E) as (Hs' & (navs & Hn & Hl & Hf) & Hb').
    split; [exact Hs'|]. split.
    + eexists (_ :: navs). rewrite Hn, Hn3, <- app_assoc. split; [reflexivity|].
      split; [cbn; now rewrite Hl | now constructor].
    + intros b done Hb Hp Hnd.
      destruct (wiring_lookup _ _ id b (wiring_globals_delete param w Hs) Hb)
        as (b1 & Hb1 & Hw1).
      assert (Hp1 : paramByKey b1 = paramByKey b).
      { apply (f_equal paramByKey) in Hw1. exact Hw1. }
      destruct (Hb' (with_paramByKey (map_set name (key handler) (paramByKey b1)) b1)
                  (done ++ [(name, key handler)])) as (b' & Hb'' & Hp').
      * change (bindings w1 !! id = Some b1) in Hb1.
        subst w3. unfold update_binding.
        change (bindings (unsafeSetHandler handler w1)) with (bindings w1).
        rewrite Hb1. cbn.
        apply list_lookup_insert_eq. now apply lookup_lt_Some in Hb1.
      * cbn. rewrite Hp1, Hp, map_set_middle, <- app_assoc; [reflexivity|].
        rewrite map_app in Hnd. apply NoDup_app in Hnd as (_ & Hd & _).
        intros Hin. apply (Hd name Hin). cbn. now left.
      * rewrite <- app_assoc. rewrite !map_app in *. exact Hnd.
      * exists b'. split; [exact Hb''|]. rewrite Hp', <- app_assoc. reflexivity.
Qed.

(** X16.  A change of prefix, for any binding.  When [updatePrefix]
    returns, it has made one navigation for every name of the binding and
    one more for the batch of new names, all in replace mode; and every
    field is then known under the key built from the new prefix and the
    name of the field. *)
Theorem prefix_change_renames_every_field
  (id : nat) (prefix : string) (b : Binding) (w : World) :
  bindings w !! id = Some b ->
  setupComplete w = true ->
  NoDup (map fst (paramByKey b)) ->
  fst (updatePrefix id prefix w) = Ok tt ->
  let w' := after (updatePrefix id prefix) w in
  (exists navs,
     navigations w' = navigations w ++ navs
     /\ length navs = S (length (paramByKey b))
     /\ Forall (fun n => nav_behavior n = Replace) navs)
  /\ exists b', bindings w' !! id = Some b'
                /\ paramByKey b' = map (renamed prefix) (paramByKey b).
Proof.
  intros Hb Hs Hnd Hok w'. subst w'. unfold after, updatePrefix in *. rewrite Hb in *.
  unfold bind in *.
  destruct (updatePrefix_loop id prefix (paramByKey b) [] w) as [[updates|e] w1] eqn:E;
    [|discriminate].
  destruct (updatePrefix_loop_spec id prefix _ _ _ _ _ Hs E) as (Hs1 & (navs & Hn & Hl & Hf) & Hp).
  unfold exec. cbn [snd].
  destruct (trySetURLParams_frame updates Replace w1 Hs1) as (n & Hn2 & Hr & Hw).
  split.
  - exists (navs ++ [n]). rewrite Hn2, Hn, <- app_assoc. split; [reflexivity|].
    split; [rewrite length_app; cbn; lia|].
    apply Forall_app. split; [exact Hf | now repeat constructor].
  - destruct (Hp b [] Hb eq_refl Hnd) as (b1 & Hb1 & Hp1).
    destruct (wiring_lookup _ _ id b1 Hw Hb1) as (b' & Hb' & Hw').
    exists b'. split; [exact Hb'|].
    apply (f_equal paramByKey) in Hw'. cbn in Hw'. now rewrite Hw', Hp1.
Qed.

Lemma prefix_change_witness :
  NoDup (map fst (paramByKey xy_binding))
  /\ fst (updatePrefix 0 "b_" xy_world) = Ok tt
  /\ (exists navs,
        navigations (after (updatePrefix 0 "b_") xy_world) = navigations xy_world ++ navs
        /\ length navs = 3%nat
        /\ Forall (fun n => nav_behavior n = Replace) navs)
  /\ exists b', bindings (after (updatePrefix 0 "b_") xy_world) !! 0%nat = Some b'
                /\ paramByKey b' = [("x", "b_x"); ("y", "b_y")].
Proof.
  assert (Hnd : NoDup (map fst (paramByKey xy_binding))).
  { cbn. apply NoDup_cons. split.
    - rewrite list_elem_of_singleton. discriminate.
    - apply NoDup_singleton. }
  assert (Hok : fst (updatePrefix 0 "b_" xy_world) = Ok tt) by (vm_compute; reflexivity).
  split; [exact Hnd|]. split; [exact Hok|].
  exact (prefix_change_renames_every_field 0 "b_" xy_binding xy_world
           eq_refl eq_refl Hnd Hok).
Defined.


(** ** Debounced effects *)

Lemma run_timers_early {K : Type} `{Countable K} {CB : Type} fuel limit
  (d : Debounce.t K CB) :
  (forall tm, tm ∈ Debounce.pending d -> limit < Debounce.due tm) ->
  fst (Debounce.run_timers fuel limit d) = [].
Proof.
  intros Hlate. destruct fuel as [|fuel]; [reflexivity|]. cbn [Debounce.run_timers].
  destruct (Debounce.next_timer (Debounce.pending d)) as [tm|] eqn:En; [|reflexivity].
  destruct (next_timer_first _ _ En) as [Hin _].
  now rewrite (proj2 (Z.leb_gt _ _) (Hlate tm Hin)).
Qed.

Lemma filter_all {A : Type} (P : A -> Prop) `{forall x, Decision (P x)} (l : list A) :
  Forall P l -> filter P l = l.
Proof.
  induction 1 as [|x l Hx _ IH]; [reflexivity|].
  now rewrite filter_cons_True, IH.
Qed.

Lemma debouncer_trySetURLParam param value behavior w :
  debouncer (trySetURLParam param value behavior w) = debouncer w.
Proof.
  unfold trySetURLParam. destruct (bool_decide _); [reflexivity|].
  unfold trigger, commit, setupListener.
  change (setupComplete (cache param (cachify_value param value) w))
    with (setupComplete w).
  change (supportsHistory (cache param (cachify_value param value) w))
    with (supportsHistory w).
  destruct (setupComplete w).
  - now rewrite (q_debouncer _ _ (quiet_emit _)).
  - destruct (supportsHistory w); cbn [negb]; [|reflexivity].
    now rewrite (q_debouncer _ _ (quiet_emit _)).
Qed.

Lemma pending_run_timers_subset {K : Type} `{Countable K} {CB : Type} fuel limit :
  forall (d : Debounce.t K CB) tm,
    tm ∈ Debounce.pending (snd (Debounce.run_timers fuel limit d)) ->
    tm ∈ Debounce.pending d.
Proof.
  induction fuel as [|fuel IH]; intros d tm Hin; [exact Hin|].
  destruct (Debounce.next_timer (Debounce.pending d)) as [t0|] eqn:En;
    [|cbn [Debounce.run_timers] in Hin; now rewrite En in Hin].
  destruct (Z.leb_spec (Debounce.due t0) limit) as [Hd|Hd];
    [|cbn [Debounce.run_timers] in Hin;
      now rewrite En, (proj2 (Z.leb_gt _ _) Hd) in Hin].
  rewrite (run_timers_step fuel limit d t0 En Hd) in Hin. cbn [snd] in Hin.
  apply (pending_fire_subset t0 d). now apply IH.
Qed.

Lemma flush_keys_keys {K : Type} `{Countable K} {CB : Type} (keys : list K) :
  forall d : Debounce.t K CB,
    Forall (fun f => Debounce.for_key f ∈ keys) (fst (Debounce.flush_keys keys d)).
Proof.
  induction keys as [|k keys IH]; intros d; [constructor|].
  rewrite flush_keys_cons. apply Forall_app. split.
  - destruct (Debounce.callbacks d !! k); constructor; [now left | constructor].
  - eapply Forall_impl; [apply IH|]. intros f Hf. now right.
Qed.

(** X22.  A debounced effect writes nothing when it runs: it arms the
    timers of its parameter.  On a scheduler with nothing else pending,
    time alone writes nothing before the first of the two timeouts is due,
    which for delays within the 32-bit range of [setTimeout] is the idle
    time; when it is due, the write that happens is the one of the value
    the field holds then, whatever was assigned to fields in between.  A
    page that is hidden, shown or left before that performs this write at
    once, and no timeout writes again. *)
Theorem debounced_effect_writes_the_latest_value
  (e : Effect) (c : Debounce.Config) (w : World) :
  tidy (debouncer w) ->
  Debounce.pending (debouncer w) = [] ->
  e_debounce e = Some c ->
  Debounce.idleMs c <= Debounce.maxWaitMs c ->
  let u := e_update e in
  let w1 := after (runEffect e) w in
  let at_first :=
    Debounce.now (debouncer w)
    + Z.min (Debounce.delay (Debounce.idleMs c)) (Debounce.delay (Debounce.maxWaitMs c)) in
  let write := fun w2 =>
    trySetURLParam (u_param u)
      (parameterize (field (u_binding u) (u_field u) w2) (u_handler u))
      (history (u_handler u)) w2 in
  fst (runEffect e w) = Ok tt
  /\ navigations w1 = navigations w
  /\ cachedByParam w1 = cachedByParam w
  /\ (0 <= Debounce.idleMs c -> Debounce.maxWaitMs c < 2 ^ 31 ->
      at_first = Debounce.now (debouncer w) + Debounce.idleMs c)
  /\ (forall limit w2, limit < at_first -> debouncer w2 = debouncer w1 ->
        navigations (advance limit w2) = navigations w2)
  /\ (forall w2, debouncer w2 = debouncer w1 ->
        advance at_first w2
        = write (set_debouncer (snd (Debounce.advance at_first (debouncer w1))) w2))
  /\ (forall limit w2, limit < at_first ->
        debouncer w2 = snd (Debounce.advance limit (debouncer w1)) ->
        pageLifecycle w2
        = write (set_debouncer (snd (Debounce.visibilityHandler (debouncer w2))) w2)
        /\ forall later,
             navigations (advance later (pageLifecycle w2))
             = navigations (pageLifecycle w2)).
Proof.
  intros T Hp Hc Hle u w1 at_first write. subst w1. unfold after, runEffect. fold u.
  rewrite Hc.
  destruct (Debounce.enqueue (u_param u) u (Some c) (debouncer w)) as [d1|err] eqn:E.
  2:{ exfalso. unfold Debounce.enqueue, Debounce.ValidateConfig in E.
      rewrite (proj2 (Z.ltb_ge _ _) Hle) in E. discriminate E. }
  cbn [fst snd].
  destruct (enqueue_arms (u_param u) u (Some c) (debouncer w) d1 T E)
    as (T1 & _ & Hti & Htm & Hi & Hcb & Hnow & Honly).
  set (ti := {| Debounce.handle := Debounce.nextHandle (debouncer w);
                Debounce.due := Debounce.now (debouncer w)
                                + Debounce.delay (Debounce.idleMs c);
                Debounce.flushes := u_param u |}) in *.
  set (tm := {| Debounce.handle := S (Debounce.nextHandle (debouncer w));
                Debounce.due := Debounce.now (debouncer w)
                                + Debounce.delay (Debounce.maxWaitMs c);
                Debounce.flushes := u_param u |}) in *.
  pose proof (delay_nonneg (Debounce.idleMs c)) as Hdi.
  pose proof (delay_nonneg (Debounce.maxWaitMs c)) as Hdm.
  destruct (enqueue_ok _ _ _ _ _ E) as [_ Ed]. cbv zeta in Ed.
  assert (Hpend : forall x, x ∈ Debounce.pending d1 ->
            Debounce.flushes x = u_param u /\ at_first <= Debounce.due x).
  { intros x Hin. rewrite Ed in Hin. cbn [Debounce.pending] in Hin.
    rewrite !elem_of_app, !list_elem_of_singleton in Hin.
    destruct Hin as [[Hin | ->] | ->]; cbn.
    - apply elem_of_pending_clear in Hin as [Hin _]. rewrite Hp in Hin.
      now apply elem_of_nil in Hin.
    - split; [reflexivity | subst at_first; lia].
    - split; [reflexivity | subst at_first; lia]. }
  clear Ed.
  split; [reflexivity|]. split; [reflexivity|]. split; [reflexivity|].
  split; [|split; [|split]].
  - intros H0 H1. subst at_first. rewrite !delay_in_range by lia. lia.
  - intros limit w2 Hl Hd. unfold advance. rewrite Hd. cbn [debouncer set_debouncer].
    pose proof (run_timers_early (length (Debounce.pending d1)) limit d1) as He.
    unfold Debounce.advance.
    destruct (Debounce.run_timers _ limit d1) as [fired d2]. cbn [fst] in He.
    rewrite He; [reflexivity|]. intros x Hin. destruct (Hpend x Hin). lia.
  - intros w2 Hd. unfold advance. rewrite Hd. cbn [debouncer set_debouncer].
    set (first := if Debounce.earlier ti tm then ti else tm).
    assert (Hfirst : Debounce.due first = at_first
                     /\ first ∈ Debounce.pending d1
                     /\ Debounce.flushes first = u_param u
                     /\ Debounce.earlier first ti = true
                     /\ Debounce.earlier first tm = true).
    { subst first. destruct (Debounce.earlier ti tm) eqn:Ee.
      - pose proof Ee as Ee'. apply earlier_spec in Ee'. cbn in Ee'.
        split; [subst at_first; cbn; lia|]. split; [exact Hti|].
        split; [reflexivity|]. split; [apply earlier_refl | exact Ee].
      - assert (Hn : ~ (Debounce.due ti < Debounce.due tm
                        \/ (Debounce.due ti = Debounce.due tm
                            /\ (Debounce.handle ti <= Debounce.handle tm)%nat)))
          by (rewrite <- earlier_spec; now rewrite Ee).
        cbn in Hn.
        split; [subst at_first; cbn; lia|]. split; [exact Htm|].
        split; [reflexivity|]. split; [apply earlier_spec; cbn; lia | apply earlier_refl]. }
    destruct Hfirst as (Hdue & Hin & Hkey & He1 & He2).
    assert (Hfire : filter (fun f => Debounce.for_key f = u_param u)
                      (fst (Debounce.advance at_first d1))
                    = [{| Debounce.at_time := at_first; Debounce.for_key := u_param u;
                          Debounce.ran := u |}]).
    { rewrite <- Hdue. unfold Debounce.advance.
      apply (run_timers_fires_first (u_param u) u first _ Hkey d1 T1 (Nat.le_refl _)
               Hin Hcb).
      - rewrite Hnow, Hdue. subst at_first. lia.
      - intros x Hx Ex. destruct (Honly x Hx Ex) as [-> | ->]; assumption. }
    assert (Hall : Forall (fun f => Debounce.for_key f = u_param u)
                     (fst (Debounce.advance at_first d1))).
    { unfold Debounce.advance. apply (run_timers_keys (fun k => k = u_param u)).
      intros x Hx. now destruct (Hpend x Hx). }
    rewrite (filter_all _ _ Hall) in Hfire.
    destruct (Debounce.advance at_first d1) as [fired d2]. cbn [fst snd] in *.
    rewrite Hfire. cbn [fold_left Debounce.ran].
    rewrite update_value by (now left). reflexivity.
  - intros limit w2 Hl Hd. cbn [debouncer set_debouncer] in Hd.
    assert (Hlate : forall x, x ∈ Debounce.pending d1 -> Debounce.flushes x = u_param u ->
                              limit < Debounce.due x).
    { intros x Hx _. destruct (Hpend x Hx). lia. }
    destruct (run_timers_keeps (u_param u) (length (Debounce.pending d1)) limit d1 T1 Hlate)
      as (_ & Hkeep & Hcb1 & Hi1).
    fold (Debounce.advance limit d1) in Hkeep, Hcb1, Hi1.
    rewrite <- Hd in Hkeep, Hcb1, Hi1.
    assert (T2 : tidy (debouncer w2)).
    { rewrite Hd. unfold Debounce.advance. now apply tidy_run_timers. }
    assert (Hpend2 : forall x, x ∈ Debounce.pending (debouncer w2) ->
                               Debounce.flushes x = u_param u).
    { intros x Hx. rewrite Hd in Hx. unfold Debounce.advance in Hx.
      apply pending_run_timers_subset in Hx. now destruct (Hpend x Hx). }
    assert (Hk : u_param u ∈ Debounce.callback_keys (debouncer w2)).
    { apply (elem_of_callback_keys (u_param u) ti); [now apply Hkeep | reflexivity|].
      rewrite Hi1. exact Hi. }
    assert (Hfire : fst (Debounce.visibilityHandler (debouncer w2))
                    = [{| Debounce.at_time := Debounce.now (debouncer w2);
                          Debounce.for_key := u_param u; Debounce.ran := u |}]).
    { rewrite <- (flush_keys_fires (u_param u) u (Debounce.callback_keys (debouncer w2))
                    (debouncer w2) Hk); [|now rewrite Hcb1].
      unfold Debounce.visibilityHandler. symmetry. apply filter_all.
      eapply Forall_impl; [apply flush_keys_keys|]. cbn. intros f Hf.
      unfold Debounce.callback_keys in Hf. apply list_elem_of_fmap in Hf as (x & -> & Hx).
      apply list_elem_of_filter in Hx as [_ Hx]. now apply Hpend2. }
    assert (Hnil : Debounce.pending (snd (Debounce.visibilityHandler (debouncer w2))) = []).
    { destruct (Debounce.pending (snd (Debounce.visibilityHandler (debouncer w2))))
        as [|x l] eqn:El; [reflexivity|]. exfalso.
      assert (Hx : x ∈ Debounce.pending (snd (Debounce.visibilityHandler (debouncer w2))))
        by (rewrite El; now left).
      unfold Debounce.visibilityHandler in Hx. rewrite flush_keys_snd in Hx.
      destruct (fold_clear_disarms _ _ T2 x Hx) as [Hx' Hni].
      apply Hni. now rewrite (Hpend2 x Hx'). }
    assert (Epage : pageLifecycle w2
                    = write (set_debouncer
                               (snd (Debounce.visibilityHandler (debouncer w2))) w2)).
    { unfold pageLifecycle.
      destruct (Debounce.visibilityHandler (debouncer w2)) as [fired d3].
      cbn [fst snd] in *. rewrite Hfire. cbn [fold_left Debounce.ran].
      rewrite update_value by (now left). reflexivity. }
    split; [exact Epage|].
    intros later. unfold advance at 1.
    rewrite Epage at 1. unfold write at 1. rewrite debouncer_trySetURLParam.
    cbn [debouncer set_debouncer]. unfold Debounce.advance. rewrite Hnil.
    reflexivity.
Qed.

Lemma tidy_initial supported url : tidy (debouncer (initial supported url)).
Proof.
  split; [cbn; lia|]. split.
  - intros tm Hin. now apply elem_of_nil in Hin.
  - intros key h [Hk|Hk]; cbn in Hk; now rewrite lookup_empty in Hk.
Qed.

Lemma debounced_effect_witness :
  Debounce.pending (debouncer xy_world_x7) = []
  /\ fst (runEffect x_debounced_effect xy_world_x7) = Ok tt
  /\ navigations (after (runEffect x_debounced_effect) xy_world_x7) = []
  /\ navigations (advance 49 (after (runEffect x_debounced_effect) xy_world_x7)) = []
  /\ navigations (advance 50 (after (runEffect x_debounced_effect) xy_world_x7))
     = [{| nav_behavior := Push; nav_url := [("a_x", "7"); ("a_y", "2")] |}]
  /\ navigations
       (pageLifecycle (advance 20 (after (runEffect x_debounced_effect) xy_world_x7)))
     = [{| nav_behavior := Push; nav_url := [("a_x", "7"); ("a_y", "2")] |}].
Proof.
  split; [reflexivity|].
  assert (Hle : Debounce.idleMs burst_config <= Debounce.maxWaitMs burst_config)
    by (cbn; lia).
  destruct (debounced_effect_writes_the_latest_value x_debounced_effect burst_config
              xy_world_x7 (tidy_initial true []) eq_refl eq_refl Hle)
    as (H1 & H2 & _ & _ & H4 & H5 & H6).
  split; [exact H1|]. split; [exact H2|]. split; [|split].
  - rewrite (H4 49 _ eq_refl eq_refl). exact H2.
  - refine (eq_trans (f_equal navigations (H5 _ eq_refl)) _). vm_compute. reflexivity.
  - refine (eq_trans (f_equal navigations (proj1 (H6 20 (advance 20 (after (runEffect x_debounced_effect) xy_world_x7))
                        eq_refl eq_refl))) _).
    vm_compute. reflexivity.
Defined.


(** ** The listener *)

Lemma onURLChange_loop_frame state id k param entries :
  forall w,
    Forall (fun kp => fst kp <> k /\ snd kp <> param) entries ->
    field id k (after (onURLChange_loop state id entries) w) = field id k w
    /\ cached param (after (onURLChange_loop state id entries) w) = cached param w.
Proof.
  induction entries as [|[k0 p0] entries IH]; intros w Hall; [now split|].
  inversion Hall as [|? ? [Hk Hp] Hrest]; subst. cbn [fst snd] in Hk, Hp.
  cbn [onURLChange_loop]. unfold after, bind.
  pose proof (touches_trySetFromURL state id k0 p0 None true w) as [Hf _].
  pose proof (cached_trySetFromURL_other state id k0 p0 None true param w
                (not_eq_sym Hp)) as Hc.
  unfold after in Hf, Hc.
  destruct (trySetFromURL state id k0 p0 None true w) as [[[]|e] w1]; cbn [snd] in *.
  - destruct (IH w1 Hrest) as [Hf' Hc']. unfold after in Hf', Hc'.
    rewrite Hf', Hc', Hc. split; [|reflexivity]. apply Hf. congruence.
  - split; [|exact Hc]. apply Hf. congruence.
Qed.

Lemma onURLChange_loop_reaches state id k param v h x names :
  state !! param = Some (Once v) ->
  entries h = Single ->
  evaluate h v param None = Some x ->
  forall w,
    NoDup (map fst names) -> NoDup (map snd names) ->
    (k, param) ∈ names ->
    is_Some (bindings w !! id) ->
    handlerByParam w !! param = Some h ->
    URLSearchParams.get param (URLSearchParams.of_init (cached param w)) <> Some v ->
    fst (onURLChange_loop state id names w) = Ok tt ->
    field id k (after (onURLChange_loop state id names) w) = x
    /\ cached param (after (onURLChange_loop state id names) w)
       = Some (cachify param [v]).
Proof.
  intros Hst Hsingle Hx.
  induction names as [|[k0 p0] names IH]; intros w Hnf Hns Hin Hb Hh Hc Hok;
    [now apply elem_of_nil in Hin|].
  cbn [map fst snd] in Hnf, Hns.
  apply NoDup_cons in Hnf as [Hk0 Hnf]. apply NoDup_cons in Hns as [Hp0 Hns].
  cbn [onURLChange_loop] in *. unfold after, bind in *.
  apply elem_of_cons in Hin as [Heq|Hin].
  - injection Heq as <- <-.
    assert (E : trySetFromURL state id k param None true w
                = (Ok tt,
                   cache param (cachify param [v])
                     (record_assignment
                        {| as_binding := id; as_field := k; as_index := None;
                           as_value := x |}
                        (set_field id k x w)))).
    { unfold trySetFromURL. rewrite Hst, Hh. unfold supportsMultiple. rewrite Hsingle.
      unfold hydrate_single. rewrite bool_decide_eq_false_2 by congruence.
      now rewrite Hx. }
    rewrite E in *. cbn [snd].
    set (w1 := cache _ _ _).
    destruct (onURLChange_loop_frame state id k param names w1) as [Hf' Hc'].
    + apply Forall_forall. intros [k' p'] Hin'. cbn [fst snd]. split.
      * intros ->. apply Hk0. apply list_elem_of_fmap. now exists (k, p').
      * intros ->. apply Hp0. apply list_elem_of_fmap. now exists (k', param).
    + unfold after in Hf', Hc'.
      destruct (onURLChange_loop state id names w1) as [r w2]. cbn [snd] in *.
      rewrite Hf', Hc'. subst w1. split.
      * rewrite field_cache, field_record. now apply field_set_field_same.
      * unfold cached, cache. cbn. apply lookup_insert_eq.
  - assert (Hp : p0 <> param).
    { intros ->. apply Hp0. apply list_elem_of_fmap. now exists (k, param). }
    pose proof (quiet_trySetFromURL state id k0 p0 None true w) as Q.
    pose proof (cached_trySetFromURL_other state id k0 p0 None true param w
                  (not_eq_sym Hp)) as Hc1.
    unfold after in Q, Hc1.
    destruct (trySetFromURL state id k0 p0 None true w) as [[[]|e] w1]; cbn [snd fst] in *;
      [|discriminate].
    apply IH; try assumption.
    + destruct Hb as [b0 Hb0].
      destruct (wiring_lookup _ _ id b0 (q_bindings _ _ Q) Hb0) as (b1 & Hb1 & _).
      now exists b1.
    + now rewrite (q_handlers _ _ Q).
    + now rewrite Hc1.
Qed.

(** X13.  The listener carries a changed value to its field.  When the
    snapshot has one value for a parameter of the binding and it is not
    the value cached, [onURLChange], if it returns, has assigned the field
    what the registered handler makes of the value, and has cached the
    value. *)
Theorem listener_assigns_the_changed_value
  (state : gmap string Entry) (id : nat) (b : Binding) (w : World)
  (k param v : string) (h : Handler) (x : Value) :
  bindings w !! id = Some b ->
  NoDup (map fst (paramByKey b)) ->
  NoDup (map snd (paramByKey b)) ->
  (k, param) ∈ paramByKey b ->
  handlerByParam w !! param = Some h ->
  entries h = Single ->
  state !! param = Some (Once v) ->
  URLSearchParams.get param (URLSearchParams.of_init (cached param w)) <> Some v ->
  evaluate h v param None = Some x ->
  fst (onURLChange state id w) = Ok tt ->
  field id k (after (onURLChange state id) w) = x
  /\ cached param (after (onURLChange state id) w) = Some (cachify param [v]).
Proof.
  intros Hb Hnf Hns Hin Hh Hsingle Hst Hc Hx Hok.
  unfold after, onURLChange in *. rewrite Hb in *.
  apply (onURLChange_loop_reaches state id k param v h x (paramByKey b) Hst Hsingle Hx);
    eauto.
Qed.

Lemma listener_witness :
  getURLState [("a_x", "9"); ("a_y", "2")] !! "a_x" = Some (Once "9")
  /\ fst (onURLChange (getURLState [("a_x", "9"); ("a_y", "2")]) 0 xy_world) = Ok tt
  /\ field 0 "x" (after (onURLChange (getURLState [("a_x", "9"); ("a_y", "2")]) 0) xy_world)
     = Num (Int 9)
  /\ cached "a_x"
       (after (onURLChange (getURLState [("a_x", "9"); ("a_y", "2")]) 0) xy_world)
     = Some "a_x=9".
Proof.
  assert (Hst : getURLState [("a_x", "9"); ("a_y", "2")] !! "a_x" = Some (Once "9"))
    by (vm_compute; reflexivity).
  assert (Hok : fst (onURLChange (getURLState [("a_x", "9"); ("a_y", "2")]) 0 xy_world)
                = Ok tt) by (vm_compute; reflexivity).
  assert (Hnf : NoDup (map fst (paramByKey xy_binding))).
  { cbn. apply NoDup_cons. split;
      [rewrite list_elem_of_singleton; discriminate | apply NoDup_singleton]. }
  assert (Hns : NoDup (map snd (paramByKey xy_binding))).
  { cbn. apply NoDup_cons. split;
      [rewrite list_elem_of_singleton; discriminate | apply NoDup_singleton]. }
  assert (Hin : ("x", "a_x") ∈ paramByKey xy_binding).
  { cbn. apply elem_of_cons. now left. }
  assert (Hc : URLSearchParams.get "a_x"
                 (URLSearchParams.of_init (cached "a_x" xy_world)) <> Some "9")
    by (vm_compute; discriminate).
  split; [exact Hst|]. split; [exact Hok|].
  exact (listener_assigns_the_changed_value _ 0 xy_binding xy_world "x" "a_x" "9"
           x_handler (Num (Int 9)) eq_refl Hnf Hns Hin eq_refl eq_refl Hst Hc eq_refl Hok).
Defined.

(** ** Key conflicts at setup *)

(** X24.  Binding setup registers the resolved handler first.  When its
    escaped key is already in the registry, [setupEffect] throws the
    key-conflict error at once: nothing else has happened, the state is the
    one before the call, so the new handler was never used.  When the key
    is free, the registry holds this handler under it when the setup of
    the field is over, whatever the rest of that setup does. *)
Theorem key_conflict_thrown_at_setup
  (w : World) (id : nat) (name : string) (h : ParameterHandler)
  (state : gmap string Entry) (b : Binding) :
  bindings w !! id = Some b ->
  let handler := verbosify h name (options b) in
  (forall owner, handlerByParam w !! key handler = Some owner ->
     safeSetHandler handler w = (Err (KeyConflict (key handler)), w)
     /\ setupEffect id name h state w = (Err (KeyConflict (key handler)), w))
  /\ (handlerByParam w !! key handler = None ->
      handlerByParam (after (setupEffect id name h state) w)
      = <[key handler := handler]> (handlerByParam w)).
Proof.
  intros Hb handler. split.
  - intros owner Hin. split; [now apply (safeSetHandler_conflict _ owner)|].
    unfold setupEffect. rewrite Hb. unfold bind. fold handler.
    now rewrite (safeSetHandler_conflict _ owner).
  - intros Hfree. unfold after, setupEffect. rewrite Hb. fold handler.
    unfold bind at 1. rewrite safeSetHandler_fresh by exact Hfree.
    unfold bind at 1, exec at 1.
    set (w1 := update_binding id _ _).
    assert (H1 : handlerByParam w1 = <[key handler := handler]> (handlerByParam w)).
    { subst w1. now rewrite handlerByParam_update_binding. }
    clearbody w1. unfold bind at 1.
    pose proof (handlerByParam_tryProcessHistoricalKeys id name handler state w1) as H2.
    unfold after in H2.
    destruct (tryProcessHistoricalKeys id name handler state w1) as [[[]|e] w2];
      cbn in *; [|congruence].
    unfold bind at 1.
    pose proof (quiet_trySetFromURL state id name (key handler) (Some handler) true w2) as Q.
    unfold after in Q.
    destruct (trySetFromURL state id name (key handler) (Some handler) true w2)
      as [[[]|e] w3]; cbn in *.
    + rewrite handlerByParam_update_binding. rewrite (q_handlers _ _ Q). congruence.
    + rewrite (q_handlers _ _ Q). congruence.
Qed.

Lemma key_conflict_witness :
  bindings xy_world_with_second !! 1%nat = Some second_binding
  /\ setupEffect 1 "x" (BareResolve identity) ∅ xy_world_with_second
     = (Err (KeyConflict "a_x"), xy_world_with_second)
  /\ let handler := verbosify (BareResolve identity) "x" (options second_binding) in
     (forall owner, handlerByParam xy_world_with_second !! key handler = Some owner ->
        safeSetHandler handler xy_world_with_second
        = (Err (KeyConflict (key handler)), xy_world_with_second)
        /\ setupEffect 1 "x" (BareResolve identity) ∅ xy_world_with_second
           = (Err (KeyConflict (key handler)), xy_world_with_second))
     /\ (handlerByParam xy_world_with_second !! key handler = None ->
         handlerByParam
           (after (setupEffect 1 "x" (BareResolve identity) ∅) xy_world_with_second)
         = <[key handler := handler]> (handlerByParam xy_world_with_second)).
Proof.
  split; [reflexivity|]. split.
  - exact (proj2 (proj1 (key_conflict_thrown_at_setup xy_world_with_second 1 "x"
                           (BareResolve identity) ∅ second_binding eq_refl)
                    x_handler eq_refl)).
  - exact (key_conflict_thrown_at_setup xy_world_with_second 1 "x"
             (BareResolve identity) ∅ second_binding eq_refl).
Defined.

(** ** The debounce scheduler: when the page is hidden or left *)

Section PageEvents.
Context {K : Type} `{Countable K} {CB : Type}.
Implicit Types (d : Debounce.t K CB) (tm : Debounce.Timer K) (key : K).

Lemma callback_keys_spec key d :
  key ∈ Debounce.callback_keys d
  <-> exists tm, tm ∈ Debounce.pending d /\ Debounce.flushes tm = key
                 /\ Debounce.idleTimers d !! key = Some (Debounce.handle tm).
Proof.
  unfold Debounce.callback_keys. rewrite list_elem_of_fmap. split.
  - intros (tm & -> & Hin). apply list_elem_of_filter in Hin as [Hr Hin]. eauto.
  - intros (tm & Hin & <- & Hr). exists tm. split; [reflexivity|].
    apply list_elem_of_filter. auto.
Qed.

Lemma booked_create (o : Debounce.Config) (start : Z) d :
  Debounce.create o start = Ok d -> booked d.
Proof.
  intros E. split; [now apply (tidy_create o start)|].
  unfold Debounce.create in E. destruct (Debounce.ValidateConfig o); [|discriminate E].
  injection E as <-. split.
  - intros key [cb Hcb]. cbn in Hcb. now rewrite lookup_empty in Hcb.
  - intros tm Hin. now apply elem_of_nil in Hin.
Qed.

(** A timeout of another key outlives [clear]. *)
Lemma clear_keeps_other key tm d :
  tidy d -> tm ∈ Debounce.pending d -> Debounce.flushes tm <> key ->
  tm ∈ Debounce.pending (Debounce.clear key d).
Proof.
  intros (_ & _ & Hown) Hin Hne. apply elem_of_pending_clear.
  split; [exact Hin|]. split; intros E.
  - destruct (Hown key _ (or_introl E)) as [_ Hf]. now apply Hne, Hf.
  - destruct (Hown key _ (or_intror E)) as [_ Hf]. now apply Hne, Hf.
Qed.

Lemma idleTimers_clear_lookup k key d :
  k <> key ->
  Debounce.idleTimers (Debounce.clear k d) !! key = Debounce.idleTimers d !! key.
Proof.
  intros Hne. destruct (clear_fields k d) as (_ & _ & _ & -> & _).
  now apply lookup_delete_ne.
Qed.

Lemma booked_clear key d : booked d -> booked (Debounce.clear key d).
Proof.
  intros (T & HA & HB). split; [now apply tidy_clear|]. split.
  - intros k Hk. rewrite callbacks_clear_lookup in Hk.
    destruct (decide (key = k)) as [->|Hne]; [now destruct Hk|].
    pose proof (HA k Hk) as Hck. apply callback_keys_spec in Hck as (tm & Hin & Hf & Hr).
    apply callback_keys_spec. exists tm.
    split; [apply clear_keeps_other; congruence|]. split; [exact Hf|].
    now rewrite idleTimers_clear_lookup.
  - intros tm Hin. pose proof (clear_disarms key d tm T Hin) as Hne.
    apply elem_of_pending_clear in Hin as [Hin _].
    rewrite callbacks_clear_lookup. destruct (decide (key = Debounce.flushes tm));
      [congruence | now apply HB].
Qed.

Lemma booked_enqueue key (cb : CB) config d d' :
  booked d -> Debounce.enqueue key cb config d = Ok d' -> booked d'.
Proof.
  intros B E. pose proof B as (T & _).
  destruct (booked_clear key d B) as (_ & HA & HB).
  split; [now apply (tidy_enqueue key cb config d d')|].
  destruct (enqueue_ok key cb config d d' E) as [_ ->]. split.
  - intros k Hk. cbn [Debounce.callbacks] in Hk. apply callback_keys_spec.
    cbn [Debounce.pending Debounce.idleTimers].
    destruct (decide (k = key)) as [->|Hne].
    + eexists. split; [rewrite !elem_of_app, !list_elem_of_singleton; left; now right|].
      split; [reflexivity|]. cbn. apply lookup_insert_eq.
    + rewrite lookup_insert_ne in Hk by congruence.
      pose proof (HA k Hk) as Hck.
      apply callback_keys_spec in Hck as (tm & Hin & Hf & Hr).
      exists tm. split; [rewrite !elem_of_app; left; now left|].
      split; [exact Hf|]. now rewrite lookup_insert_ne by congruence.
  - intros tm Hin. cbn [Debounce.pending Debounce.callbacks] in *.
    rewrite !elem_of_app, !list_elem_of_singleton in Hin.
    destruct Hin as [[Hin | ->] | ->]; cbn [Debounce.flushes];
      [|rewrite lookup_insert_eq; eauto|rewrite lookup_insert_eq; eauto].
    pose proof (clear_disarms key d tm T Hin) as Hne.
    rewrite lookup_insert_ne by congruence. now apply HB.
Qed.

Lemma booked_fire tm d : booked d -> tm ∈ Debounce.pending d -> booked (snd (fire tm d)).
Proof.
  intros (T & HA & HB) Hin0. split; [now apply tidy_fire|]. split.
  - intros k Hk.
    destruct (decide (k = Debounce.flushes tm)) as [->|Hne].
    + exfalso. unfold fire, Debounce.flush in Hk. cbn [snd] in Hk.
      rewrite callbacks_clear_lookup in Hk.
      destruct (decide (Debounce.flushes tm = Debounce.flushes tm)); [|congruence].
      now destruct Hk.
    + rewrite callbacks_fire in Hk by exact Hne.
      pose proof (HA k Hk) as Hck.
      apply callback_keys_spec in Hck as (tm' & Hin & Hf & Hr).
      apply callback_keys_spec. exists tm'.
      split; [apply fire_keeps_other; try assumption; congruence|].
      split; [exact Hf|]. now rewrite idleTimers_fire.
  - intros tm' Hin. pose proof (fire_disarms tm d tm' T Hin) as Hne.
    rewrite callbacks_fire by exact Hne.
    apply HB. now apply (pending_fire_subset tm d).
Qed.

Lemma booked_run_timers fuel limit :
  forall d, booked d -> booked (snd (Debounce.run_timers fuel limit d)).
Proof.
  induction fuel as [|fuel IH]; intros d B; [exact B|].
  destruct (Debounce.next_timer (Debounce.pending d)) as [tm|] eqn:En;
    [|cbn [Debounce.run_timers]; rewrite En; exact B].
  destruct (Z.leb_spec (Debounce.due tm) limit) as [Hd|Hd];
    [|cbn [Debounce.run_timers]; rewrite En, (proj2 (Z.leb_gt _ _) Hd); exact B].
  rewrite (run_timers_step fuel limit d tm En Hd). cbn [snd].
  apply IH. apply booked_fire; [exact B | now apply next_timer_first].
Qed.

Lemma booked_fold_clear (keys : list K) :
  forall d, booked d -> booked (fold_left (fun d0 k => Debounce.clear k d0) keys d).
Proof.
  induction keys as [|k keys IH]; intros d B; [exact B|].
  cbn [fold_left]. apply IH. now apply booked_clear.
Qed.

(** What the listener runs, it runs for a key that had the callback, and
    at once. *)
Lemma flush_keys_ran (keys : list K) :
  forall d,
    Forall (fun f => Debounce.callbacks d !! Debounce.for_key f = Some (Debounce.ran f)
                     /\ Debounce.at_time f = Debounce.now d)
      (fst (Debounce.flush_keys keys d)).
Proof.
  induction keys as [|k keys IH]; intros d; [constructor|].
  rewrite flush_keys_cons. apply Forall_app. split.
  - destruct (Debounce.callbacks d !! k) eqn:Ek; constructor; [|constructor]. auto.
  - eapply Forall_impl; [apply IH|]. cbv beta. intros f [Hf Ht].
    rewrite now_after_clear in Ht. split; [|exact Ht].
    rewrite callbacks_clear_lookup in Hf.
    now destruct (decide (k = Debounce.for_key f)).
Qed.

End PageEvents.

(** X25.  The listener that the constructor registers for
    [visibilitychange], [pagehide] and [beforeunload] flushes everything
    that is pending.  The scheduler keeps true, from the constructor on and
    through [enqueue], [clear] and the firing of timeouts, that a key has a
    callback exactly while its timeouts are armed; and in such a state the
    listener runs every callback that a key has, once and at once, runs
    nothing else, and leaves no callback and no armed timeout behind. *)
Theorem page_event_flushes_every_callback {K : Type} `{Countable K} {CB : Type} :
  (forall o start (d : Debounce.t K CB), Debounce.create o start = Ok d -> booked d)
  /\ (forall key (cb : CB) config (d d' : Debounce.t K CB),
        booked d -> Debounce.enqueue key cb config d = Ok d' -> booked d')
  /\ (forall key (d : Debounce.t K CB), booked d -> booked (Debounce.clear key d))
  /\ (forall limit (d : Debounce.t K CB),
        booked d -> booked (snd (Debounce.advance limit d)))
  /\ (forall d : Debounce.t K CB,
        booked d ->
        (forall key cb,
           Debounce.callbacks d !! key = Some cb ->
           filter (fun f => Debounce.for_key f = key) (fst (Debounce.visibilityHandler d))
           = [{| Debounce.at_time := Debounce.now d; Debounce.for_key := key;
                 Debounce.ran := cb |}])
        /\ Forall (fun f => Debounce.callbacks d !! Debounce.for_key f
                            = Some (Debounce.ran f)
                            /\ Debounce.at_time f = Debounce.now d)
             (fst (Debounce.visibilityHandler d))
        /\ booked (snd (Debounce.visibilityHandler d))
        /\ (forall key, Debounce.callbacks (snd (Debounce.visibilityHandler d)) !! key
                        = None)
        /\ Debounce.pending (snd (Debounce.visibilityHandler d)) = []).
Proof.
  split; [exact booked_create|]. split; [exact booked_enqueue|].
  split; [exact booked_clear|].
  split; [intros limit d B; now apply booked_run_timers|].
  intros d B. pose proof B as (T & HA & HB).
  unfold Debounce.visibilityHandler.
  assert (Hafter : booked (snd (Debounce.flush_keys (Debounce.callback_keys d) d)))
    by (rewrite flush_keys_snd; now apply booked_fold_clear).
  assert (Hnil : Debounce.pending
                   (snd (Debounce.flush_keys (Debounce.callback_keys d) d)) = []).
  { destruct (Debounce.pending (snd (Debounce.flush_keys (Debounce.callback_keys d) d)))
      as [|x l] eqn:El; [reflexivity|]. exfalso.
    assert (Hx : x ∈ Debounce.pending
                       (snd (Debounce.flush_keys (Debounce.callback_keys d) d)))
      by (rewrite El; now left).
    rewrite flush_keys_snd in Hx.
    destruct (fold_clear_disarms _ d T x Hx) as [Hx' Hni].
    apply Hni, HA, HB, Hx'. }
  split; [|split; [|split; [|split]]].
  - intros key cb Hcb. apply flush_keys_fires; [|exact Hcb]. apply HA. eauto.
  - apply flush_keys_ran.
  - exact Hafter.
  - intros key.
    destruct (Debounce.callbacks
                (snd (Debounce.flush_keys (Debounce.callback_keys d) d)) !! key)
      as [cb|] eqn:Ecb; [exfalso | reflexivity].
    destruct Hafter as (_ & HA' & _).
    assert (Hk : key ∈ Debounce.callback_keys
                         (snd (Debounce.flush_keys (Debounce.callback_keys d) d)))
      by (apply HA'; eauto).
    apply callback_keys_spec in Hk as (tm & Hin & _). rewrite Hnil in Hin.
    now apply elem_of_nil in Hin.
  - exact Hnil.
Qed.
